(** * react-native-lighthouse: scoring engine and lifecycle hook

    A shallow embedding of [scoring.ts] and [usePerformanceMeasurement.ts].

    Numbers.  A JavaScript [number] is read in two ways.

    - [Binary64]: IEEE 754 binary64, as the language has it: every operation
      rounds to nearest, and NaN, the infinities and the signed zeros are
      values.  [Scoring64] is [scoring.ts] over it.  Whatever is said of the
      value a score takes (the interpolation, the weighted sum, its range,
      what NaN does) is proved there.

    - [JS]: exact rationals, the arithmetic without rounding, NaN or
      infinities, a division by zero being a failure.  [Scoring] is
      [scoring.ts] over it, and the hook computes its scores with it.  It
      serves the properties that do not depend on the last bit of a score:
      the order of scores, the defaults of absent fields, the category
      bands, and the lifecycle of the hook. *)

From Stdlib Require Import ZArith QArith Qround Qpower Bool List String Lia Lqa.
From Stdlib Require DecimalString SpecFloat.
Import ListNotations.

Local Open Scope Q_scope.

(** ** JavaScript operators, in exact arithmetic *)

Module JS.

Definition number := Q.

(** [a <= b] and [a >= b] on numbers. *)
Definition le (a b : number) : bool := Qle_bool a b.
Definition ge (a b : number) : bool := Qle_bool b a.

(** [a / b]: fails on a zero divisor. *)
Definition div (a b : number) : option number :=
  if Qeq_bool b 0 then None else Some (a / b).

(** [Math.round]: the nearest integer, a tie going towards plus infinity. *)
Definition Math_round (x : number) : number :=
  inject_Z (Qfloor (x + (1 # 2))).

(** Truthiness of a number: every number but zero. *)
Definition truthy (x : number) : bool := negb (Qeq_bool x 0).

(** [a ?? b] where [a] may be undefined. *)
Definition nullish {A : Type} (a : option A) (b : A) : A :=
  match a with
  | Some v => v
  | None => b
  end.

(** [a || b] where [a] is a number or undefined and [b] may be undefined. *)
Definition or_number (a b : option number) : option number :=
  match a with
  | Some v => if truthy v then Some v else b
  | None => b
  end.

(** [a || b] where [a] is an object or null/undefined. *)
Definition or_object {A : Type} (a b : option A) : option A :=
  match a with
  | Some _ => a
  | None => b
  end.

(** Sequencing of computations that may fail. *)
Definition bind {A B : Type} (c : option A) (k : A -> option B) : option B :=
  match c with
  | Some a => k a
  | None => None
  end.

End JS.

Notation "x <- c ;; k" := (JS.bind c (fun x => k))
  (at level 61, c at next level, right associativity).

(** ** JavaScript numbers: IEEE 754 binary64

    A number is a [spec_float] of the standard library's specification of
    floating-point arithmetic ([SpecFloat], after Flocq): plus or minus
    zero, plus or minus infinity, NaN, or a finite [(-1)^s * m * 2^e].  The
    operations round to nearest, ties to even, with 53 bits of precision
    and exponents up to 1024, as the language's do. *)

Module Binary64.
Import SpecFloat.

Definition number := spec_float.
Definition prec : Z := 53.
Definition emax : Z := 1024.

(** The numbers of the format: a finite one has its mantissa in canonical
    form and its exponent in range. *)
Definition valid (x : number) : bool := valid_binary prec emax x.

Definition NaN : number := S754_nan.

(** An integer literal. *)
Definition of_Z (z : Z) : number := binary_normalize prec emax z 0 false.

Definition add (a b : number) : number := SFadd prec emax a b.
Definition sub (a b : number) : number := SFsub prec emax a b.
Definition mul (a b : number) : number := SFmul prec emax a b.
Definition div (a b : number) : number := SFdiv prec emax a b.

(** A decimal literal [n / scale], [scale] a power of ten: the number
    nearest to it, which is the correctly rounded quotient of two integers
    the format holds exactly. *)
Definition decimal (n scale : Z) : number := div (of_Z n) (of_Z scale).

(** [a < b], [a <= b], [a >= b] and [a == b]: false when either side is
    NaN. *)
Definition lt (a b : number) : bool := SFltb a b.
Definition le (a b : number) : bool := SFleb a b.
Definition ge (a b : number) : bool := SFleb b a.
Definition eqb (a b : number) : bool := SFeqb a b.

(** [Math.round]: NaN, the infinities, the zeros and the integers are
    returned as they are; any other [x] gives [floor(x + 1/2)], computed
    exactly, with the sign of [x] when that is zero. *)
Definition Math_round (x : number) : number :=
  match x with
  | S754_finite s m e =>
      if (0 <=? e)%Z then x
      else binary_normalize prec emax
             ((2 * cond_Zopp s (Zpos m) + 2 ^ (- e)) / 2 ^ (1 - e))%Z 0 s
  | _ => x
  end.

Definition is_nan (x : number) : bool :=
  match x with S754_nan => true | _ => false end.

(** Neither NaN nor an infinity. *)
Definition is_finite (x : number) : bool :=
  match x with S754_finite _ _ _ | S754_zero _ => true | _ => false end.

End Binary64.

(** ** types.ts *)

Inductive InputType := touch | press | scroll | other.

Record FirstInputDelayMetrics := {
  firstInputDelayMs : JS.number;
  firstInputTimeMs : JS.number;
  inputProcessingStartTimeMs : JS.number;
  inputType : InputType
}.

Record PerformanceMetrics := {
  timeToFirstFrameMs : JS.number;
  timeToInteractiveMs : option JS.number;
  firstInputDelay : option FirstInputDelayMetrics;
  mountStartTimeMs : JS.number;
  firstFrameTimeMs : JS.number;
  interactiveTimeMs : option JS.number
}.

Inductive Category := excellent | good_category | needs_improvement | poor_category.

Record Breakdown := {
  b_ttff : JS.number;
  b_tti : JS.number;
  b_fid : JS.number
}.

Record PerformanceScore := {
  overall : JS.number;
  breakdown : Breakdown;
  category : Category
}.

Record MetricThresholds := {
  good : JS.number;
  poor : JS.number
}.

Record PerformanceThresholds := {
  t_ttff : MetricThresholds;
  t_tti : MetricThresholds;
  t_fid : MetricThresholds
}.

Record MetricWeights := {
  w_ttff : JS.number;
  w_tti : JS.number;
  w_fid : JS.number
}.

(** ** scoring.ts *)

Module Scoring.

Definition DEFAULT_THRESHOLDS : PerformanceThresholds := {|
  t_ttff := {| good := 300; poor := 800 |};
  t_tti := {| good := 500; poor := 1500 |};
  t_fid := {| good := 50; poor := 150 |}
|}.

Definition DEFAULT_WEIGHTS : MetricWeights := {|
  w_ttff := 25 # 100;
  w_tti := 45 # 100;
  w_fid := 30 # 100
|}.

Definition calculateMetricScore (value : JS.number) (thresholds : MetricThresholds)
  : option JS.number :=
  if JS.le value (good thresholds) then Some 100
  else if JS.ge value (poor thresholds) then Some 0
  else
    let range := poor thresholds - good thresholds in
    let position := value - good thresholds in
    q <- JS.div position range ;;
    Some (JS.Math_round (100 - q * 100)).

Definition getScoreCategory (score : JS.number) : Category :=
  if JS.ge score 90 then excellent
  else if JS.ge score 75 then good_category
  else if JS.ge score 50 then needs_improvement
  else poor_category.

(** The value scored for TTI: [metrics.timeToInteractiveMs ?? metrics.timeToFirstFrameMs]. *)
Definition ttiValue (metrics : PerformanceMetrics) : JS.number :=
  JS.nullish (timeToInteractiveMs metrics) (timeToFirstFrameMs metrics).

(** The value scored for FID: [metrics.firstInputDelay?.firstInputDelayMs ?? 0]. *)
Definition fidValue (metrics : PerformanceMetrics) : JS.number :=
  JS.nullish (option_map firstInputDelayMs (firstInputDelay metrics)) 0.

(** [thresholds] and [weights] are optional arguments: an omitted one takes
    its default. *)
Definition calculatePerformanceScore (metrics : PerformanceMetrics)
    (thresholds_arg : option PerformanceThresholds) (weights_arg : option MetricWeights)
  : option PerformanceScore :=
  let thresholds := JS.nullish thresholds_arg DEFAULT_THRESHOLDS in
  let weights := JS.nullish weights_arg DEFAULT_WEIGHTS in
  ttffScore <- calculateMetricScore (timeToFirstFrameMs metrics) (t_ttff thresholds) ;;
  ttiScore <- calculateMetricScore (ttiValue metrics) (t_tti thresholds) ;;
  fidScore <- calculateMetricScore (fidValue metrics) (t_fid thresholds) ;;
  let overall := JS.Math_round
    (ttffScore * w_ttff weights + ttiScore * w_tti weights + fidScore * w_fid weights) in
  Some {| overall := overall;
          breakdown := {| b_ttff := ttffScore; b_tti := ttiScore; b_fid := fidScore |};
          category := getScoreCategory overall |}.

End Scoring.

(** ** scoring.ts over binary64

    The same functions with the numbers of the source: the values they
    return are those the program computes, rounding, NaN and infinities
    included.  The records are those of types.ts over binary64. *)

Module Scoring64.
Import Binary64.

Record FirstInputDelayMetrics := {
  firstInputDelayMs : number;
  firstInputTimeMs : number;
  inputProcessingStartTimeMs : number;
  inputType : InputType
}.

Record PerformanceMetrics := {
  timeToFirstFrameMs : number;
  timeToInteractiveMs : option number;
  firstInputDelay : option FirstInputDelayMetrics;
  mountStartTimeMs : number;
  firstFrameTimeMs : number;
  interactiveTimeMs : option number
}.

Record Breakdown := {
  b_ttff : number;
  b_tti : number;
  b_fid : number
}.

Record PerformanceScore := {
  overall : number;
  breakdown : Breakdown;
  category : Category
}.

Record MetricThresholds := {
  good : number;
  poor : number
}.

Record PerformanceThresholds := {
  t_ttff : MetricThresholds;
  t_tti : MetricThresholds;
  t_fid : MetricThresholds
}.

Record MetricWeights := {
  w_ttff : number;
  w_tti : number;
  w_fid : number
}.

Definition DEFAULT_THRESHOLDS : PerformanceThresholds := {|
  t_ttff := {| good := of_Z 300; poor := of_Z 800 |};
  t_tti := {| good := of_Z 500; poor := of_Z 1500 |};
  t_fid := {| good := of_Z 50; poor := of_Z 150 |}
|}.

Definition DEFAULT_WEIGHTS : MetricWeights := {|
  w_ttff := decimal 25 100;
  w_tti := decimal 45 100;
  w_fid := decimal 30 100
|}.

Definition calculateMetricScore (value : number) (thresholds : MetricThresholds)
  : number :=
  if le value (good thresholds) then of_Z 100
  else if ge value (poor thresholds) then of_Z 0
  else
    let range := sub (poor thresholds) (good thresholds) in
    let position := sub value (good thresholds) in
    Math_round (sub (of_Z 100) (mul (div position range) (of_Z 100))).

Definition getScoreCategory (score : number) : Category :=
  if ge score (of_Z 90) then excellent
  else if ge score (of_Z 75) then good_category
  else if ge score (of_Z 50) then needs_improvement
  else poor_category.

Definition ttiValue (metrics : PerformanceMetrics) : number :=
  JS.nullish (timeToInteractiveMs metrics) (timeToFirstFrameMs metrics).

Definition fidValue (metrics : PerformanceMetrics) : number :=
  JS.nullish (option_map firstInputDelayMs (firstInputDelay metrics)) (of_Z 0).

Definition calculatePerformanceScore (metrics : PerformanceMetrics)
    (thresholds_arg : option PerformanceThresholds)
    (weights_arg : option MetricWeights) : PerformanceScore :=
  let thresholds := JS.nullish thresholds_arg DEFAULT_THRESHOLDS in
  let weights := JS.nullish weights_arg DEFAULT_WEIGHTS in
  let ttffScore := calculateMetricScore (timeToFirstFrameMs metrics) (t_ttff thresholds) in
  let ttiScore := calculateMetricScore (ttiValue metrics) (t_tti thresholds) in
  let fidScore := calculateMetricScore (fidValue metrics) (t_fid thresholds) in
  let overall :=
    Math_round (add (add (mul ttffScore (w_ttff weights)) (mul ttiScore (w_tti weights)))
                    (mul fidScore (w_fid weights))) in
  {| overall := overall;
     breakdown := {| b_ttff := ttffScore; b_tti := ttiScore; b_fid := fidScore |};
     category := getScoreCategory overall |}.

End Scoring64.

(** ** usePerformanceMeasurement.ts

    One mounted instance of the hook.  The refs and the two [useState] cells
    make up the instance's state; the host (React, the event loop, the
    gesture responder) is represented by the microtask queue, the table of
    pending timers and the events of [Event].  Whatever the hook writes to
    the console or passes to a callback is appended to [out].  The options
    are those of the first render and stay fixed. *)

Module Hook.

Definition TimerId := positive.

Record Options := {
  componentName : string;
  namespace : option string;
  fidTimeout_opt : option JS.number;
  debug_opt : option bool;
  (** whether the caller supplied the callback *)
  onMetricsReady : bool;
  onInteractive : bool;
  onReport : bool
}.

Inductive LogLine :=
| LogTTFF (logPrefix : string) (ttff : JS.number)
| LogTTI (logPrefix : string) (tti : option JS.number)
| LogFidTimeout (logPrefix : string) (fidTimeout : JS.number)
| LogFinal (logPrefix : string) (TTFF_ms : JS.number) (TTI_ms : option JS.number)
    (FID_ms : option JS.number) (FID_type : option InputType)
    (score : JS.number) (category : Category).

Inductive Output :=
| ConsoleLog (line : LogLine)
| CallOnMetricsReady (metrics : PerformanceMetrics)
| CallOnInteractive (metrics : PerformanceMetrics)
| CallOnReport (metrics : PerformanceMetrics) (score : PerformanceScore).

(** The two closures the hook hands to [queueMicrotask]. *)
Inductive Microtask :=
| FirstFrameTask
| FidTask (inputTime : JS.number) (inputType : InputType).

Record State := {
  mountStartTimeMsRef : JS.number;
  firstFrameTimeMsRef : option JS.number;
  interactiveTimeMsRef : option JS.number;
  metricsRef : option PerformanceMetrics;
  hasLoggedRef : bool;
  metricsState : option PerformanceMetrics;
  scoreState : option PerformanceScore;
  firstInputDelayRef : option FirstInputDelayMetrics;
  hasRecordedFirstInputRef : bool;
  fidTimeoutRef : option TimerId;
  (** the host *)
  microtasks : list Microtask;
  timers : list (TimerId * JS.number);
  nextTimerId : TimerId;
  out : list Output
}.

Definition set_firstFrameTimeMsRef v s :=
  {| mountStartTimeMsRef := mountStartTimeMsRef s; firstFrameTimeMsRef := v;
     interactiveTimeMsRef := interactiveTimeMsRef s; metricsRef := metricsRef s;
     hasLoggedRef := hasLoggedRef s; metricsState := metricsState s;
     scoreState := scoreState s; firstInputDelayRef := firstInputDelayRef s;
     hasRecordedFirstInputRef := hasRecordedFirstInputRef s;
     fidTimeoutRef := fidTimeoutRef s; microtasks := microtasks s;
     timers := timers s; nextTimerId := nextTimerId s; out := out s |}.

Definition set_interactiveTimeMsRef v s :=
  {| mountStartTimeMsRef := mountStartTimeMsRef s;
     firstFrameTimeMsRef := firstFrameTimeMsRef s;
     interactiveTimeMsRef := v; metricsRef := metricsRef s;
     hasLoggedRef := hasLoggedRef s; metricsState := metricsState s;
     scoreState := scoreState s; firstInputDelayRef := firstInputDelayRef s;
     hasRecordedFirstInputRef := hasRecordedFirstInputRef s;
     fidTimeoutRef := fidTimeoutRef s; microtasks := microtasks s;
     timers := timers s; nextTimerId := nextTimerId s; out := out s |}.

Definition set_metricsRef v s :=
  {| mountStartTimeMsRef := mountStartTimeMsRef s;
     firstFrameTimeMsRef := firstFrameTimeMsRef s;
     interactiveTimeMsRef := interactiveTimeMsRef s; metricsRef := v;
     hasLoggedRef := hasLoggedRef s; metricsState := metricsState s;
     scoreState := scoreState s; firstInputDelayRef := firstInputDelayRef s;
     hasRecordedFirstInputRef := hasRecordedFirstInputRef s;
     fidTimeoutRef := fidTimeoutRef s; microtasks := microtasks s;
     timers := timers s; nextTimerId := nextTimerId s; out := out s |}.

Definition set_hasLoggedRef v s :=
  {| mountStartTimeMsRef := mountStartTimeMsRef s;
     firstFrameTimeMsRef := firstFrameTimeMsRef s;
     interactiveTimeMsRef := interactiveTimeMsRef s; metricsRef := metricsRef s;
     hasLoggedRef := v; metricsState := metricsState s;
     scoreState := scoreState s; firstInputDelayRef := firstInputDelayRef s;
     hasRecordedFirstInputRef := hasRecordedFirstInputRef s;
     fidTimeoutRef := fidTimeoutRef s; microtasks := microtasks s;
     timers := timers s; nextTimerId := nextTimerId s; out := out s |}.

Definition setMetrics v s :=
  {| mountStartTimeMsRef := mountStartTimeMsRef s;
     firstFrameTimeMsRef := firstFrameTimeMsRef s;
     interactiveTimeMsRef := interactiveTimeMsRef s; metricsRef := metricsRef s;
     hasLoggedRef := hasLoggedRef s; metricsState := Some v;
     scoreState := scoreState s; firstInputDelayRef := firstInputDelayRef s;
     hasRecordedFirstInputRef := hasRecordedFirstInputRef s;
     fidTimeoutRef := fidTimeoutRef s; microtasks := microtasks s;
     timers := timers s; nextTimerId := nextTimerId s; out := out s |}.

Definition setScore v s :=
  {| mountStartTimeMsRef := mountStartTimeMsRef s;
     firstFrameTimeMsRef := firstFrameTimeMsRef s;
     interactiveTimeMsRef := interactiveTimeMsRef s; metricsRef := metricsRef s;
     hasLoggedRef := hasLoggedRef s; metricsState := metricsState s;
     scoreState := Some v; firstInputDelayRef := firstInputDelayRef s;
     hasRecordedFirstInputRef := hasRecordedFirstInputRef s;
     fidTimeoutRef := fidTimeoutRef s; microtasks := microtasks s;
     timers := timers s; nextTimerId := nextTimerId s; out := out s |}.

Definition set_firstInputDelayRef v s :=
  {| mountStartTimeMsRef := mountStartTimeMsRef s;
     firstFrameTimeMsRef := firstFrameTimeMsRef s;
     interactiveTimeMsRef := interactiveTimeMsRef s; metricsRef := metricsRef s;
     hasLoggedRef := hasLoggedRef s; metricsState := metricsState s;
     scoreState := scoreState s; firstInputDelayRef := v;
     hasRecordedFirstInputRef := hasRecordedFirstInputRef s;
     fidTimeoutRef := fidTimeoutRef s; microtasks := microtasks s;
     timers := timers s; nextTimerId := nextTimerId s; out := out s |}.

Definition set_hasRecordedFirstInputRef v s :=
  {| mountStartTimeMsRef := mountStartTimeMsRef s;
     firstFrameTimeMsRef := firstFrameTimeMsRef s;
     interactiveTimeMsRef := interactiveTimeMsRef s; metricsRef := metricsRef s;
     hasLoggedRef := hasLoggedRef s; metricsState := metricsState s;
     scoreState := scoreState s; firstInputDelayRef := firstInputDelayRef s;
     hasRecordedFirstInputRef := v;
     fidTimeoutRef := fidTimeoutRef s; microtasks := microtasks s;
     timers := timers s; nextTimerId := nextTimerId s; out := out s |}.

Definition set_fidTimeoutRef v s :=
  {| mountStartTimeMsRef := mountStartTimeMsRef s;
     firstFrameTimeMsRef := firstFrameTimeMsRef s;
     interactiveTimeMsRef := interactiveTimeMsRef s; metricsRef := metricsRef s;
     hasLoggedRef := hasLoggedRef s; metricsState := metricsState s;
     scoreState := scoreState s; firstInputDelayRef := firstInputDelayRef s;
     hasRecordedFirstInputRef := hasRecordedFirstInputRef s;
     fidTimeoutRef := v; microtasks := microtasks s;
     timers := timers s; nextTimerId := nextTimerId s; out := out s |}.

Definition set_microtasks v s :=
  {| mountStartTimeMsRef := mountStartTimeMsRef s;
     firstFrameTimeMsRef := firstFrameTimeMsRef s;
     interactiveTimeMsRef := interactiveTimeMsRef s; metricsRef := metricsRef s;
     hasLoggedRef := hasLoggedRef s; metricsState := metricsState s;
     scoreState := scoreState s; firstInputDelayRef := firstInputDelayRef s;
     hasRecordedFirstInputRef := hasRecordedFirstInputRef s;
     fidTimeoutRef := fidTimeoutRef s; microtasks := v;
     timers := timers s; nextTimerId := nextTimerId s; out := out s |}.

Definition set_timers v n s :=
  {| mountStartTimeMsRef := mountStartTimeMsRef s;
     firstFrameTimeMsRef := firstFrameTimeMsRef s;
     interactiveTimeMsRef := interactiveTimeMsRef s; metricsRef := metricsRef s;
     hasLoggedRef := hasLoggedRef s; metricsState := metricsState s;
     scoreState := scoreState s; firstInputDelayRef := firstInputDelayRef s;
     hasRecordedFirstInputRef := hasRecordedFirstInputRef s;
     fidTimeoutRef := fidTimeoutRef s; microtasks := microtasks s;
     timers := v; nextTimerId := n; out := out s |}.

Definition emit (o : Output) s :=
  {| mountStartTimeMsRef := mountStartTimeMsRef s;
     firstFrameTimeMsRef := firstFrameTimeMsRef s;
     interactiveTimeMsRef := interactiveTimeMsRef s; metricsRef := metricsRef s;
     hasLoggedRef := hasLoggedRef s; metricsState := metricsState s;
     scoreState := scoreState s; firstInputDelayRef := firstInputDelayRef s;
     hasRecordedFirstInputRef := hasRecordedFirstInputRef s;
     fidTimeoutRef := fidTimeoutRef s; microtasks := microtasks s;
     timers := timers s; nextTimerId := nextTimerId s; out := out s ++ [o] |}.

(** *** The host's primitives *)

Definition queueMicrotask (task : Microtask) (s : State) : State :=
  set_microtasks (microtasks s ++ [task]) s.

(** [setTimeout(callback, delay)]: the hook has one timer callback (the FID
    timeout), so a pending timer is its identifier and its delay. *)
Definition setTimeout (delay : JS.number) (s : State) : TimerId * State :=
  (nextTimerId s,
   set_timers ((nextTimerId s, delay) :: timers s) (Pos.succ (nextTimerId s)) s).

Definition clearTimeout (id : TimerId) (s : State) : State :=
  set_timers (filter (fun t => negb (Pos.eqb (fst t) id)) (timers s)) (nextTimerId s) s.

Definition is_pending (id : TimerId) (s : State) : bool :=
  existsb (fun t => Pos.eqb (fst t) id) (timers s).

(** [when c f]: [if (c) f()]. *)
Definition when (c : bool) (f : State -> State) (s : State) : State :=
  if c then f s else s.

(** The handlers the hook gives to [PanResponder.create]. *)
Inductive PanHandler :=
| onStartShouldSetPanResponder
| onMoveShouldSetPanResponder.

(** What the host does to an instance.  An event that reads the clock
    carries the value [Date.now()] returns during it. *)
Inductive Event :=
| MountEffect (now : JS.number)
| MarkInteractive (now : JS.number)
| Gesture (handler : PanHandler) (now : JS.number)
| RunMicrotask (now : JS.number)
| TimerFires (id : TimerId)
| Unmount.

Section Instance.

(** [__DEV__], or [process.env.NODE_ENV === 'development']. *)
Variable isDev : bool.
Variable options : Options.

Definition fidTimeout : JS.number := JS.nullish (fidTimeout_opt options) 5000.
Definition debug : bool := JS.nullish (debug_opt options) isDev.

Definition logPrefix : string :=
  match namespace options with
  | Some ns =>
      if String.eqb ns EmptyString then componentName options
      else (ns ++ "/" ++ componentName options)%string
  | None => componentName options
  end.

(** The state of the first render, [Date.now()] being [now]. *)
Definition init (now : JS.number) : State := {|
  mountStartTimeMsRef := now;
  firstFrameTimeMsRef := None;
  interactiveTimeMsRef := None;
  metricsRef := None;
  hasLoggedRef := false;
  metricsState := None;
  scoreState := None;
  firstInputDelayRef := None;
  hasRecordedFirstInputRef := false;
  fidTimeoutRef := None;
  microtasks := [];
  timers := [];
  nextTimerId := 1%positive;
  out := []
|}.

(** The metrics [logFinalMetrics] reports: the current record, with the TTI
    fields and the first input reconciled with the refs. *)
Definition finalMetricsOf (current : PerformanceMetrics) (s : State)
  : PerformanceMetrics := {|
  timeToFirstFrameMs := timeToFirstFrameMs current;
  timeToInteractiveMs :=
    JS.or_number (timeToInteractiveMs current)
      match interactiveTimeMsRef s with
      | Some t => if JS.truthy t then Some (t - mountStartTimeMsRef s) else None
      | None => None
      end;
  firstInputDelay := JS.or_object (firstInputDelayRef s) (firstInputDelay current);
  mountStartTimeMs := mountStartTimeMs current;
  firstFrameTimeMs := firstFrameTimeMs current;
  interactiveTimeMs :=
    JS.or_number (JS.or_number (interactiveTimeMs current) (interactiveTimeMsRef s))
      None
|}.

Definition logFinalMetrics (s : State) : option State :=
  match metricsRef s with
  | None => Some s
  | Some current =>
      if hasLoggedRef s then Some s
      else
        let s := set_hasLoggedRef true s in
        let s := match fidTimeoutRef s with
                 | Some id => set_fidTimeoutRef None (clearTimeout id s)
                 | None => s
                 end in
        let finalMetrics := finalMetricsOf current s in
        let s := set_metricsRef (Some finalMetrics) s in
        let s := setMetrics finalMetrics s in
        finalScore <- Scoring.calculatePerformanceScore finalMetrics None None ;;
        let s := setScore finalScore s in
        let s := when debug
          (emit (ConsoleLog
             (LogFinal logPrefix
                (timeToFirstFrameMs finalMetrics)
                (timeToInteractiveMs finalMetrics)
                (option_map firstInputDelayMs (firstInputDelay finalMetrics))
                (option_map inputType (firstInputDelay finalMetrics))
                (overall finalScore) (category finalScore)))) s in
        let s := when (onReport options) (emit (CallOnReport finalMetrics finalScore)) s in
        Some s
  end.

(** [measureFirstInputDelay(inputType)]: the state after the call and the
    value returned to the responder. *)
Definition measureFirstInputDelay (ty : InputType) (now : JS.number) (s : State)
  : State * bool :=
  let s :=
    if negb (hasRecordedFirstInputRef s) then
      let inputTime := now in
      let s := set_hasRecordedFirstInputRef true s in
      queueMicrotask (FidTask inputTime ty) s
    else s in
  (s, false).

(** The closure [measureFirstInputDelay] queues. *)
Definition runFidTask (inputTime : JS.number) (ty : InputType) (now : JS.number)
    (s : State) : option State :=
  let processingStartTime := now in
  let fidMetrics := {|
    firstInputDelayMs := processingStartTime - inputTime;
    firstInputTimeMs := inputTime;
    inputProcessingStartTimeMs := processingStartTime;
    inputType := ty
  |} in
  let s := set_firstInputDelayRef (Some fidMetrics) s in
  s <- match metricsRef s with
       | Some current =>
           let updatedMetrics := {|
             timeToFirstFrameMs := timeToFirstFrameMs current;
             timeToInteractiveMs := timeToInteractiveMs current;
             firstInputDelay := Some fidMetrics;
             mountStartTimeMs := mountStartTimeMs current;
             firstFrameTimeMs := firstFrameTimeMs current;
             interactiveTimeMs := interactiveTimeMs current
           |} in
           let s := set_metricsRef (Some updatedMetrics) s in
           let s := setMetrics updatedMetrics s in
           updatedScore <- Scoring.calculatePerformanceScore updatedMetrics None None ;;
           let s := setScore updatedScore s in
           Some (when (onMetricsReady options) (emit (CallOnMetricsReady updatedMetrics)) s)
       | None => Some s
       end ;;
  logFinalMetrics s.

Definition panResponder (handler : PanHandler) (now : JS.number) (s : State)
  : State * bool :=
  match handler with
  | onStartShouldSetPanResponder => measureFirstInputDelay touch now s
  | onMoveShouldSetPanResponder => measureFirstInputDelay scroll now s
  end.

(** The effect that captures the first frame. *)
Definition mountEffect (now : JS.number) (s : State) : State :=
  let s := match firstFrameTimeMsRef s with
           | None => set_firstFrameTimeMsRef (Some now) s
           | Some _ => s
           end in
  queueMicrotask FirstFrameTask s.

(** The closure the effect queues.  It asserts that the first-frame time
    is set ([firstFrameTimeMsRef.current!]); the model fails where it is not. *)
Definition runFirstFrameTask (s : State) : option State :=
  firstFrameTime <- firstFrameTimeMsRef s ;;
  let initialMetrics := {|
    timeToFirstFrameMs := firstFrameTime - mountStartTimeMsRef s;
    timeToInteractiveMs := None;
    firstInputDelay := None;
    mountStartTimeMs := mountStartTimeMsRef s;
    firstFrameTimeMs := firstFrameTime;
    interactiveTimeMs := None
  |} in
  let s := set_metricsRef (Some initialMetrics) s in
  let s := setMetrics initialMetrics s in
  initialScore <- Scoring.calculatePerformanceScore initialMetrics None None ;;
  let s := setScore initialScore s in
  let s := when debug
    (emit (ConsoleLog (LogTTFF logPrefix (timeToFirstFrameMs initialMetrics)))) s in
  Some (when (onMetricsReady options) (emit (CallOnMetricsReady initialMetrics)) s).

(** The callback of the FID timeout. *)
Definition fidTimeoutCallback (s : State) : option State :=
  let s := when debug (emit (ConsoleLog (LogFidTimeout logPrefix fidTimeout))) s in
  logFinalMetrics s.

(** [x || 0] on a field of the current metrics, if there are any. *)
Definition or_zero (x : option JS.number) : JS.number :=
  match x with
  | Some v => if JS.truthy v then v else 0
  | None => 0
  end.

(** The metrics [markInteractive] builds spread the current record, if any,
    and then set every one of its fields. *)
Definition markInteractive (now : JS.number) (s : State) : option State :=
  match interactiveTimeMsRef s with
  | Some _ => Some s
  | None =>
      let s := set_interactiveTimeMsRef (Some now) s in
      let updatedMetrics := {|
        timeToFirstFrameMs := or_zero (option_map timeToFirstFrameMs (metricsRef s));
        timeToInteractiveMs := Some (now - mountStartTimeMsRef s);
        firstInputDelay :=
          JS.or_object (firstInputDelayRef s)
            match metricsRef s with
            | Some current => firstInputDelay current
            | None => None
            end;
        mountStartTimeMs := mountStartTimeMsRef s;
        firstFrameTimeMs := or_zero (option_map firstFrameTimeMs (metricsRef s));
        interactiveTimeMs := Some now
      |} in
      let s := set_metricsRef (Some updatedMetrics) s in
      let s := setMetrics updatedMetrics s in
      updatedScore <- Scoring.calculatePerformanceScore updatedMetrics None None ;;
      let s := setScore updatedScore s in
      let s := when debug
        (emit (ConsoleLog (LogTTI logPrefix (timeToInteractiveMs updatedMetrics)))) s in
      let s := when (onInteractive options) (emit (CallOnInteractive updatedMetrics)) s in
      Some
        match hasLoggedRef s, fidTimeoutRef s with
        | false, None =>
            let (id, s) := setTimeout fidTimeout s in
            set_fidTimeoutRef (Some id) s
        | _, _ => s
        end
  end.

(** The cleanup of the unmount effect. *)
Definition unmountCleanup (s : State) : State :=
  match fidTimeoutRef s with
  | Some id => clearTimeout id s
  | None => s
  end.

(** One event.  A microtask runs only if one is queued, the oldest first;
    a timer fires only while it is pending, and is no longer pending
    when its callback runs. *)
Definition step (s : State) (e : Event) : option State :=
  match e with
  | MountEffect now => Some (mountEffect now s)
  | MarkInteractive now => markInteractive now s
  | Gesture handler now => Some (fst (panResponder handler now s))
  | RunMicrotask now =>
      match microtasks s with
      | [] => Some s
      | task :: rest =>
          let s := set_microtasks rest s in
          match task with
          | FirstFrameTask => runFirstFrameTask s
          | FidTask inputTime ty => runFidTask inputTime ty now s
          end
      end
  | TimerFires id =>
      if is_pending id s then fidTimeoutCallback (clearTimeout id s)
      else Some s
  | Unmount => Some (unmountCleanup s)
  end.

Fixpoint run (s : State) (events : list Event) : option State :=
  match events with
  | [] => Some s
  | e :: events => s <- step s e ;; run s events
  end.

End Instance.

End Hook.

(** ** Facts about the operators *)

Section OperatorFacts.

Lemma le_true_iff (a b : JS.number) : JS.le a b = true <-> a <= b.
Proof. apply Qle_bool_iff. Qed.

Lemma ge_true_iff (a b : JS.number) : JS.ge a b = true <-> b <= a.
Proof. apply Qle_bool_iff. Qed.

Lemma le_false_iff (a b : JS.number) : JS.le a b = false <-> b < a.
Proof.
  unfold JS.le. split; intro H.
  - apply Qnot_le_lt. intro Hle. apply Qle_bool_iff in Hle. congruence.
  - destruct (Qle_bool a b) eqn:E; [|reflexivity].
    apply Qle_bool_iff in E. lra.
Qed.

Lemma ge_false_iff (a b : JS.number) : JS.ge a b = false <-> a < b.
Proof. apply le_false_iff. Qed.

Lemma div_nonzero (a b : JS.number) : ~ b == 0 -> JS.div a b = Some (a / b).
Proof.
  intro Hb. unfold JS.div.
  destruct (Qeq_bool b 0) eqn:E; [|reflexivity].
  apply Qeq_bool_iff in E. contradiction.
Qed.

(** [Math.round x] is the integer [n] with [n - 1/2 <= x < n + 1/2]. *)
Lemma Math_round_bounds (x : JS.number) :
  JS.Math_round x - (1 # 2) <= x /\ x < JS.Math_round x + (1 # 2).
Proof.
  unfold JS.Math_round.
  pose proof (Qfloor_le (x + (1 # 2))) as Hlo.
  pose proof (Qlt_floor (x + (1 # 2))) as Hhi.
  rewrite inject_Z_plus in Hhi. change (inject_Z 1) with 1 in Hhi.
  split; lra.
Qed.

Lemma Math_round_mono (x y : JS.number) :
  x <= y -> JS.Math_round x <= JS.Math_round y.
Proof.
  intro H. unfold JS.Math_round.
  rewrite <- Zle_Qle. apply Qfloor_resp_le. lra.
Qed.

Lemma Math_round_integer (z : Z) : JS.Math_round (inject_Z z) = inject_Z z.
Proof.
  unfold JS.Math_round. f_equal.
  apply Z.le_antisymm.
  - apply Z.lt_succ_r. rewrite Zlt_Qlt.
    pose proof (Qfloor_le (inject_Z z + (1 # 2))) as H.
    unfold Z.succ. rewrite inject_Z_plus. change (inject_Z 1) with 1. lra.
  - rewrite <- (Qfloor_Z z) at 1. apply Qfloor_resp_le. lra.
Qed.

(** A rounded value lies between two integers when its argument does. *)
Lemma Math_round_between (x : JS.number) (lo hi : Z) :
  inject_Z lo <= x -> x <= inject_Z hi ->
  (lo <= Qfloor (x + (1 # 2)) <= hi)%Z.
Proof.
  intros Hlo Hhi. split.
  - rewrite <- (Qfloor_Z lo). apply Qfloor_resp_le. lra.
  - pose proof (Math_round_mono x (inject_Z hi) Hhi) as H.
    rewrite Math_round_integer in H. unfold JS.Math_round in H.
    rewrite <- Zle_Qle in H. exact H.
Qed.

End OperatorFacts.

(** ** The scoring engine *)

Module ScoringFacts.
Import Scoring.

(** The interpolated score, as the source writes it. *)
Definition interpolate (value : JS.number) (thresholds : MetricThresholds) : JS.number :=
  JS.Math_round
    (100 - ((value - good thresholds) / (poor thresholds - good thresholds)) * 100).

Lemma score_at_or_below_good value thresholds :
  value <= good thresholds -> calculateMetricScore value thresholds = Some 100.
Proof.
  intro H. unfold calculateMetricScore.
  apply le_true_iff in H. now rewrite H.
Qed.

(** Past the first test the value is above [good]; past the second it is
    below [poor]: the divisor is then positive. *)
Lemma score_interior value thresholds :
  good thresholds < value -> value < poor thresholds ->
  calculateMetricScore value thresholds = Some (interpolate value thresholds).
Proof.
  intros Hg Hp. unfold calculateMetricScore.
  apply le_false_iff in Hg. apply ge_false_iff in Hp. rewrite Hg, Hp.
  apply le_false_iff in Hg. apply ge_false_iff in Hp.
  cbv zeta. rewrite div_nonzero by lra. reflexivity.
Qed.

Lemma score_at_or_above_poor value thresholds :
  good thresholds < value -> poor thresholds <= value ->
  calculateMetricScore value thresholds = Some 0.
Proof.
  intros Hg Hp. unfold calculateMetricScore.
  apply le_false_iff in Hg. apply ge_true_iff in Hp. now rewrite Hg, Hp.
Qed.

(** The three paths of [calculateMetricScore], whatever the thresholds. *)
Lemma score_cases value thresholds :
  (value <= good thresholds /\ calculateMetricScore value thresholds = Some 100) \/
  (good thresholds < value /\ poor thresholds <= value /\
     calculateMetricScore value thresholds = Some 0) \/
  (good thresholds < value /\ value < poor thresholds /\
     calculateMetricScore value thresholds = Some (interpolate value thresholds)).
Proof.
  destruct (Qlt_le_dec (good thresholds) value) as [Hg|Hg].
  - destruct (Qlt_le_dec value (poor thresholds)) as [Hp|Hp].
    + right; right. auto using score_interior.
    + right; left. auto using score_at_or_above_poor.
  - left. auto using score_at_or_below_good.
Qed.

(** Between the thresholds the quantity that is rounded lies in [0,100]. *)
Lemma interpolation_range value thresholds :
  good thresholds < value -> value < poor thresholds ->
  0 <= 100 - ((value - good thresholds) / (poor thresholds - good thresholds)) * 100
    <= 100.
Proof.
  intros Hg Hp.
  set (r := poor thresholds - good thresholds).
  set (p := value - good thresholds).
  assert (Hr : 0 < r) by (unfold r; lra).
  assert (Hp0 : 0 <= p) by (unfold p; lra).
  assert (Hp1 : p <= r) by (unfold p, r; lra).
  assert (H0 : 0 <= p / r) by (apply Qle_shift_div_l; [exact Hr | lra]).
  assert (H1 : p / r <= 1) by (apply Qle_shift_div_r; [exact Hr | lra]).
  split; lra.
Qed.

Lemma interpolate_integer value thresholds :
  good thresholds < value -> value < poor thresholds ->
  exists z : Z, interpolate value thresholds = inject_Z z /\ (0 <= z <= 100)%Z.
Proof.
  intros Hg Hp. unfold interpolate, JS.Math_round.
  eexists. split; [reflexivity|].
  destruct (interpolation_range value thresholds Hg Hp) as [H0 H1].
  apply Math_round_between; assumption.
Qed.

(** Every call returns: an integer between 0 and 100. *)
Lemma score_total value thresholds :
  exists z : Z,
    calculateMetricScore value thresholds = Some (inject_Z z) /\ (0 <= z <= 100)%Z.
Proof.
  destruct (score_cases value thresholds) as [[_ H]|[(_ & _ & H)|(Hg & Hp & H)]].
  - exists 100%Z. split; [exact H | lia].
  - exists 0%Z. split; [exact H | lia].
  - destruct (interpolate_integer value thresholds Hg Hp) as (z & Hz & Hb).
    exists z. rewrite H, Hz. auto.
Qed.

(** What a returned [PerformanceScore] holds. *)
Lemma performance_score_inv metrics thresholds_arg weights_arg score :
  calculatePerformanceScore metrics thresholds_arg weights_arg = Some score ->
  let thresholds := JS.nullish thresholds_arg DEFAULT_THRESHOLDS in
  let weights := JS.nullish weights_arg DEFAULT_WEIGHTS in
  calculateMetricScore (timeToFirstFrameMs metrics) (t_ttff thresholds)
    = Some (b_ttff (breakdown score)) /\
  calculateMetricScore (ttiValue metrics) (t_tti thresholds)
    = Some (b_tti (breakdown score)) /\
  calculateMetricScore (fidValue metrics) (t_fid thresholds)
    = Some (b_fid (breakdown score)) /\
  overall score =
    JS.Math_round (b_ttff (breakdown score) * w_ttff weights
                   + b_tti (breakdown score) * w_tti weights
                   + b_fid (breakdown score) * w_fid weights) /\
  category score = getScoreCategory (overall score).
Proof.
  unfold calculatePerformanceScore. cbv zeta.
  destruct (calculateMetricScore (timeToFirstFrameMs metrics) _) as [a|]; [|discriminate].
  destruct (calculateMetricScore (ttiValue metrics) _) as [b|]; [|discriminate].
  destruct (calculateMetricScore (fidValue metrics) _) as [c|]; [|discriminate].
  cbn. intros [= <-]. cbn. auto.
Qed.

Lemma performance_score_total metrics thresholds_arg weights_arg :
  exists score,
    calculatePerformanceScore metrics thresholds_arg weights_arg = Some score.
Proof.
  unfold calculatePerformanceScore. cbv zeta.
  destruct (score_total (timeToFirstFrameMs metrics)
              (t_ttff (JS.nullish thresholds_arg DEFAULT_THRESHOLDS))) as (a & -> & _).
  destruct (score_total (ttiValue metrics)
              (t_tti (JS.nullish thresholds_arg DEFAULT_THRESHOLDS))) as (b & -> & _).
  destruct (score_total (fidValue metrics)
              (t_fid (JS.nullish thresholds_arg DEFAULT_THRESHOLDS))) as (c & -> & _).
  cbn. eauto.
Qed.


(** Sample metrics: only the three durations matter to the score. *)
Definition sample_metrics (ttff tti fid : JS.number) : PerformanceMetrics := {|
  timeToFirstFrameMs := ttff;
  timeToInteractiveMs := Some tti;
  firstInputDelay := Some {| firstInputDelayMs := fid;
                             firstInputTimeMs := 1300;
                             inputProcessingStartTimeMs := 1300 + fid;
                             inputType := touch |};
  mountStartTimeMs := 1000;
  firstFrameTimeMs := 1000 + ttff;
  interactiveTimeMs := Some (1000 + tti)
|}.

(** C2: when [timeToInteractiveMs] is absent the TTI value is
    [timeToFirstFrameMs]; when [firstInputDelay] is absent the FID value is 0;
    under the default thresholds metrics without [firstInputDelay] get a FID
    sub-score of 100. *)
Theorem calculatePerformanceScore_absent_fields metrics thresholds_arg weights_arg :
  exists score,
    calculatePerformanceScore metrics thresholds_arg weights_arg = Some score /\
    (timeToInteractiveMs metrics = None ->
       ttiValue metrics = timeToFirstFrameMs metrics /\
       calculateMetricScore (timeToFirstFrameMs metrics)
         (t_tti (JS.nullish thresholds_arg DEFAULT_THRESHOLDS))
         = Some (b_tti (breakdown score))) /\
    (firstInputDelay metrics = None ->
       fidValue metrics = 0 /\
       calculateMetricScore 0 (t_fid (JS.nullish thresholds_arg DEFAULT_THRESHOLDS))
         = Some (b_fid (breakdown score))) /\
    (firstInputDelay metrics = None -> thresholds_arg = None ->
       b_fid (breakdown score) = 100).
Proof.
  destruct (performance_score_total metrics thresholds_arg weights_arg) as [score Hs].
  exists score. split; [exact Hs|].
  destruct (performance_score_inv _ _ _ _ Hs) as (_ & Htti & Hfid & _).
  split; [|split].
  - intro Hnone. unfold ttiValue in *. rewrite Hnone in *. cbn in *. auto.
  - intro Hnone. unfold fidValue in *. rewrite Hnone in *. cbn in *. auto.
  - intros Hnone Hdefault. unfold fidValue in Hfid.
    rewrite Hnone, Hdefault in Hfid. cbn in Hfid. congruence.
Qed.

Lemma calculatePerformanceScore_absent_fields_witness :
  exists score,
    calculatePerformanceScore
      {| timeToFirstFrameMs := 200; timeToInteractiveMs := None;
         firstInputDelay := None; mountStartTimeMs := 1000;
         firstFrameTimeMs := 1200; interactiveTimeMs := None |} None None
      = Some score /\
    b_tti (breakdown score) = 100 /\ b_fid (breakdown score) = 100.
Proof.
  destruct (calculatePerformanceScore_absent_fields
              {| timeToFirstFrameMs := 200; timeToInteractiveMs := None;
                 firstInputDelay := None; mountStartTimeMs := 1000;
                 firstFrameTimeMs := 1200; interactiveTimeMs := None |} None None)
    as (score & Hs & Htti & _ & Hfid).
  exists score. split; [exact Hs|]. split.
  - destruct (Htti eq_refl) as [_ H]. cbn in H. congruence.
  - apply Hfid; reflexivity.
Defined.

(** C5: [getScoreCategory] maps a score of at least 90 to excellent, one in
    [75,90) to good, one in [50,75) to needs-improvement and any lower
    one to poor; 90, 89, 75, 74, 50 and 49 fall as the bands say. *)
Theorem getScoreCategory_bands score :
  (90 <= score -> getScoreCategory score = excellent) /\
  (75 <= score -> score < 90 -> getScoreCategory score = good_category) /\
  (50 <= score -> score < 75 -> getScoreCategory score = needs_improvement) /\
  (score < 50 -> getScoreCategory score = poor_category) /\
  getScoreCategory 90 = excellent /\
  getScoreCategory 89 = good_category /\
  getScoreCategory 75 = good_category /\
  getScoreCategory 74 = needs_improvement /\
  getScoreCategory 50 = needs_improvement /\
  getScoreCategory 49 = poor_category.
Proof.
  unfold getScoreCategory.
  repeat split; try reflexivity; intros;
    repeat match goal with
      | |- context [JS.ge ?a ?b] =>
          let E := fresh "E" in
          destruct (JS.ge a b) eqn:E;
          [apply ge_true_iff in E | apply ge_false_iff in E]
      end; try reflexivity; lra.
Qed.

Lemma getScoreCategory_bands_witness :
  getScoreCategory 100 = excellent /\
  getScoreCategory (80 + (1 # 2)) = good_category /\
  getScoreCategory 60 = needs_improvement /\
  getScoreCategory 0 = poor_category.
Proof.
  destruct (getScoreCategory_bands 100) as (H1 & _).
  destruct (getScoreCategory_bands (80 + (1 # 2))) as (_ & H2 & _).
  destruct (getScoreCategory_bands 60) as (_ & _ & H3 & _).
  destruct (getScoreCategory_bands 0) as (_ & _ & _ & H4 & _).
  split; [|split; [|split]].
  - apply H1. cbn. discriminate.
  - apply H2; [cbn; discriminate | reflexivity].
  - apply H3; [cbn; discriminate | reflexivity].
  - apply H4. reflexivity.
Defined.





End ScoringFacts.

(** ** Binary64 arithmetic

    What the rounding of [SpecFloat] does to a positive real: the result is
    a number of the format nearest to it, or plus infinity.  From it, the
    facts on subtraction, multiplication, division and [Math.round] that the
    bounds on a score rest on. *)

Module Binary64Facts.
Import SpecFloat Binary64.

(** Powers of two, of any integer exponent. *)
Definition pow2 (e : Z) : Q := 2 ^ e.

Lemma pow2_pos e : 0 < pow2 e.
Proof. apply Qpower_0_lt. reflexivity. Qed.

Lemma pow2_add a b : pow2 (a + b) == pow2 a * pow2 b.
Proof. apply Qpower_plus. discriminate. Qed.

Lemma pow2_Z e : (0 <= e)%Z -> pow2 e == inject_Z (2 ^ e).
Proof. intro H. unfold pow2. now rewrite Zpower_Qpower. Qed.

Lemma pow2_le a b : (a <= b)%Z -> pow2 a <= pow2 b.
Proof. intro H. apply Qpower_le_compat_l; [exact H | discriminate]. Qed.

Lemma pow2_lt a b : (a < b)%Z -> pow2 a < pow2 b.
Proof. intro H. apply Qpower_lt_compat_l; [exact H | reflexivity]. Qed.

(** [k * 2^e]. *)
Definition scale (k e : Z) : Q := inject_Z k * pow2 e.

Lemma scale_le k1 k2 e : (k1 <= k2)%Z -> scale k1 e <= scale k2 e.
Proof.
  intro H. unfold scale. apply Qmult_le_compat_r; [now rewrite <- Zle_Qle|].
  apply Qlt_le_weak, pow2_pos.
Qed.

Lemma scale_lt k1 k2 e : (k1 < k2)%Z -> scale k1 e < scale k2 e.
Proof.
  intro H. unfold scale. apply Qmult_lt_compat_r; [apply pow2_pos|].
  now rewrite <- Zlt_Qlt.
Qed.

Lemma scale_le_inv k1 k2 e : scale k1 e <= scale k2 e -> (k1 <= k2)%Z.
Proof.
  unfold scale. intro H. apply Qmult_le_r in H; [|apply pow2_pos].
  now rewrite Zle_Qle.
Qed.

Lemma scale_lt_inv k1 k2 e : scale k1 e < scale k2 e -> (k1 < k2)%Z.
Proof.
  unfold scale. intro H. apply Qmult_lt_r in H; [|apply pow2_pos].
  now rewrite Zlt_Qlt.
Qed.

Lemma scale_shift k e d : (0 <= d)%Z -> scale k (e + d) == scale (k * 2 ^ d) e.
Proof.
  intro H. unfold scale. rewrite pow2_add, (pow2_Z d H), inject_Z_mult. ring.
Qed.

Lemma scale_0 e : scale 0 e == 0.
Proof. unfold scale. ring. Qed.

Lemma scale_plus k1 k2 e : scale (k1 + k2) e == scale k1 e + scale k2 e.
Proof. unfold scale. rewrite inject_Z_plus. ring. Qed.

Lemma scale_opp k e : scale (- k) e == - scale k e.
Proof. unfold scale. rewrite inject_Z_opp. ring. Qed.

(** The value of a number that is neither NaN nor an infinity. *)
Definition B2Q (x : number) : Q :=
  match x with
  | S754_finite s m e => scale (cond_Zopp s (Zpos m)) e
  | _ => 0
  end.

(** *** Digits *)

Lemma digits2_pos_spec p :
  (2 ^ (Zpos (digits2_pos p) - 1) <= Zpos p < 2 ^ Zpos (digits2_pos p))%Z.
Proof.
  induction p as [p IH|p IH|]; cbn [digits2_pos].
  - rewrite Pos2Z.inj_succ.
    replace (Z.succ (Zpos (digits2_pos p)) - 1)%Z with (Z.succ (Zpos (digits2_pos p) - 1))%Z by lia.
    rewrite !Z.pow_succ_r by lia. lia.
  - rewrite Pos2Z.inj_succ.
    replace (Z.succ (Zpos (digits2_pos p)) - 1)%Z with (Z.succ (Zpos (digits2_pos p) - 1))%Z by lia.
    rewrite !Z.pow_succ_r by lia. lia.
  - cbn. lia.
Qed.

Lemma Zdigits2_spec m : (0 < m)%Z ->
  (2 ^ (Zdigits2 m - 1) <= m < 2 ^ Zdigits2 m)%Z /\ (0 < Zdigits2 m)%Z.
Proof.
  destruct m as [|p|p]; try lia. intros _. cbn [Zdigits2].
  split; [apply digits2_pos_spec | lia].
Qed.

Lemma Zdigits2_unique m d : (0 < d)%Z ->
  (2 ^ (d - 1) <= m < 2 ^ d)%Z -> Zdigits2 m = d.
Proof.
  intros Hd [Hlo Hhi].
  assert (Hm : (0 < m)%Z) by (pose proof (Z.pow_pos_nonneg 2 (d - 1)); lia).
  destruct (Zdigits2_spec m Hm) as [[Hlo' Hhi'] Hd'].
  destruct (Z.lt_trichotomy (Zdigits2 m) d) as [H|[H|H]]; [|exact H|].
  - assert ((2 ^ Zdigits2 m <= 2 ^ (d - 1))%Z) by (apply Z.pow_le_mono_r; lia). lia.
  - assert ((2 ^ d <= 2 ^ (Zdigits2 m - 1))%Z) by (apply Z.pow_le_mono_r; lia). lia.
Qed.

Lemma Zdigits2_0 : Zdigits2 0 = 0%Z.
Proof. reflexivity. Qed.

Lemma Zdigits2_nonneg m : (0 <= Zdigits2 m)%Z.
Proof. destruct m; cbn; lia. Qed.

(** *** Valid numbers *)

Definition fexp (e : Z) : Z := Z.max (e - 53) (-1074).

Lemma fexp_eq e : SpecFloat.fexp prec emax e = fexp e.
Proof. reflexivity. Qed.

(** A finite number is valid when it is subnormal, or normal. *)
Lemma bounded_iff m e :
  bounded prec emax m e = true <->
  ((e = -1074 /\ Zpos m < 2 ^ 53) \/
   (-1074 < e <= 971 /\ 2 ^ 52 <= Zpos m < 2 ^ 53))%Z.
Proof.
  unfold bounded, canonical_mantissa. rewrite fexp_eq. unfold fexp.
  rewrite andb_true_iff, Z.eqb_eq, Z.leb_le.
  change (emax - prec)%Z with 971%Z.
  pose proof (digits2_pos_spec m) as [Hlo Hhi].
  set (d := Zpos (digits2_pos m)) in *.
  assert (Hd : (0 < d)%Z) by (subst d; lia).
  split.
  - intros [Hc He].
    destruct (Z.max_spec (d + e - 53) (-1074)) as [[H1 H2]|[H1 H2]]; rewrite H2 in Hc.
    + left. split; [lia|].
      assert ((2 ^ d <= 2 ^ 53)%Z) by (apply Z.pow_le_mono_r; lia). lia.
    + assert (d = 53%Z) by lia.
      assert (e = -1074 \/ -1074 < e)%Z as [E|E] by lia.
      * left. split; [exact E|]. rewrite H in Hhi. exact Hhi.
      * right. rewrite H in Hlo, Hhi. change (53 - 1)%Z with 52%Z in Hlo. lia.
  - intros [[He Hm]|[He Hm]].
    + assert (d <= 53)%Z.
      { destruct (Z.le_gt_cases d 53) as [H|H]; [exact H|].
        assert ((2 ^ 53 <= 2 ^ (d - 1))%Z) by (apply Z.pow_le_mono_r; lia). lia. }
      lia.
    + assert (d = 53%Z) by (subst d; apply (Zdigits2_unique (Zpos m) 53); [lia | exact Hm]).
      lia.
Qed.


(** *** Truncation: [shr] *)

(** [x] lies at location [l] in the unit interval that starts at [m]. *)
Definition inbetween (m : Z) (l : location) (x : Q) : Prop :=
  match l with
  | loc_Exact => x == inject_Z m
  | loc_Inexact c =>
      inject_Z m < x /\ x < inject_Z m + 1 /\ (x ?= inject_Z m + (1 # 2)) = c
  end.

Definition inb (r : shr_record) (x : Q) : Prop :=
  inbetween (shr_m r) (loc_of_shr_record r) x.

Ltac qcompare :=
  repeat match goal with
  | H : (_ ?= _) = Lt |- _ => apply (proj2 (Qlt_alt _ _)) in H
  | H : (_ ?= _) = Eq |- _ => apply (proj2 (Qeq_alt _ _)) in H
  | H : (_ ?= _) = Gt |- _ => apply (proj2 (Qgt_alt _ _)) in H
  | |- (_ ?= _) = Lt => apply (proj1 (Qlt_alt _ _))
  | |- (_ ?= _) = Eq => apply (proj1 (Qeq_alt _ _))
  | |- (_ ?= _) = Gt => apply (proj1 (Qgt_alt _ _))
  end.

Lemma inbetween_comp m l x y : x == y -> inbetween m l x -> inbetween m l y.
Proof.
  intros E. destruct l as [|c]; cbn.
  - now rewrite E.
  - now rewrite E.
Qed.

Lemma inject_xO p : inject_Z (Zpos p~0) == 2 * inject_Z (Zpos p).
Proof. rewrite Pos2Z.inj_xO, inject_Z_mult. reflexivity. Qed.

Lemma inject_xI p : inject_Z (Zpos p~1) == 2 * inject_Z (Zpos p) + 1.
Proof. rewrite Pos2Z.inj_xI, inject_Z_plus, inject_Z_mult. reflexivity. Qed.

Lemma shr_1_inb r x :
  (0 <= shr_m r)%Z -> inb r x ->
  inb (shr_1 r) (x * (1 # 2)) /\ shr_m (shr_1 r) = (shr_m r / 2)%Z.
Proof.
  destruct r as [m rb sb]. cbn [shr_m]. intros Hm H.
  destruct m as [|[p|p|]|p]; [| | | |lia].
  - split; [|reflexivity].
    unfold inb in *. destruct rb, sb; cbn [inbetween shr_m shr_1 loc_of_shr_record orb shr_r shr_s] in *;
      change (inject_Z 0) with 0 in *;
      try destruct H as (H1 & H2 & H3); qcompare; try (split; [|split]); qcompare; lra.
  - split.
    + unfold inb in *. pose proof (inject_xI p) as E.
      destruct rb, sb; cbn [inbetween shr_m shr_1 loc_of_shr_record orb shr_r shr_s] in *;
        try destruct H as (H1 & H2 & H3); qcompare; try (split; [|split]); qcompare; lra.
    + cbn [shr_1 shr_m]. rewrite Pos2Z.inj_xI.
      apply Z.div_unique with 1%Z; lia.
  - split.
    + unfold inb in *. pose proof (inject_xO p) as E.
      destruct rb, sb; cbn [inbetween shr_m shr_1 loc_of_shr_record orb shr_r shr_s] in *;
        try destruct H as (H1 & H2 & H3); qcompare; try (split; [|split]); qcompare; lra.
    + cbn [shr_1 shr_m]. rewrite Pos2Z.inj_xO.
      apply Z.div_unique with 0%Z; lia.
  - split; [|reflexivity].
    unfold inb in *. destruct rb, sb; cbn [inbetween shr_m shr_1 loc_of_shr_record orb shr_r shr_s] in *;
      change (inject_Z 0) with 0 in *; change (inject_Z 1) with 1 in *;
      try destruct H as (H1 & H2 & H3); qcompare; try (split; [|split]); qcompare; lra.
Qed.

Lemma iter_shr_1 n : forall r x,
  (0 <= shr_m r)%Z -> inb r x ->
  inb (iter_pos shr_1 n r) (x * pow2 (- Zpos n)) /\
  shr_m (iter_pos shr_1 n r) = (shr_m r / 2 ^ Zpos n)%Z.
Proof.
  assert (Hnn : forall a k, (0 <= a)%Z -> (0 <= a / 2 ^ Zpos k)%Z).
  { intros a k Ha. apply Z.div_pos; [exact Ha|]. apply Z.pow_pos_nonneg; lia. }
  induction n as [n IH|n IH|]; intros r x Hm H; cbn [iter_pos].
  - destruct (shr_1_inb r x Hm H) as [H1 E1].
    assert (Hm1 : (0 <= shr_m (shr_1 r))%Z) by (rewrite E1; apply Z.div_pos; lia).
    destruct (IH _ _ Hm1 H1) as [H2 E2].
    assert (Hm2 : (0 <= shr_m (iter_pos shr_1 n (shr_1 r)))%Z)
      by (rewrite E2; apply Hnn, Hm1).
    destruct (IH _ _ Hm2 H2) as [H3 E3].
    split.
    + eapply inbetween_comp; [|exact H3].
      replace (- Zpos n~1)%Z with (-1 + - Zpos n + - Zpos n)%Z by lia.
      rewrite !pow2_add. change (pow2 (-1)) with (1 # 2). ring.
    + rewrite E3, E2, E1. rewrite !Z.div_div by (try apply Z.pow_pos_nonneg; lia).
      f_equal. rewrite Pos2Z.inj_xI.
      replace (2 * Zpos n + 1)%Z with (1 + Zpos n + Zpos n)%Z by lia.
      rewrite !Z.pow_add_r by lia. change (2 ^ 1)%Z with 2%Z. ring.
  - destruct (IH _ _ Hm H) as [H2 E2].
    assert (Hm2 : (0 <= shr_m (iter_pos shr_1 n r))%Z) by (rewrite E2; apply Hnn, Hm).
    destruct (IH _ _ Hm2 H2) as [H3 E3].
    split.
    + eapply inbetween_comp; [|exact H3].
      replace (- Zpos n~0)%Z with (- Zpos n + - Zpos n)%Z by lia.
      rewrite !pow2_add. ring.
    + rewrite E3, E2. rewrite !Z.div_div by (try apply Z.pow_pos_nonneg; lia).
      f_equal. replace (Zpos n~0)%Z with (Zpos n + Zpos n)%Z by lia.
      rewrite !Z.pow_add_r by lia. ring.
  - destruct (shr_1_inb r x Hm H) as [H1 E1]. split.
    + eapply inbetween_comp; [|exact H1]. change (pow2 (-1)) with (1 # 2). reflexivity.
    + rewrite E1. reflexivity.
Qed.

Lemma loc_of_shr_record_of_loc m l :
  loc_of_shr_record (shr_record_of_loc m l) = l /\
  shr_m (shr_record_of_loc m l) = m.
Proof. now destruct l as [|[]]. Qed.

(** Truncation to the exponent of the format. *)
Lemma shr_fexp_spec m e l x :
  (0 <= m)%Z -> inbetween m l x ->
  (e <= fexp (Zdigits2 m + e))%Z ->
  exists r',
    shr_fexp prec emax m e l = (r', fexp (Zdigits2 m + e)) /\
    inb r' (x * pow2 (e - fexp (Zdigits2 m + e))) /\
    shr_m r' = (m / 2 ^ (fexp (Zdigits2 m + e) - e))%Z.
Proof.
  intros Hm H He. unfold shr_fexp. rewrite fexp_eq.
  set (e' := fexp (Zdigits2 m + e)) in *.
  destruct (loc_of_shr_record_of_loc m l) as [El Em].
  assert (H0 : inb (shr_record_of_loc m l) x) by (unfold inb; now rewrite El, Em).
  unfold shr. destruct (e' - e)%Z as [|n|n] eqn:En; [| |lia].
  - exists (shr_record_of_loc m l). split; [f_equal; lia|]. split.
    + eapply inbetween_comp; [|exact H0].
      replace (e - e')%Z with 0%Z by lia. change (pow2 0) with 1. ring.
    + rewrite Em. cbn. now rewrite Z.div_1_r.
  - destruct (iter_shr_1 n _ x ltac:(now rewrite Em) H0) as [H1 E1].
    eexists. split; [f_equal; lia|]. split.
    + replace (e - e')%Z with (- Zpos n)%Z by lia. exact H1.
    + now rewrite E1, Em.
Qed.


(** *** Rounding to nearest *)

Lemma scale_nonneg k e : (0 <= k)%Z -> 0 <= scale k e.
Proof. intro H. rewrite <- (scale_0 e). now apply scale_le. Qed.

Lemma scale_pos k e : (0 < k)%Z -> 0 < scale k e.
Proof. intro H. rewrite <- (scale_0 e). now apply scale_lt. Qed.

Lemma scale_mono_e k e1 e2 : (0 <= k)%Z -> (e1 <= e2)%Z -> scale k e1 <= scale k e2.
Proof.
  intros Hk He. replace e2 with (e1 + (e2 - e1))%Z by lia.
  rewrite scale_shift by lia. apply scale_le.
  assert (0 < 2 ^ (e2 - e1))%Z by (apply Z.pow_pos_nonneg; lia). nia.
Qed.

Lemma valid_finite s m e :
  valid (S754_finite s m e) = true ->
  ((e = -1074 /\ Zpos m < 2 ^ 53) \/
   (-1074 < e <= 971 /\ 2 ^ 52 <= Zpos m < 2 ^ 53))%Z.
Proof. intro H. now apply bounded_iff. Qed.

(** No number of the format lies strictly between two consecutive multiples
    of [2^e'] when the mantissa [m'] is one of the format at exponent [e']. *)
Lemma float_gap b m' e' :
  valid b = true -> is_finite b = true ->
  (0 <= m' < 2 ^ 53)%Z -> (-1074 <= e')%Z -> (-1074 < e' -> 2 ^ 52 <= m')%Z ->
  B2Q b <= scale m' e' \/ scale (m' + 1) e' <= B2Q b.
Proof.
  intros Hv Hf Hm He Hn.
  destruct b as [s|s| |s m e]; [|discriminate|discriminate|].
  - left. apply scale_nonneg. lia.
  - cbn [B2Q]. destruct s; cbn [cond_Zopp].
    + left. apply Qle_trans with 0; [|apply scale_nonneg; lia].
      rewrite <- (scale_0 e). apply scale_le. lia.
    + apply valid_finite in Hv.
      destruct (Z.lt_trichotomy e e') as [L|[E|G]].
      * left. replace e' with (e + (e' - e))%Z by lia.
        rewrite scale_shift by lia. apply scale_le.
        assert (2 ^ 1 <= 2 ^ (e' - e))%Z by (apply Z.pow_le_mono_r; lia).
        change (2 ^ 1)%Z with 2%Z in *. nia.
      * subst e'. destruct (Z.le_gt_cases (Zpos m) m') as [L|G].
        -- left. now apply scale_le.
        -- right. apply scale_le. lia.
      * right. replace e with (e' + (e - e'))%Z by lia.
        rewrite scale_shift by lia. apply scale_le.
        assert (2 ^ 1 <= 2 ^ (e - e'))%Z by (apply Z.pow_le_mono_r; lia).
        change (2 ^ 1)%Z with 2%Z in *. nia.
Qed.

(** The largest number of the format. *)
Lemma float_max b :
  valid b = true -> is_finite b = true -> B2Q b <= scale (2 ^ 53 - 1) 971.
Proof.
  intros Hv Hf. destruct b as [s|s| |s m e]; [|discriminate|discriminate|].
  - apply scale_nonneg. lia.
  - cbn [B2Q]. apply valid_finite in Hv. destruct s; cbn [cond_Zopp].
    + apply Qle_trans with 0; [|apply scale_nonneg; lia].
      rewrite <- (scale_0 e). apply scale_le. lia.
    + apply Qle_trans with (scale (2 ^ 53 - 1) e); [apply scale_le; lia|].
      apply scale_mono_e; lia.
Qed.

Lemma overflow_bound m e :
  (2 ^ 52 <= m)%Z -> (972 <= e)%Z -> scale (2 ^ 53 - 1) 971 <= scale m e.
Proof.
  intros Hm He.
  apply Qle_trans with (scale (2 ^ 52 * 2 ^ 1) 971); [apply scale_le; lia|].
  rewrite <- scale_shift by lia.
  apply Qle_trans with (scale m (971 + 1)); [apply scale_le; lia|].
  apply scale_mono_e; lia.
Qed.

(** [q] is a value of the format nearest to [r]. *)
Definition nearest (r q : Q) : Prop :=
  forall b, valid b = true -> is_finite b = true ->
    (B2Q b <= r -> q - r <= r - B2Q b /\ B2Q b <= q) /\
    (r <= B2Q b -> r - q <= B2Q b - r /\ q <= B2Q b).

Definition sign (x : number) : bool :=
  match x with
  | S754_zero s | S754_infinity s | S754_finite s _ _ => s
  | S754_nan => false
  end.

(** [z] is what the positive real [r] rounds to: a valid number, not
    negative; the nearest value of the format, or plus infinity when [r] is
    at least the largest number of the format. *)
Definition Rounded (r : Q) (z : number) : Prop :=
  valid z = true /\ sign z = false /\
  match z with
  | S754_nan => False
  | S754_infinity _ =>
      forall b, valid b = true -> is_finite b = true -> B2Q b <= r
  | _ => nearest r (B2Q z)
  end.

Lemma nearest_comp r r' q q' : r == r' -> q == q' -> nearest r q -> nearest r' q'.
Proof.
  intros Er Eq H b Hv Hf. destruct (H b Hv Hf) as [H1 H2].
  split; intro Hb.
  - rewrite <- Er in Hb. destruct (H1 Hb). split; lra.
  - rewrite <- Er in Hb. destruct (H2 Hb). split; lra.
Qed.

Lemma Rounded_comp r r' z : r == r' -> Rounded r z -> Rounded r' z.
Proof.
  intros E (Hv & Hs & H). split; [exact Hv|]. split; [exact Hs|].
  destruct z as [s|s| |s m e].
  - eapply nearest_comp; [exact E | reflexivity | exact H].
  - intros b Hb Hf. rewrite <- E. now apply H.
  - exact H.
  - eapply nearest_comp; [exact E | reflexivity | exact H].
Qed.

Lemma nearest_from_gap r q lo hi :
  (forall b, valid b = true -> is_finite b = true -> B2Q b <= lo \/ hi <= B2Q b) ->
  lo <= r -> r <= hi ->
  (q == lo /\ r - lo <= hi - r) \/ (q == hi /\ hi - r <= r - lo) ->
  nearest r q.
Proof.
  intros Hgap Hlo Hhi Hq b Hv Hf.
  destruct (Hgap b Hv Hf) as [Hb|Hb]; destruct Hq as [[Eq Hd]|[Eq Hd]];
    split; intro H; split; lra.
Qed.

Lemma nearest_exact r q : r == q -> nearest r q.
Proof. intros E b Hv Hf. split; intro H; split; lra. Qed.

(** The mantissa rounding to nearest, ties to even, chooses. *)
Lemma round_nearest_even_spec m l x :
  inbetween m l x ->
  (round_nearest_even m l = m /\ inject_Z m <= x /\ x <= inject_Z m + (1 # 2)) \/
  (round_nearest_even m l = (m + 1)%Z /\ inject_Z m + (1 # 2) <= x /\ x < inject_Z m + 1).
Proof.
  destruct l as [|[]]; cbn [inbetween round_nearest_even].
  - intro H. left. split; [reflexivity|]. lra.
  - intros (H1 & H2 & H3). qcompare.
    destruct (Z.even m); [left | right]; split; try reflexivity; lra.
  - intros (H1 & H2 & H3). qcompare. left. split; [reflexivity|]. lra.
  - intros (H1 & H2 & H3). qcompare. right. split; [reflexivity|]. lra.
Qed.

(** The second truncation of [binary_round_aux] does nothing to a mantissa
    of the format, and renormalizes [2^53]. *)
Lemma shr_fexp_small m e :
  (0 <= m < 2 ^ 53)%Z -> (-1074 <= e)%Z ->
  shr_fexp prec emax m e loc_Exact
    = ({| shr_m := m; shr_r := false; shr_s := false |}, e).
Proof.
  intros Hm He. unfold shr_fexp. rewrite fexp_eq.
  assert (Hd : (Zdigits2 m <= 53)%Z).
  { destruct (Z.eq_dec m 0) as [->|Hnz]; [cbn; lia|].
    destruct (Zdigits2_spec m ltac:(lia)) as [[Hlo Hhi] Hpos].
    destruct (Z.le_gt_cases (Zdigits2 m) 53) as [H|H]; [exact H|].
    assert ((2 ^ 53 <= 2 ^ (Zdigits2 m - 1))%Z) by (apply Z.pow_le_mono_r; lia). lia. }
  unfold fexp. cbn [shr_record_of_loc]. unfold shr.
  destruct (Z.max (Zdigits2 m + e - 53) (-1074) - e)%Z eqn:E; try reflexivity. lia.
Qed.

Lemma shr_fexp_carry e :
  (-1074 <= e)%Z ->
  shr_fexp prec emax (2 ^ 53) e loc_Exact
    = ({| shr_m := 2 ^ 52; shr_r := false; shr_s := false |}, (e + 1)%Z).
Proof.
  intros He. unfold shr_fexp. rewrite fexp_eq. unfold fexp.
  change (Zdigits2 (2 ^ 53)) with 54%Z.
  replace (Z.max (54 + e - 53) (-1074) - e)%Z with 1%Z by lia.
  reflexivity.
Qed.

Lemma binary_round_aux_spec m e l x :
  (0 <= m)%Z -> inbetween m l x -> 0 < x ->
  (e <= fexp (Zdigits2 m + e))%Z ->
  Rounded (x * pow2 e) (binary_round_aux prec emax false m e l).
Proof.
  intros Hm H Hx He.
  destruct (shr_fexp_spec m e l x Hm H He) as (r' & Hshr & Hinb & Em').
  set (e' := fexp (Zdigits2 m + e)) in *.
  set (m' := shr_m r') in *.
  set (x' := x * pow2 (e - e')) in *.
  assert (Er : x * pow2 e == x' * pow2 e').
  { subst x'. rewrite <- Qmult_assoc, <- pow2_add.
    now replace (e - e' + e')%Z with e by lia. }
  apply (Rounded_comp (x' * pow2 e')); [now symmetry|].
  assert (He' : (-1074 <= e')%Z) by (subst e'; unfold fexp; lia).
  assert (Hx' : 0 < x') by (subst x'; apply Qmult_lt_0_compat; [exact Hx | apply pow2_pos]).
  assert (H2n : (0 < 2 ^ (e' - e))%Z) by (apply Z.pow_pos_nonneg; lia).
  assert (Hm'0 : (0 <= m')%Z) by (rewrite Em'; apply Z.div_pos; lia).
  assert (Hm'1 : (m' < 2 ^ 53)%Z).
  { rewrite Em'. apply Z.div_lt_upper_bound; [exact H2n|].
    destruct (Z.eq_dec m 0) as [->|Hnz]; [lia|].
    destruct (Zdigits2_spec m ltac:(lia)) as [[Hlo Hhi] Hpos].
    rewrite <- Z.pow_add_r by lia.
    apply Z.lt_le_trans with (1 := Hhi). apply Z.pow_le_mono_r; [lia|].
    subst e'. unfold fexp. lia. }
  assert (Hm'2 : (-1074 < e' -> 2 ^ 52 <= m')%Z).
  { intro Hn. rewrite Em'.
    destruct (Z.eq_dec m 0) as [Hz|Hnz].
    { exfalso. subst m. cbn [Zdigits2] in *. subst e'. unfold fexp in *. lia. }
    destruct (Zdigits2_spec m ltac:(lia)) as [[Hlo Hhi] Hpos].
    assert (E' : e' = (Zdigits2 m + e - 53)%Z) by (subst e'; unfold fexp in *; lia).
    apply Z.div_le_lower_bound; [exact H2n|].
    rewrite Z.mul_comm, <- Z.pow_add_r by lia.
    replace (52 + (e' - e))%Z with (Zdigits2 m - 1)%Z by lia. exact Hlo. }
  pose proof (fun b Hv Hf => float_gap b m' e' Hv Hf (conj Hm'0 Hm'1) He' Hm'2) as Hgap.
  unfold binary_round_aux. rewrite Hshr.
  fold m'. unfold inb in Hinb. fold m' in Hinb.
  destruct (round_nearest_even_spec m' _ x' Hinb) as [(-> & B1 & B2)|(-> & B1 & B2)].
  - (* rounded down *)
    rewrite (shr_fexp_small m' e' (conj Hm'0 Hm'1) He'). cbn [shr_m].
    assert (Hnear : nearest (x' * pow2 e') (scale m' e')).
    { apply (nearest_from_gap _ _ (scale m' e') (scale (m' + 1) e')); [exact Hgap| | |].
      - unfold scale. apply Qmult_le_compat_r; [exact B1 | apply Qlt_le_weak, pow2_pos].
      - unfold scale. apply Qmult_le_compat_r; [|apply Qlt_le_weak, pow2_pos].
        rewrite inject_Z_plus. change (inject_Z 1) with 1. lra.
      - left. split; [reflexivity|]. unfold scale. rewrite inject_Z_plus.
        change (inject_Z 1) with 1.
        assert (E1 : x' * pow2 e' - inject_Z m' * pow2 e' == (x' - inject_Z m') * pow2 e') by ring.
        assert (E2 : (inject_Z m' + 1) * pow2 e' - x' * pow2 e'
                     == (inject_Z m' + 1 - x') * pow2 e') by ring.
        rewrite E1, E2. apply Qmult_le_compat_r; [lra | apply Qlt_le_weak, pow2_pos]. }
    destruct m' as [|p|p] eqn:Ep; [| |lia].
    + split; [reflexivity|]. split; [reflexivity|].
      eapply nearest_comp; [reflexivity | | exact Hnear]. apply scale_0.
    + destruct (Z.leb_spec e' (emax - prec)) as [Hle|Hgt].
      * split; [|split; [reflexivity | exact Hnear]].
        apply bounded_iff. change (emax - prec)%Z with 971%Z in Hle. lia.
      * split; [reflexivity|]. split; [reflexivity|].
        intros b Hv Hf. change (emax - prec)%Z with 971%Z in Hgt.
        apply Qle_trans with (1 := float_max b Hv Hf).
        apply Qle_trans with (scale (Zpos p) e').
        -- apply overflow_bound; lia.
        -- unfold scale. apply Qmult_le_compat_r; [exact B1 | apply Qlt_le_weak, pow2_pos].
  - (* rounded up *)
    assert (Hnear : nearest (x' * pow2 e') (scale (m' + 1) e')).
    { apply (nearest_from_gap _ _ (scale m' e') (scale (m' + 1) e')); [exact Hgap| | |].
      - unfold scale. apply Qmult_le_compat_r; [lra | apply Qlt_le_weak, pow2_pos].
      - unfold scale. apply Qmult_le_compat_r; [|apply Qlt_le_weak, pow2_pos].
        rewrite inject_Z_plus. change (inject_Z 1) with 1. lra.
      - right. split; [reflexivity|]. unfold scale. rewrite inject_Z_plus.
        change (inject_Z 1) with 1.
        assert (E1 : x' * pow2 e' - inject_Z m' * pow2 e' == (x' - inject_Z m') * pow2 e') by ring.
        assert (E2 : (inject_Z m' + 1) * pow2 e' - x' * pow2 e'
                     == (inject_Z m' + 1 - x') * pow2 e') by ring.
        rewrite E1, E2. apply Qmult_le_compat_r; [lra | apply Qlt_le_weak, pow2_pos]. }
    assert (Hlo : scale m' e' <= x' * pow2 e').
    { unfold scale. apply Qmult_le_compat_r; [lra | apply Qlt_le_weak, pow2_pos]. }
    destruct (Z.eq_dec (m' + 1) (2 ^ 53)) as [Ec|Enc].
    + rewrite Ec, (shr_fexp_carry e' He'). cbn [shr_m].
      change (2 ^ 52)%Z with (Zpos (2 ^ 52)).
      destruct (Z.leb_spec (e' + 1) (emax - prec)) as [Hle|Hgt];
        change (emax - prec)%Z with 971%Z in *.
      * split; [|split; [reflexivity|]].
        -- apply bounded_iff. change (Zpos (2 ^ 52)) with (2 ^ 52)%Z. lia.
        -- eapply nearest_comp; [reflexivity | | exact Hnear].
           cbn [B2Q cond_Zopp]. rewrite Ec.
           rewrite (scale_shift _ e' 1) by lia. reflexivity.
      * split; [reflexivity|]. split; [reflexivity|].
        intros b Hv Hf.
        apply Qle_trans with (1 := float_max b Hv Hf).
        apply Qle_trans with (2 := Hlo).
        replace m' with (2 ^ 53 - 1)%Z by lia.
        apply scale_mono_e; lia.
    + assert (Hm'' : (0 <= m' + 1 < 2 ^ 53)%Z) by lia.
      rewrite (shr_fexp_small (m' + 1) e' Hm'' He'). cbn [shr_m].
      destruct (m' + 1)%Z as [|p|p] eqn:Ep; [lia| |lia].
      destruct (Z.leb_spec e' (emax - prec)) as [Hle|Hgt];
        change (emax - prec)%Z with 971%Z in *.
      * split; [|split; [reflexivity | exact Hnear]].
        apply bounded_iff. lia.
      * split; [reflexivity|]. split; [reflexivity|].
        intros b Hv Hf.
        apply Qle_trans with (1 := float_max b Hv Hf).
        apply Qle_trans with (2 := Hlo).
        apply overflow_bound; lia.
Qed.


(** *** Rounding an integer multiple of a power of two *)

Lemma iter_xO m d : Zpos (Pos.iter xO m d) = (Zpos m * 2 ^ Zpos d)%Z.
Proof.
  induction d as [|d IH] using Pos.peano_ind.
  - cbn [Pos.iter]. rewrite Pos2Z.inj_xO. change (2 ^ 1)%Z with 2%Z. lia.
  - rewrite Pos.iter_succ, Pos2Z.inj_xO, IH, Pos2Z.inj_succ, Z.pow_succ_r by lia. lia.
Qed.

Lemma shl_align_fst m e ez :
  (ez <= e)%Z -> Zpos (fst (shl_align m e ez)) = (Zpos m * 2 ^ (e - ez))%Z.
Proof.
  intro H. unfold shl_align. destruct (ez - e)%Z as [|d|d] eqn:E; [|lia|].
  - cbn [fst]. replace (e - ez)%Z with 0%Z by lia. lia.
  - cbn [fst]. rewrite iter_xO. f_equal. f_equal. lia.
Qed.

Lemma Zdigits2_shift m d :
  (0 < m)%Z -> (0 <= d)%Z -> Zdigits2 (m * 2 ^ d) = (Zdigits2 m + d)%Z.
Proof.
  intros Hm Hd. destruct (Zdigits2_spec m Hm) as [[Hlo Hhi] Hpos].
  assert (H2 : (0 < 2 ^ d)%Z) by (apply Z.pow_pos_nonneg; lia).
  apply Zdigits2_unique; [lia|].
  replace (Zdigits2 m + d - 1)%Z with (Zdigits2 m - 1 + d)%Z by lia.
  rewrite !Z.pow_add_r by lia. nia.
Qed.

Lemma binary_round_spec m e :
  Rounded (scale (Zpos m) e) (binary_round prec emax false m e).
Proof.
  unfold binary_round, shl_align. rewrite fexp_eq.
  change (Zpos (digits2_pos m)) with (Zdigits2 (Zpos m)).
  set (e' := fexp (Zdigits2 (Zpos m) + e)).
  destruct (e' - e)%Z as [|d|d] eqn:E.
  - apply (binary_round_aux_spec (Zpos m) e loc_Exact (inject_Z (Zpos m)));
      [lia | reflexivity | reflexivity | fold e'; lia].
  - apply (binary_round_aux_spec (Zpos m) e loc_Exact (inject_Z (Zpos m)));
      [lia | reflexivity | reflexivity | fold e'; lia].
  - apply (Rounded_comp (inject_Z (Zpos (Pos.iter xO m d)) * pow2 e')).
    + rewrite iter_xO. fold (scale (Zpos m * 2 ^ Zpos d) e').
      rewrite <- scale_shift by lia. now replace (e' + Zpos d)%Z with e by lia.
    + apply binary_round_aux_spec; [lia | reflexivity | reflexivity |].
      rewrite iter_xO, Zdigits2_shift by lia.
      replace (Zdigits2 (Zpos m) + Zpos d + e')%Z with (Zdigits2 (Zpos m) + e)%Z by lia.
      fold e'. lia.
Qed.

Lemma binary_normalize_spec k e :
  (0 < k)%Z -> Rounded (scale k e) (binary_normalize prec emax k e false).
Proof.
  intro H. destruct k as [|m|m]; try lia. apply binary_round_spec.
Qed.

(** *** The operations on finite operands *)

Lemma cond_Zopp_mul s a b : (cond_Zopp s a * b)%Z = cond_Zopp s (a * b).
Proof. destruct s; cbn [cond_Zopp]; lia. Qed.

Lemma Rounded_exact z :
  valid z = true -> is_finite z = true -> sign z = false -> Rounded (B2Q z) z.
Proof.
  intros Hv Hf Hs. split; [exact Hv|]. split; [exact Hs|].
  destruct z; try discriminate; now apply nearest_exact.
Qed.

Lemma B2Q_sign x : is_finite x = true -> 0 < B2Q x -> sign x = false.
Proof.
  destruct x as [s|s| |s m e]; try discriminate; cbn [B2Q sign]; intros _ H.
  destruct s; [|reflexivity]. exfalso. cbn [cond_Zopp] in H.
    assert (scale (- Zpos m) e < scale 0 e) by (apply scale_lt; lia).
    rewrite scale_0 in *. change (Z.neg m) with (- Zpos m)%Z in H. lra.
Qed.

Lemma sub_finite sx mx ex sy my ey :
  exists M ez,
    sub (S754_finite sx mx ex) (S754_finite sy my ey)
      = binary_normalize prec emax M ez false /\
    scale M ez == B2Q (S754_finite sx mx ex) - B2Q (S754_finite sy my ey).
Proof.
  cbn [sub SFsub]. cbv zeta.
  rewrite !shl_align_fst by lia.
  set (ez := Z.min ex ey).
  exists (cond_Zopp sx (Zpos mx * 2 ^ (ex - ez))
          - cond_Zopp sy (Zpos my * 2 ^ (ey - ez)))%Z, ez.
  split; [reflexivity|].
  cbn [B2Q]. rewrite <- !cond_Zopp_mul.
  replace (cond_Zopp sx (Zpos mx) * 2 ^ (ex - ez)
           - cond_Zopp sy (Zpos my) * 2 ^ (ey - ez))%Z
    with (cond_Zopp sx (Zpos mx) * 2 ^ (ex - ez)
          + - (cond_Zopp sy (Zpos my) * 2 ^ (ey - ez)))%Z by lia.
  rewrite scale_plus, scale_opp.
  rewrite <- !scale_shift by lia.
  replace (ez + (ex - ez))%Z with ex by lia.
  replace (ez + (ey - ez))%Z with ey by lia. ring.
Qed.

(** [x - y] where [y < x]. *)
Lemma sub_Rounded x y :
  valid x = true -> valid y = true -> is_finite x = true -> is_finite y = true ->
  B2Q y < B2Q x -> Rounded (B2Q x - B2Q y) (sub x y).
Proof.
  intros Vx Vy Fx Fy H.
  destruct x as [sx|sx| |sx mx ex], y as [sy|sy| |sy my ey]; try discriminate.
  - cbn [sub SFsub].
    assert (Hs : sy = true).
    { destruct sy; [reflexivity|]. cbn [B2Q cond_Zopp] in H.
      pose proof (scale_pos (Zpos my) ey ltac:(lia)). lra. }
    subst sy. cbn [negb].
    apply (Rounded_comp (B2Q (S754_finite false my ey))).
    + cbn [B2Q cond_Zopp]. change (Z.neg my) with (- Zpos my)%Z.
      rewrite scale_opp. ring.
    + apply Rounded_exact; [exact Vy | reflexivity | reflexivity].
  - cbn [sub SFsub].
    apply (Rounded_comp (B2Q (S754_finite sx mx ex))); [cbn [B2Q]; ring|].
    apply Rounded_exact; [exact Vx | reflexivity |].
    apply B2Q_sign; [reflexivity|]. cbn [B2Q] in *. lra.
  - destruct (sub_finite sx mx ex sy my ey) as (M & ez & -> & EM).
    apply (Rounded_comp (scale M ez)); [exact EM|].
    apply binary_normalize_spec.
    apply (scale_lt_inv 0 M ez). rewrite scale_0, EM. lra.
Qed.

(** [x - y] where [x] and [y] have the same value, not zero. *)
Lemma sub_same sx mx ex sy my ey :
  B2Q (S754_finite sx mx ex) == B2Q (S754_finite sy my ey) ->
  sub (S754_finite sx mx ex) (S754_finite sy my ey) = S754_zero false.
Proof.
  intro E. destruct (sub_finite sx mx ex sy my ey) as (M & ez & -> & EM).
  assert (M = 0%Z) as ->; [|reflexivity].
  assert (H0 : scale M ez == scale 0 ez) by (rewrite scale_0, EM; lra).
  apply Z.le_antisymm; apply (scale_le_inv _ _ ez); rewrite H0; apply Qle_refl.
Qed.

(** [a * c] for positive operands, [c] normal. *)
Lemma mul_Rounded ma ea mc ec :
  (2 ^ 52 <= Zpos mc)%Z ->
  Rounded (scale (Zpos ma) ea * scale (Zpos mc) ec)
    (mul (S754_finite false ma ea) (S754_finite false mc ec)).
Proof.
  intros Hc. cbn [mul SFmul xorb].
  apply (Rounded_comp (inject_Z (Zpos (ma * mc)) * pow2 (ea + ec))).
  - unfold scale. rewrite Pos2Z.inj_mul, inject_Z_mult, pow2_add. ring.
  - apply binary_round_aux_spec; [lia | reflexivity | reflexivity |].
    destruct (Zdigits2_spec (Zpos (ma * mc)) ltac:(lia)) as [[Hlo Hhi] Hpos].
    assert (H53 : (53 <= Zdigits2 (Zpos (ma * mc)))%Z).
    { destruct (Z.le_gt_cases 53 (Zdigits2 (Zpos (ma * mc)))) as [L|G]; [exact L|].
      assert ((2 ^ Zdigits2 (Zpos (ma * mc)) <= 2 ^ 52)%Z) by (apply Z.pow_le_mono_r; lia).
      rewrite Pos2Z.inj_mul in *. nia. }
    unfold fexp. lia.
Qed.


Lemma Z2Q_compare a b : (a ?= b)%Z = (inject_Z a ?= inject_Z b).
Proof. unfold Qcompare. cbn. now rewrite !Z.mul_1_r. Qed.

(** The location of a quotient, from its remainder. *)
Lemma new_location_spec nb q r :
  (0 <= r < nb)%Z ->
  inbetween q (new_location nb r) (inject_Z (nb * q + r) / inject_Z nb).
Proof.
  intros Hr.
  set (B := inject_Z nb). set (x := inject_Z (nb * q + r) / B).
  assert (HB : 0 < B) by (subst B; change 0 with (inject_Z 0); rewrite <- Zlt_Qlt; lia).
  assert (Ex : x * B == B * inject_Z q + inject_Z r).
  { subst x. unfold Qdiv. rewrite <- Qmult_assoc, (Qmult_comm (/ B)), Qmult_inv_r by lra.
    rewrite inject_Z_plus, inject_Z_mult. fold B. ring. }
  assert (Hr0 : 0 <= inject_Z r) by (change 0 with (inject_Z 0); rewrite <- Zle_Qle; lia).
  assert (Hr1 : inject_Z r < B) by (subst B; rewrite <- Zlt_Qlt; lia).
  assert (Hlt : forall a b : Q, a * B < b * B -> a < b)
    by (intros a b; apply Qmult_lt_r, HB).
  assert (Heq : forall a b : Q, a * B == b * B -> a == b).
  { intros a b E. apply Qmult_inj_r in E; [exact E | lra]. }
  assert (Hinexact : (0 < r)%Z -> forall c,
            (inject_Z r * 2 ?= B) = c ->
            inbetween q (loc_Inexact c) x).
  { intros Hpos c Hc. cbn [inbetween].
    assert (0 < inject_Z r) by (change 0 with (inject_Z 0); rewrite <- Zlt_Qlt; lia).
    split; [apply Hlt; lra|]. split; [apply Hlt; lra|].
    destruct c; qcompare.
    - apply Heq. lra.
    - apply Hlt. lra.
    - apply Hlt. lra. }
  unfold new_location, new_location_even, new_location_odd.
  destruct (Z.even nb) eqn:Even.
  - destruct (Z.eqb_spec r 0) as [->|Hnz].
    + cbn [inbetween]. apply Heq. change (inject_Z 0) with 0 in Ex. lra.
    + apply Hinexact; [lia|].
      rewrite (Qmult_comm _ 2). change 2 with (inject_Z 2). rewrite <- inject_Z_mult.
      subst B. symmetry. apply Z2Q_compare.
  - destruct (Z.eqb_spec r 0) as [->|Hnz].
    + cbn [inbetween]. apply Heq. change (inject_Z 0) with 0 in Ex. lra.
    + apply Hinexact; [lia|].
      rewrite (Qmult_comm _ 2). change 2 with (inject_Z 2). rewrite <- inject_Z_mult.
      subst B. rewrite <- Z2Q_compare.
      assert (Hodd : (2 * r <> nb)%Z).
      { intro E. rewrite <- E, Z.even_mul in Even. discriminate. }
      destruct (Z.compare_spec (2 * r + 1) nb) as [E|L|G].
      * apply Z.compare_lt_iff. lia.
      * apply Z.compare_lt_iff. lia.
      * apply Z.compare_gt_iff. lia.
Qed.

(** [a / b] for positive operands. *)
Lemma div_Rounded ma ea mb eb :
  Rounded (scale (Zpos ma) ea / scale (Zpos mb) eb)
    (div (S754_finite false ma ea) (S754_finite false mb eb)).
Proof.
  cbn [div SFdiv xorb]. unfold SFdiv_core_binary. rewrite fexp_eq.
  set (d1 := Zdigits2 (Zpos ma)). set (d2 := Zdigits2 (Zpos mb)).
  set (e' := Z.min (fexp (d1 + ea - (d2 + eb))) (ea - eb)).
  set (s := (ea - eb - e')%Z).
  assert (Hs : (0 <= s)%Z) by (subst s e'; lia).
  set (m' := match s with
             | 0%Z => Zpos ma
             | Zpos _ => Z.shiftl (Zpos ma) s
             | Zneg _ => 0%Z
             end).
  assert (Em' : m' = (Zpos ma * 2 ^ s)%Z).
  { subst m'. destruct s as [|p|p] eqn:Es; [cbn; lia| |lia].
    now rewrite Z.shiftl_mul_pow2 by lia. }
  assert (H2s : (0 < 2 ^ s)%Z) by (apply Z.pow_pos_nonneg; lia).
  pose proof (Z_div_mod m' (Zpos mb) ltac:(lia)) as Hdiv.
  destruct (Z.div_eucl m' (Zpos mb)) as [q r]. destruct Hdiv as [Eq Hr].
  assert (Hq : (0 <= q)%Z) by nia.
  set (x := inject_Z m' / inject_Z (Zpos mb)).
  assert (HB : 0 < inject_Z (Zpos mb)) by reflexivity.
  apply (Rounded_comp (x * pow2 e')).
  - subst x. rewrite Em'. unfold scale. rewrite inject_Z_mult, <- (pow2_Z s Hs).
    assert (Eea : pow2 ea == pow2 s * pow2 e' * pow2 eb).
    { rewrite <- !pow2_add. now replace (s + e' + eb)%Z with ea by (subst s; lia). }
    rewrite Eea. field. split.
    + pose proof (pow2_pos eb). lra.
    + lra.
  - apply binary_round_aux_spec.
    + exact Hq.
    + subst x. rewrite Eq. apply new_location_spec, Hr.
    + subst x. apply Qlt_shift_div_l; [exact HB|].
      rewrite Qmult_0_l. change 0 with (inject_Z 0). rewrite <- Zlt_Qlt. lia.
    + destruct (Z.le_gt_cases e' (-1074)) as [L|G]; [unfold fexp; lia|].
      assert (He' : (e' <= d1 + ea - (d2 + eb) - 53)%Z) by (subst e'; unfold fexp in *; lia).
      destruct (Zdigits2_spec (Zpos ma) ltac:(lia)) as [[Hlo1 _] Hp1].
      destruct (Zdigits2_spec (Zpos mb) ltac:(lia)) as [[_ Hhi2] Hp2].
      fold d1 in Hlo1, Hp1. fold d2 in Hhi2, Hp2.
      assert (Hbig : (2 ^ 52 * 2 ^ d2 <= m')%Z).
      { rewrite Em', <- Z.pow_add_r by lia.
        apply Z.le_trans with (2 ^ (d1 - 1) * 2 ^ s)%Z; [|nia].
        rewrite <- Z.pow_add_r by lia. apply Z.pow_le_mono_r; lia. }
      assert (Hq52 : (2 ^ 52 <= q)%Z).
      { destruct (Z.le_gt_cases (2 ^ 52) q) as [H|H]; [exact H|]. exfalso.
        assert (Zpos mb * (q + 1) <= Zpos mb * 2 ^ 52)%Z by (apply Z.mul_le_mono_nonneg_l; lia).
        nia. }
      destruct (Zdigits2_spec q ltac:(lia)) as [[_ Hhi] Hpos].
      assert (H53 : (53 <= Zdigits2 q)%Z).
      { destruct (Z.le_gt_cases 53 (Zdigits2 q)) as [H|H]; [exact H|].
        assert ((2 ^ Zdigits2 q <= 2 ^ 52)%Z) by (apply Z.pow_le_mono_r; lia). lia. }
      unfold fexp. lia.
Qed.


(** *** Order *)

Lemma scale_normal_lt m1 e1 m2 e2 :
  valid (S754_finite false m1 e1) = true -> valid (S754_finite false m2 e2) = true ->
  (e1 < e2)%Z -> scale (Zpos m1) e1 < scale (Zpos m2) e2.
Proof.
  intros V1 V2 He. apply valid_finite in V1. apply valid_finite in V2.
  apply Qlt_le_trans with (scale (2 ^ 52 * 2 ^ 1) e1); [apply scale_lt; lia|].
  rewrite <- scale_shift by lia.
  apply Qle_trans with (scale (2 ^ 52) e2); [apply scale_mono_e; lia|].
  apply scale_le. lia.
Qed.

Lemma compare_pos m1 e1 m2 e2 :
  valid (S754_finite false m1 e1) = true -> valid (S754_finite false m2 e2) = true ->
  match (e1 ?= e2)%Z with
  | Lt => Lt
  | Gt => Gt
  | Eq => Pos.compare_cont Eq m1 m2
  end = (scale (Zpos m1) e1 ?= scale (Zpos m2) e2).
Proof.
  intros V1 V2. symmetry.
  destruct (Z.compare_spec e1 e2) as [E|L|G].
  - subst e2. change (Pos.compare_cont Eq m1 m2) with (Zpos m1 ?= Zpos m2)%Z.
    destruct (Z.compare_spec (Zpos m1) (Zpos m2)) as [E|L|G]; qcompare.
    + now rewrite E.
    + now apply scale_lt.
    + now apply scale_lt.
  - qcompare. now apply scale_normal_lt.
  - qcompare. now apply scale_normal_lt.
Qed.

Lemma Qcompare_opp a b : (- a ?= - b) = CompOpp (a ?= b).
Proof.
  destruct (a ?= b) eqn:E; qcompare; cbn [CompOpp]; qcompare; lra.
Qed.

(** On numbers that are neither NaN nor infinite the comparison of the
    format is that of the values. *)
Lemma compare_B2Q x y :
  valid x = true -> valid y = true -> is_finite x = true -> is_finite y = true ->
  SFcompare x y = Some (B2Q x ?= B2Q y).
Proof.
  intros Vx Vy Fx Fy.
  destruct x as [sx|sx| |sx mx ex], y as [sy|sy| |sy my ey]; try discriminate.
  - reflexivity.
  - cbn [SFcompare B2Q]. f_equal. symmetry.
    destruct sy; cbn [cond_Zopp]; qcompare.
    + rewrite <- (scale_0 ey). apply scale_lt. lia.
    + apply scale_pos. lia.
  - cbn [SFcompare B2Q]. f_equal. symmetry.
    destruct sx; cbn [cond_Zopp]; qcompare.
    + rewrite <- (scale_0 ex). apply scale_lt. lia.
    + apply scale_pos. lia.
  - cbn [SFcompare B2Q]. f_equal.
    pose proof (scale_pos (Zpos mx) ex ltac:(lia)) as Px.
    pose proof (scale_pos (Zpos my) ey ltac:(lia)) as Py.
    destruct sx, sy; cbn [cond_Zopp].
    + change (Z.neg mx) with (- Zpos mx)%Z. change (Z.neg my) with (- Zpos my)%Z.
      rewrite (Qcompare_comp _ _ (scale_opp _ _) _ _ (scale_opp _ _)), Qcompare_opp.
      rewrite <- (compare_pos mx ex my ey Vx Vy).
      now destruct (ex ?= ey)%Z.
    + symmetry. qcompare. change (Z.neg mx) with (- Zpos mx)%Z. rewrite scale_opp. lra.
    + symmetry. qcompare. change (Z.neg my) with (- Zpos my)%Z. rewrite scale_opp. lra.
    + apply compare_pos; assumption.
Qed.

Lemma le_B2Q x y :
  valid x = true -> valid y = true -> is_finite x = true -> is_finite y = true ->
  (le x y = true <-> B2Q x <= B2Q y).
Proof.
  intros Vx Vy Fx Fy. unfold le, SFleb. rewrite (compare_B2Q x y Vx Vy Fx Fy).
  destruct (B2Q x ?= B2Q y) eqn:E; qcompare; split; intro H; try reflexivity;
    try discriminate; lra.
Qed.

(** *** Values on the grid *)

Definition min_subnormal : number := S754_finite false 1 (-1074).

Lemma grid x :
  valid x = true -> is_finite x = true -> exists k, B2Q x == scale k (-1074).
Proof.
  intros Vx Fx. destruct x as [s|s| |s m e]; try discriminate.
  - exists 0%Z. now rewrite scale_0.
  - apply valid_finite in Vx. exists (cond_Zopp s (Zpos m) * 2 ^ (e + 1074))%Z.
    cbn [B2Q]. rewrite <- scale_shift by lia. now replace (-1074 + (e + 1074))%Z with e by lia.
Qed.

(** Two numbers that differ differ by the smallest positive number at
    least. *)
Lemma difference_grid x y :
  valid x = true -> valid y = true -> is_finite x = true -> is_finite y = true ->
  B2Q y < B2Q x -> B2Q min_subnormal <= B2Q x - B2Q y.
Proof.
  intros Vx Vy Fx Fy H.
  destruct (grid x Vx Fx) as [kx Ex]. destruct (grid y Vy Fy) as [ky Ey].
  rewrite Ex, Ey in *. apply scale_lt_inv in H.
  cbn [B2Q min_subnormal cond_Zopp].
  apply Qle_trans with (scale (kx - ky) (-1074)); [apply scale_le; lia|].
  replace (kx - ky)%Z with (kx + - ky)%Z by lia. rewrite scale_plus, scale_opp. lra.
Qed.

Lemma Rounded_nonzero r z s :
  Rounded r z -> B2Q min_subnormal <= r -> z <> S754_zero s.
Proof.
  intros (_ & _ & H) Hr ->.
  destruct (H min_subnormal eq_refl eq_refl) as [H1 _].
  destruct (H1 Hr) as [_ H0]. cbn [B2Q] in H0.
  assert (0 < B2Q min_subnormal) by reflexivity. lra.
Qed.

Lemma nearest_mono r1 r2 b1 b2 :
  valid b1 = true -> is_finite b1 = true -> valid b2 = true -> is_finite b2 = true ->
  nearest r1 (B2Q b1) -> nearest r2 (B2Q b2) -> r1 < r2 -> B2Q b1 <= B2Q b2.
Proof.
  intros V1 F1 V2 F2 H1 H2 Hr.
  destruct (Qlt_le_dec (B2Q b2) (B2Q b1)) as [L|G]; [exfalso | exact G].
  destruct (H1 b2 V2 F2) as [A1 A2]. destruct (H2 b1 V1 F1) as [B1 B2].
  destruct (Qlt_le_dec r1 (B2Q b2)) as [L1|G1].
  - destruct (A2 (Qlt_le_weak _ _ L1)). lra.
  - destruct (A1 G1) as [A _].
    destruct (Qlt_le_dec (B2Q b1) r2) as [L2|G2].
    + destruct (B1 (Qlt_le_weak _ _ L2)). lra.
    + destruct (B2 G2) as [B _]. lra.
Qed.


(** *** [Math.round] on a score *)

Lemma Math_round_range u :
  valid u = true -> is_finite u = true -> sign u = false -> B2Q u <= 100 ->
  exists n, (0 <= n <= 100)%Z /\ Math_round u = of_Z n.
Proof.
  intros Vu Fu Su Hu. destruct u as [s|s| |s m e]; try discriminate.
  - cbn [sign] in Su. subst s. exists 0%Z. split; [lia | reflexivity].
  - cbn [sign] in Su. subst s. cbn [B2Q cond_Zopp] in Hu.
    apply valid_finite in Vu.
    assert (He : (e < 0)%Z).
    { destruct (Z.lt_ge_cases e 0) as [L|G]; [exact L|]. exfalso.
      assert (scale (2 ^ 52) 0 <= scale (Zpos m) e).
      { apply Qle_trans with (scale (Zpos m) 0); [apply scale_le; lia|].
        apply scale_mono_e; lia. }
      assert (100 < scale (2 ^ 52) 0) by reflexivity. lra. }
    cbn [Math_round]. destruct (Z.leb_spec 0 e) as [L|_]; [lia|].
    cbn [cond_Zopp].
    eexists. split; [|reflexivity].
    assert (HP : (0 < 2 ^ (- e))%Z) by (apply Z.pow_pos_nonneg; lia).
    assert (E2 : (2 ^ (1 - e) = 2 * 2 ^ (- e))%Z).
    { replace (1 - e)%Z with (1 + - e)%Z by lia. rewrite Z.pow_add_r by lia. reflexivity. }
    assert (Hm : (Zpos m <= 100 * 2 ^ (- e))%Z).
    { apply (scale_le_inv _ _ e). rewrite <- scale_shift by lia.
      replace (e + - e)%Z with 0%Z by lia.
      apply Qle_trans with (1 := Hu). apply Qle_lteq. right. reflexivity. }
    rewrite E2. split.
    + apply Z.div_pos; lia.
    + assert ((2 * Zpos m + 2 ^ (- e)) / (2 * 2 ^ (- e)) < 101)%Z; [|lia].
      apply Z.div_lt_upper_bound; lia.
Qed.

End Binary64Facts.

(** ** The scoring engine over binary64 *)

Module Scoring64Facts.
Import SpecFloat Binary64 Binary64Facts Scoring64.

(** 100, as the format holds it. *)
Definition hundred : number := S754_finite false 7036874417766400 (-46).

Lemma of_Z_100 : of_Z 100 = hundred.
Proof. reflexivity. Qed.

(** The interpolation from a position and a range that are numbers of the
    format, the position positive and at most the range. *)
Lemma score_of_position mp ep range :
  valid (S754_finite false mp ep) = true ->
  (range = S754_infinity false \/
   exists mr er, range = S754_finite false mr er /\
                 scale (Zpos mp) ep <= scale (Zpos mr) er) ->
  exists n, (0 <= n <= 100)%Z /\
    Math_round (sub (of_Z 100) (mul (div (S754_finite false mp ep) range) (of_Z 100)))
      = of_Z n.
Proof.
  intros Vp [->|(mr & er & -> & Hle)].
  - exists 100%Z. split; [lia | reflexivity].
  - pose proof (div_Rounded mp ep mr er) as (Vq & Sq & Hq).
    set (r := scale (Zpos mp) ep / scale (Zpos mr) er) in *.
    pose proof (scale_pos (Zpos mp) ep ltac:(lia)) as Pp.
    pose proof (scale_pos (Zpos mr) er ltac:(lia)) as Pr.
    assert (Hr0 : 0 < r).
    { subst r. apply Qlt_shift_div_l; [exact Pr | lra]. }
    assert (Hr1 : r <= 1).
    { subst r. apply Qle_shift_div_r; [exact Pr | lra]. }
    destruct (div (S754_finite false mp ep) (S754_finite false mr er))
      as [s|s| |s mq eq] eqn:Eq.
    + cbn [sign] in Sq. subst s. exists 100%Z. split; [lia | reflexivity].
    + exfalso. pose proof (Hq (of_Z 2) eq_refl eq_refl) as H2.
      assert (B2Q (of_Z 2) == 2) by reflexivity. lra.
    + contradiction.
    + cbn [sign] in Sq. subst s.
      assert (Hq1 : scale (Zpos mq) eq <= 1).
      { destruct (Hq (of_Z 1) eq_refl eq_refl) as [_ H1].
        assert (E1 : B2Q (of_Z 1) == 1) by reflexivity.
        destruct H1 as [_ H1]; [lra|]. cbn [B2Q cond_Zopp] in H1. lra. }
      pose proof (scale_pos (Zpos mq) eq ltac:(lia)) as Pq.
      rewrite of_Z_100. unfold hundred at 2.
      pose proof (mul_Rounded mq eq 7036874417766400 (-46) ltac:(lia)) as (Vt & St & Ht).
      assert (E100 : scale 7036874417766400 (-46) == 100) by reflexivity.
      set (r4 := scale (Zpos mq) eq * scale 7036874417766400 (-46)) in *.
      assert (Hr4 : 0 < r4 <= 100).
      { subst r4. rewrite E100. split; lra. }
      destruct (mul (S754_finite false mq eq) (S754_finite false 7036874417766400 (-46)))
        as [s|s| |s mt et] eqn:Et.
      * exists 100%Z. split; [lia | reflexivity].
      * exfalso. pose proof (Ht (of_Z 128) eq_refl eq_refl) as H2.
        assert (B2Q (of_Z 128) == 128) by reflexivity. lra.
      * contradiction.
      * cbn [sign] in St. subst s.
        assert (Ht1 : scale (Zpos mt) et <= 100).
        { destruct (Ht hundred eq_refl eq_refl) as [_ H1].
          assert (E1 : B2Q hundred == 100) by reflexivity.
          destruct H1 as [_ H1]; [lra|]. cbn [B2Q cond_Zopp] in H1. lra. }
        destruct (Qlt_le_dec (scale (Zpos mt) et) 100) as [L|G].
        -- assert (E1 : B2Q hundred == 100) by reflexivity.
           pose proof (sub_Rounded hundred (S754_finite false mt et)
                         eq_refl Vt eq_refl eq_refl) as Hu.
           cbn [B2Q cond_Zopp] in Hu. fold hundred in Hu.
           specialize (Hu ltac:(change (scale 7036874417766400 (-46)) with (B2Q hundred); lra)).
           destruct Hu as (Vu & Su & Hu).
           fold hundred.
           change (scale 7036874417766400 (-46)) with (B2Q hundred) in Hu.
           pose proof (scale_pos (Zpos mt) et ltac:(lia)) as Pt.
           apply Math_round_range; [exact Vu| |exact Su|].
           ++ destruct (sub hundred (S754_finite false mt et)) as [s|s| |s mu eu];
                try reflexivity; try contradiction.
              exfalso. pose proof (Hu (of_Z 128) eq_refl eq_refl) as H2.
              assert (B2Q (of_Z 128) == 128) by reflexivity. lra.
           ++ destruct (sub hundred (S754_finite false mt et)) as [s|s| |s mu eu].
              ** cbn [B2Q]. lra.
              ** cbn [B2Q]. lra.
              ** contradiction.
              ** destruct (Hu hundred eq_refl eq_refl) as [_ H1].
                 destruct H1 as [_ H1]; lra.
        -- exists 0%Z. split; [lia|]. fold hundred. unfold hundred at 1.
           rewrite sub_same; [reflexivity|].
           cbn [B2Q cond_Zopp]. lra.
Qed.


(** *** Order of the format, NaN and the infinities included *)

Ltac compare_cases :=
  unfold lt, le, ge, eqb, SFltb, SFleb, SFeqb, SFcompare;
  change (Pos.compare_cont Eq) with Pos.compare;
  repeat match goal with
  | |- context [(?a ?= ?b)%Z] => destruct (Z.compare_spec a b)
  | |- context [(?a ?= ?b)%positive] => destruct (Pos.compare_spec a b)
  end;
  cbn [CompOpp]; try discriminate; try reflexivity; try lia.

Lemma at_or_above_poor v g p :
  lt g p = true -> ge v p = true -> le v g = false.
Proof.
  destruct v as [sv|sv| |sv mv ev], g as [sg|sg| |sg mg eg], p as [sp|sp| |sp mp ep];
    try destruct sv; try destruct sg; try destruct sp;
    try discriminate; try reflexivity; compare_cases.
Qed.

Lemma above_equal_thresholds v g p :
  is_nan v = false -> eqb g p = true -> le v g = false -> ge v p = true.
Proof.
  destruct v as [sv|sv| |sv mv ev], g as [sg|sg| |sg mg eg], p as [sp|sp| |sp mp ep];
    try destruct sv; try destruct sg; try destruct sp;
    try discriminate; try reflexivity; intros _; compare_cases.
Qed.

(** Where both tests of [calculateMetricScore] fail on numbers that are not
    NaN, the value is finite and lies strictly between the thresholds. *)
Lemma interior_cases v g p :
  is_nan v = false -> is_nan g = false -> is_nan p = false ->
  le v g = false -> ge v p = false ->
  is_finite v = true /\
  (g = S754_infinity true \/ is_finite g = true) /\
  (p = S754_infinity false \/ is_finite p = true) /\
  lt g v = true /\ lt v p = true.
Proof.
  destruct v as [sv|sv| |sv mv ev], g as [sg|sg| |sg mg eg], p as [sp|sp| |sp mp ep];
    try destruct sv; try destruct sg; try destruct sp;
    try discriminate; intros _ _ _;
    try (cbn; intros; try discriminate; repeat split; auto; fail);
    unfold le, ge, lt, SFleb, SFltb; cbn [is_finite];
    intros H1 H2; (split; [reflexivity|]); (split; [auto|]); (split; [auto|]);
    revert H1 H2; compare_cases.
Qed.

Lemma lt_B2Q x y :
  valid x = true -> valid y = true -> is_finite x = true -> is_finite y = true ->
  (lt x y = true <-> B2Q x < B2Q y).
Proof.
  intros Vx Vy Fx Fy. unfold lt, SFltb. rewrite (compare_B2Q x y Vx Vy Fx Fy).
  destruct (B2Q x ?= B2Q y) eqn:E; qcompare; split; intro H; try reflexivity;
    try discriminate; lra.
Qed.

(** The position [value - good] of a value above [good]. *)
Lemma position_spec v g :
  valid v = true -> valid g = true -> is_finite v = true -> is_finite g = true ->
  B2Q g < B2Q v ->
  sub v g = S754_infinity false \/
  exists m e, sub v g = S754_finite false m e /\
              valid (S754_finite false m e) = true /\
              nearest (B2Q v - B2Q g) (scale (Zpos m) e).
Proof.
  intros Vv Vg Fv Fg H.
  pose proof (sub_Rounded v g Vv Vg Fv Fg H) as HR.
  pose proof (difference_grid v g Vv Vg Fv Fg H) as Hgrid.
  pose proof (fun s => Rounded_nonzero _ _ s HR Hgrid) as Hnz.
  destruct HR as (Vz & Sz & Hz).
  destruct (sub v g) as [s|s| |s m e].
  - now destruct (Hnz s).
  - cbn [sign] in Sz. subst s. now left.
  - contradiction.
  - cbn [sign] in Sz. subst s. right. exists m, e. auto.
Qed.

(** Between the thresholds the score is an integer from 0 to 100, unless
    [value - good] overflows. *)
Lemma interpolation_in_range v g p :
  valid v = true -> valid g = true -> valid p = true ->
  is_nan v = false -> is_nan g = false -> is_nan p = false ->
  le v g = false -> ge v p = false ->
  sub v g <> S754_infinity false ->
  exists n, (0 <= n <= 100)%Z /\
    Math_round (sub (of_Z 100) (mul (div (sub v g) (sub p g)) (of_Z 100))) = of_Z n.
Proof.
  intros Vv Vg Vp Nv Ng Np Hle Hge Hpos.
  destruct (interior_cases v g p Nv Ng Np Hle Hge) as (Fv & Hg & Hp & Lgv & Lvp).
  destruct Hg as [->|Fg].
  { exfalso. apply Hpos. now destruct v. }
  apply (lt_B2Q g v Vg Vv Fg Fv) in Lgv.
  destruct (position_spec v g Vv Vg Fv Fg Lgv) as [E|(mp & ep & Epos & Vpos & Npos)];
    [contradiction|].
  rewrite Epos. apply score_of_position; [exact Vpos|].
  destruct Hp as [->|Fp].
  { left. now destruct g. }
  apply (lt_B2Q v p Vv Vp Fv Fp) in Lvp.
  assert (Lgp : B2Q g < B2Q p) by lra.
  destruct (position_spec p g Vp Vg Fp Fg Lgp) as [E|(mr & er & Er & Vr & Nr)];
    [now left|].
  right. exists mr, er. split; [exact Er|].
  apply (nearest_mono (B2Q v - B2Q g) (B2Q p - B2Q g)
           (S754_finite false mp ep) (S754_finite false mr er));
    try assumption; try reflexivity. lra.
Qed.

(** The divisor [poor - good] between the thresholds is positive. *)
Lemma range_positive v g p :
  valid v = true -> valid g = true -> valid p = true ->
  is_nan v = false -> is_nan g = false -> is_nan p = false ->
  le v g = false -> ge v p = false ->
  lt (of_Z 0) (sub p g) = true.
Proof.
  intros Vv Vg Vp Nv Ng Np Hle Hge.
  destruct (interior_cases v g p Nv Ng Np Hle Hge) as (Fv & Hg & Hp & Lgv & Lvp).
  destruct Hg as [->|Fg].
  { destruct Hp as [->|Fp]; [reflexivity|]. now destruct p. }
  destruct Hp as [->|Fp].
  { now destruct g. }
  apply (lt_B2Q g v Vg Vv Fg Fv) in Lgv.
  apply (lt_B2Q v p Vv Vp Fv Fp) in Lvp.
  assert (Lgp : B2Q g < B2Q p) by lra.
  destruct (position_spec p g Vp Vg Fp Fg Lgp) as [->|(mr & er & -> & _)]; reflexivity.
Qed.


(** On numbers that are neither NaN nor infinite the two tests of
    [calculateMetricScore] are those of exact arithmetic on the values: the
    binary64 function and the exact one take the same branch. *)
Lemma tests_agree x y :
  valid x = true -> valid y = true -> is_finite x = true -> is_finite y = true ->
  le x y = JS.le (B2Q x) (B2Q y) /\ ge x y = JS.ge (B2Q x) (B2Q y).
Proof.
  intros Vx Vy Fx Fy. unfold JS.le, JS.ge, ge. split.
  - destruct (le x y) eqn:E.
    + symmetry. apply Qle_bool_iff. now apply (le_B2Q x y).
    + destruct (Qle_bool (B2Q x) (B2Q y)) eqn:E'; [|reflexivity].
      apply Qle_bool_iff, (le_B2Q x y) in E'; congruence.
  - fold (le y x). destruct (le y x) eqn:E.
    + symmetry. apply Qle_bool_iff. now apply (le_B2Q y x).
    + destruct (Qle_bool (B2Q y) (B2Q x)) eqn:E'; [|reflexivity].
      apply Qle_bool_iff, (le_B2Q y x) in E'; congruence.
Qed.

(** *** The claims on values *)

(** C1: with [good < poor], [calculateMetricScore] returns 100 at or below
    [good], 0 at or above [poor], and otherwise
    [Math.round(100 - ((value - good) / (poor - good)) * 100)], every
    operation being that of binary64. *)
Theorem calculateMetricScore_spec value thresholds :
  lt (good thresholds) (poor thresholds) = true ->
  (le value (good thresholds) = true ->
     calculateMetricScore value thresholds = of_Z 100) /\
  (ge value (poor thresholds) = true ->
     calculateMetricScore value thresholds = of_Z 0) /\
  (le value (good thresholds) = false -> ge value (poor thresholds) = false ->
     calculateMetricScore value thresholds =
       Math_round
         (sub (of_Z 100)
            (mul (div (sub value (good thresholds))
                      (sub (poor thresholds) (good thresholds)))
                 (of_Z 100)))).
Proof.
  intro Hgp. unfold calculateMetricScore. split; [|split].
  - now intros ->.
  - intro Hp. now rewrite (at_or_above_poor _ _ _ Hgp Hp), Hp.
  - now intros -> ->.
Qed.

Lemma calculateMetricScore_spec_witness :
  calculateMetricScore (of_Z 300) {| good := of_Z 300; poor := of_Z 800 |} = of_Z 100 /\
  calculateMetricScore (of_Z 800) {| good := of_Z 300; poor := of_Z 800 |} = of_Z 0 /\
  calculateMetricScore (of_Z 425) {| good := of_Z 300; poor := of_Z 800 |} =
    Math_round
      (sub (of_Z 100)
         (mul (div (sub (of_Z 425) (of_Z 300)) (sub (of_Z 800) (of_Z 300))) (of_Z 100))).
Proof.
  assert (Hgp : lt (good {| good := of_Z 300; poor := of_Z 800 |})
                   (poor {| good := of_Z 300; poor := of_Z 800 |}) = true)
    by reflexivity.
  destruct (calculateMetricScore_spec (of_Z 300) _ Hgp) as (H1 & _ & _).
  destruct (calculateMetricScore_spec (of_Z 800) _ Hgp) as (_ & H2 & _).
  destruct (calculateMetricScore_spec (of_Z 425) _ Hgp) as (_ & _ & H3).
  split; [|split].
  - apply H1. reflexivity.
  - apply H2. reflexivity.
  - apply H3; reflexivity.
Defined.

(** Values the interpolation takes where binary64 and exact arithmetic
    part: 54.5 and 44.5 are not reached exactly. *)
Example calculateMetricScore_rounding :
  calculateMetricScore (of_Z 425) {| good := of_Z 300; poor := of_Z 800 |} = of_Z 75 /\
  calculateMetricScore (of_Z 1045) {| good := of_Z 500; poor := of_Z 1500 |} = of_Z 45 /\
  calculateMetricScore (of_Z 1055) {| good := of_Z 500; poor := of_Z 1500 |} = of_Z 44 /\
  calculateMetricScore (decimal 1045 1000)
    {| good := decimal 5 10; poor := decimal 15 10 |} = of_Z 46.
Proof. repeat split; vm_compute; reflexivity. Qed.


(** Sample metrics: only the three durations matter to the score. *)
Definition sample_metrics (ttff tti fid : number) : PerformanceMetrics := {|
  timeToFirstFrameMs := ttff;
  timeToInteractiveMs := Some tti;
  firstInputDelay := Some {| firstInputDelayMs := fid;
                             firstInputTimeMs := of_Z 1300;
                             inputProcessingStartTimeMs := add (of_Z 1300) fid;
                             inputType := touch |};
  mountStartTimeMs := of_Z 1000;
  firstFrameTimeMs := add (of_Z 1000) ttff;
  interactiveTimeMs := Some (add (of_Z 1000) tti)
|}.

(** C3: [overall] is [Math.round] of the weighted sum of the three
    sub-scores, computed in binary64 from left to right, and [category] is
    [getScoreCategory overall]; with the defaults, metrics (100, 200, 10)
    score 100/100/100, overall 100, excellent, and metrics (1000, 2000, 200)
    score 0/0/0, overall 0, poor. *)
Theorem calculatePerformanceScore_overall metrics thresholds_arg weights_arg :
  (let thresholds := JS.nullish thresholds_arg DEFAULT_THRESHOLDS in
   let weights := JS.nullish weights_arg DEFAULT_WEIGHTS in
   let score := calculatePerformanceScore metrics thresholds_arg weights_arg in
   let ttffScore := calculateMetricScore (timeToFirstFrameMs metrics) (t_ttff thresholds) in
   let ttiScore := calculateMetricScore (ttiValue metrics) (t_tti thresholds) in
   let fidScore := calculateMetricScore (fidValue metrics) (t_fid thresholds) in
   breakdown score = {| b_ttff := ttffScore; b_tti := ttiScore; b_fid := fidScore |} /\
   overall score =
     Math_round (add (add (mul ttffScore (w_ttff weights)) (mul ttiScore (w_tti weights)))
                     (mul fidScore (w_fid weights))) /\
   category score = getScoreCategory (overall score)) /\
  calculatePerformanceScore (sample_metrics (of_Z 100) (of_Z 200) (of_Z 10)) None None
    = {| overall := of_Z 100;
         breakdown := {| b_ttff := of_Z 100; b_tti := of_Z 100; b_fid := of_Z 100 |};
         category := excellent |} /\
  calculatePerformanceScore (sample_metrics (of_Z 1000) (of_Z 2000) (of_Z 200)) None None
    = {| overall := of_Z 0;
         breakdown := {| b_ttff := of_Z 0; b_tti := of_Z 0; b_fid := of_Z 0 |};
         category := poor_category |}.
Proof.
  split; [|split; vm_compute; reflexivity].
  cbv zeta. split; [|split]; reflexivity.
Qed.

(** The default weights are the binary64 numbers nearest to 0.25, 0.45 and
    0.30; with them the weighted sum of integer sub-scores need not be the
    exact one: 0.25 * 100 + 0.45 * 45 + 0.30 * 97 is 74.35 exactly but a bit
    less than 74.5 in either arithmetic, while sub-scores 0, 2 and 62 sum to
    19.5 exactly and to less than 19.5 in binary64. *)
Example calculatePerformanceScore_rounding :
  DEFAULT_WEIGHTS
    = {| w_ttff := S754_finite false 4503599627370496 (-54);
         w_tti := S754_finite false 8106479329266893 (-54);
         w_fid := S754_finite false 5404319552844595 (-54) |} /\
  calculatePerformanceScore (sample_metrics (of_Z 300) (of_Z 1045) (of_Z 53)) None None
    = {| overall := of_Z 74;
         breakdown := {| b_ttff := of_Z 100; b_tti := of_Z 45; b_fid := of_Z 97 |};
         category := needs_improvement |} /\
  calculatePerformanceScore (sample_metrics (of_Z 800) (of_Z 1480) (of_Z 88)) None None
    = {| overall := of_Z 19;
         breakdown := {| b_ttff := of_Z 0; b_tti := of_Z 2; b_fid := of_Z 62 |};
         category := poor_category |}.
Proof. repeat split; vm_compute; reflexivity. Qed.

(** C4, amended.  On binary64 numbers other than NaN, whatever their order
    and sign: the division is reached only with [good < value < poor], its
    divisor [poor - good] being positive there; with [good == poor] the
    function is the step function; and the result is an integer from 0 to
    100 unless [value - good] overflows to plus infinity. *)
Theorem calculateMetricScore_total value thresholds :
  valid value = true ->
  valid (good thresholds) = true -> valid (poor thresholds) = true ->
  is_nan value = false ->
  is_nan (good thresholds) = false -> is_nan (poor thresholds) = false ->
  (le value (good thresholds) = false -> ge value (poor thresholds) = false ->
     lt (good thresholds) value = true /\ lt value (poor thresholds) = true /\
     lt (of_Z 0) (sub (poor thresholds) (good thresholds)) = true) /\
  (eqb (good thresholds) (poor thresholds) = true ->
     calculateMetricScore value thresholds
       = if le value (good thresholds) then of_Z 100 else of_Z 0) /\
  (sub value (good thresholds) <> S754_infinity false ->
     exists n : Z, (0 <= n <= 100)%Z /\ calculateMetricScore value thresholds = of_Z n).
Proof.
  intros Vv Vg Vp Nv Ng Np. split; [|split].
  - intros Hle Hge.
    destruct (interior_cases _ _ _ Nv Ng Np Hle Hge) as (_ & _ & _ & L1 & L2).
    split; [exact L1|]. split; [exact L2|].
    now apply (range_positive value).
  - intro Heq. unfold calculateMetricScore.
    destruct (le value (good thresholds)) eqn:Hle; [reflexivity|].
    now rewrite (above_equal_thresholds _ _ _ Nv Heq Hle).
  - intro Hpos. unfold calculateMetricScore.
    destruct (le value (good thresholds)) eqn:Hle; [exists 100%Z; split; [lia | reflexivity]|].
    destruct (ge value (poor thresholds)) eqn:Hge; [exists 0%Z; split; [lia | reflexivity]|].
    cbv zeta. now apply interpolation_in_range.
Qed.

Lemma calculateMetricScore_total_witness :
  (lt (of_Z 300) (of_Z 400) = true /\ lt (of_Z 400) (of_Z 800) = true /\
   lt (of_Z 0) (sub (of_Z 800) (of_Z 300)) = true) /\
  calculateMetricScore (of_Z 7) {| good := of_Z 5; poor := of_Z 5 |} = of_Z 0 /\
  calculateMetricScore (of_Z 5) {| good := of_Z 5; poor := of_Z 5 |} = of_Z 100 /\
  (exists n : Z, (0 <= n <= 100)%Z /\
     calculateMetricScore (of_Z (-3)) {| good := of_Z 10; poor := of_Z (-20) |} = of_Z n) /\
  (exists n : Z, (0 <= n <= 100)%Z /\
     calculateMetricScore (of_Z 400) {| good := of_Z 300; poor := of_Z 800 |} = of_Z n).
Proof.
  destruct (calculateMetricScore_total (of_Z 400) {| good := of_Z 300; poor := of_Z 800 |}
              eq_refl eq_refl eq_refl eq_refl eq_refl eq_refl) as (Hdiv & _ & Hrange).
  destruct (calculateMetricScore_total (of_Z 7) {| good := of_Z 5; poor := of_Z 5 |}
              eq_refl eq_refl eq_refl eq_refl eq_refl eq_refl) as (_ & Hstep7 & _).
  destruct (calculateMetricScore_total (of_Z 5) {| good := of_Z 5; poor := of_Z 5 |}
              eq_refl eq_refl eq_refl eq_refl eq_refl eq_refl) as (_ & Hstep5 & _).
  destruct (calculateMetricScore_total (of_Z (-3)) {| good := of_Z 10; poor := of_Z (-20) |}
              eq_refl eq_refl eq_refl eq_refl eq_refl eq_refl) as (_ & _ & Hneg).
  split; [|split; [|split; [|split]]].
  - apply Hdiv; reflexivity.
  - apply Hstep7. reflexivity.
  - apply Hstep5. reflexivity.
  - apply Hneg. discriminate.
  - apply Hrange. discriminate.
Defined.

(** The largest number of the format, [(2^53 - 1) * 2^971]. *)
Definition largest : number := S754_finite false 9007199254740991 971.

(** A NaN value fails both tests and poisons the interpolation, whatever
    the thresholds. *)
Lemma calculateMetricScore_of_NaN thresholds :
  calculateMetricScore NaN thresholds = NaN.
Proof.
  unfold calculateMetricScore.
  destruct (good thresholds) as [s|s| |s m e], (poor thresholds) as [s'|s'| |s' m' e'];
    reflexivity.
Qed.

(** C4 as stated fails.  A NaN value fails both tests: with thresholds
    [good == poor == 5] the divisor is zero, NaN / 0 is computed, and the
    result is NaN, which is neither 100 nor 0 nor any number from 0 to 100.
    A NaN threshold gives NaN too, and so do finite numbers whose difference
    overflows: the value 2^1023 with thresholds at minus and plus the
    largest number of the format. *)
Lemma calculateMetricScore_nan :
  eqb (of_Z 5) (of_Z 5) = true /\
  le NaN (of_Z 5) = false /\ ge NaN (of_Z 5) = false /\
  sub (of_Z 5) (of_Z 5) = of_Z 0 /\
  div (sub NaN (of_Z 5)) (of_Z 0) = NaN /\
  calculateMetricScore NaN {| good := of_Z 5; poor := of_Z 5 |} = NaN /\
  le (of_Z 0) NaN = false /\ le NaN (of_Z 100) = false /\
  calculateMetricScore (of_Z 400) {| good := NaN; poor := of_Z 500 |} = NaN /\
  valid largest = true /\ valid (S754_finite false 4503599627370496 971) = true /\
  lt (sub (of_Z 0) largest) largest = true /\
  sub (S754_finite false 4503599627370496 971) (sub (of_Z 0) largest)
    = S754_infinity false /\
  calculateMetricScore (S754_finite false 4503599627370496 971)
    {| good := sub (of_Z 0) largest; poor := largest |} = NaN.
Proof. repeat split; vm_compute; reflexivity. Qed.

End Scoring64Facts.

(** ** The lifecycle hook *)

Module HookFacts.
Import Hook.

Definition is_interactive_call (o : Output) : bool :=
  match o with CallOnInteractive _ => true | _ => false end.

Definition is_report_call (o : Output) : bool :=
  match o with CallOnReport _ _ => true | _ => false end.

(** How many times a callback was invoked. *)
Definition calls (which : Output -> bool) (l : list Output) : nat :=
  List.length (filter which l).

Lemma calls_app which l1 l2 : calls which (l1 ++ l2) = (calls which l1 + calls which l2)%nat.
Proof. unfold calls. now rewrite filter_app, length_app. Qed.

Definition is_fid_task (t : Microtask) : bool :=
  match t with FidTask _ _ => true | FirstFrameTask => false end.

(** The metrics an output carries. *)
Definition output_metrics (o : Output) : option PerformanceMetrics :=
  match o with
  | ConsoleLog _ => None
  | CallOnMetricsReady m | CallOnInteractive m | CallOnReport m _ => Some m
  end.

Section Instance.

Variable isDev : bool.
Variable options : Options.

Abbreviation logFinalMetrics := (logFinalMetrics isDev options).
Abbreviation runFidTask := (runFidTask isDev options).
Abbreviation runFirstFrameTask := (runFirstFrameTask isDev options).
Abbreviation markInteractive := (markInteractive isDev options).
Abbreviation fidTimeoutCallback := (fidTimeoutCallback isDev options).
Abbreviation step := (step isDev options).
Abbreviation run := (run isDev options).
Abbreviation debug := (debug isDev options).
Abbreviation logPrefix := (logPrefix options).
Abbreviation fidTimeout := (fidTimeout options).

(** The state [logFinalMetrics] leaves when it finalizes. *)
Definition finalized (current : PerformanceMetrics) (finalScore : PerformanceScore)
    (s : State) : State :=
  let finalMetrics := finalMetricsOf current s in
  {| mountStartTimeMsRef := mountStartTimeMsRef s;
     firstFrameTimeMsRef := firstFrameTimeMsRef s;
     interactiveTimeMsRef := interactiveTimeMsRef s;
     metricsRef := Some finalMetrics;
     hasLoggedRef := true;
     metricsState := Some finalMetrics;
     scoreState := Some finalScore;
     firstInputDelayRef := firstInputDelayRef s;
     hasRecordedFirstInputRef := hasRecordedFirstInputRef s;
     fidTimeoutRef := None;
     microtasks := microtasks s;
     timers := match fidTimeoutRef s with
               | Some id => filter (fun t => negb (Pos.eqb (fst t) id)) (timers s)
               | None => timers s
               end;
     nextTimerId := nextTimerId s;
     out := out s
            ++ (if debug then
                  [ConsoleLog
                     (LogFinal logPrefix
                        (timeToFirstFrameMs finalMetrics)
                        (timeToInteractiveMs finalMetrics)
                        (option_map firstInputDelayMs (firstInputDelay finalMetrics))
                        (option_map inputType (firstInputDelay finalMetrics))
                        (overall finalScore) (category finalScore))]
                else [])
            ++ (if onReport options then [CallOnReport finalMetrics finalScore] else [])
  |}.

Lemma logFinalMetrics_guarded s :
  metricsRef s = None \/ hasLoggedRef s = true -> logFinalMetrics s = Some s.
Proof.
  unfold Hook.logFinalMetrics. intros [H|H]; rewrite H; [reflexivity|].
  now destruct (metricsRef s).
Qed.

Lemma state_ext (s1 s2 : State) :
  mountStartTimeMsRef s1 = mountStartTimeMsRef s2 ->
  firstFrameTimeMsRef s1 = firstFrameTimeMsRef s2 ->
  interactiveTimeMsRef s1 = interactiveTimeMsRef s2 ->
  metricsRef s1 = metricsRef s2 ->
  hasLoggedRef s1 = hasLoggedRef s2 ->
  metricsState s1 = metricsState s2 ->
  scoreState s1 = scoreState s2 ->
  firstInputDelayRef s1 = firstInputDelayRef s2 ->
  hasRecordedFirstInputRef s1 = hasRecordedFirstInputRef s2 ->
  fidTimeoutRef s1 = fidTimeoutRef s2 ->
  microtasks s1 = microtasks s2 ->
  timers s1 = timers s2 ->
  nextTimerId s1 = nextTimerId s2 ->
  out s1 = out s2 ->
  s1 = s2.
Proof. destruct s1, s2; cbn; intros; subst; reflexivity. Qed.

Lemma logFinalMetrics_finalizes s current :
  metricsRef s = Some current -> hasLoggedRef s = false ->
  exists finalScore,
    Scoring.calculatePerformanceScore (finalMetricsOf current s) None None
      = Some finalScore /\
    logFinalMetrics s = Some (finalized current finalScore s).
Proof.
  intros Hm Hl. unfold Hook.logFinalMetrics. rewrite Hm, Hl.
  cbn [fidTimeoutRef set_hasLoggedRef].
  destruct (ScoringFacts.performance_score_total (finalMetricsOf current s) None None)
    as [finalScore Hs].
  exists finalScore. split; [exact Hs|].
  cbv zeta.
  assert (Hfm : forall s0,
             interactiveTimeMsRef s0 = interactiveTimeMsRef s ->
             mountStartTimeMsRef s0 = mountStartTimeMsRef s ->
             firstInputDelayRef s0 = firstInputDelayRef s ->
             finalMetricsOf current s0 = finalMetricsOf current s).
  { intros s0 H1 H2 H3. unfold finalMetricsOf. now rewrite H1, H2, H3. }
  destruct (fidTimeoutRef s) as [id|] eqn:Hid;
    rewrite Hfm by reflexivity; rewrite Hs; cbn [JS.bind];
    f_equal; unfold finalized; rewrite Hid;
    destruct debug, (onReport options);
    apply state_ext; cbn; rewrite ?app_nil_r, <- ?app_assoc, ?Hid; reflexivity.
Qed.

(** *** Invariants of the reachable states *)

Record Inv (s : State) : Prop := {
  (** the first-frame closure is queued only once the first-frame time is set *)
  inv_first_frame :
    In FirstFrameTask (microtasks s) -> firstFrameTimeMsRef s <> None;
  inv_interactive_calls :
    calls is_interactive_call (out s)
      = match interactiveTimeMsRef s with
        | Some _ => if onInteractive options then 1%nat else 0%nat
        | None => 0%nat
        end;
  inv_report_calls :
    calls is_report_call (out s)
      = if hasLoggedRef s then (if onReport options then 1 else 0)%nat else 0%nat;
  (** once finalized, no timer is pending and none is remembered *)
  inv_logged_no_timer :
    hasLoggedRef s = true -> timers s = [] /\ fidTimeoutRef s = None;
  (** at most one timer is pending, the one [fidTimeoutRef] holds *)
  inv_timers :
    timers s = [] \/ exists id delay, timers s = [(id, delay)] /\ fidTimeoutRef s = Some id;
  inv_timer_metrics : fidTimeoutRef s <> None -> metricsRef s <> None;
  inv_interactive_metrics : interactiveTimeMsRef s <> None -> metricsRef s <> None;
  inv_logged_metrics : hasLoggedRef s = true -> metricsRef s <> None
}.

(** Computes the fields of a state built by the setters. *)
Ltac fields :=
  cbn [mountStartTimeMsRef firstFrameTimeMsRef interactiveTimeMsRef metricsRef
       hasLoggedRef metricsState scoreState firstInputDelayRef
       hasRecordedFirstInputRef fidTimeoutRef microtasks timers nextTimerId out
       set_firstFrameTimeMsRef set_interactiveTimeMsRef set_metricsRef
       set_hasLoggedRef setMetrics setScore set_firstInputDelayRef
       set_hasRecordedFirstInputRef set_fidTimeoutRef set_microtasks set_timers
       emit queueMicrotask setTimeout clearTimeout when fst snd negb finalized] in *.

(** Replaces a call of [calculatePerformanceScore] by the score it returns. *)
Ltac scored :=
  match goal with
  | |- context [Scoring.calculatePerformanceScore ?m None None] =>
      let sc := fresh "sc" in
      let Hsc := fresh "Hsc" in
      destruct (ScoringFacts.performance_score_total m None None) as [sc Hsc];
      rewrite Hsc; cbn [JS.bind]
  end.

Lemma init_inv now : Inv (init now).
Proof. constructor; cbn; try tauto; try discriminate; auto. Qed.

Lemma filter_pending_singleton (id : TimerId) (delay : JS.number) :
  filter (fun t : TimerId * JS.number => negb (Pos.eqb (fst t) id)) [(id, delay)] = [].
Proof. cbn. now rewrite Pos.eqb_refl. Qed.

Lemma logFinalMetrics_inv s :
  Inv s -> exists s', logFinalMetrics s = Some s' /\ Inv s'.
Proof.
  intros I.
  destruct (metricsRef s) as [current|] eqn:Hm;
    [destruct (hasLoggedRef s) eqn:Hl|].
  - exists s. split; [apply logFinalMetrics_guarded; auto | exact I].
  - destruct (logFinalMetrics_finalizes s current Hm Hl) as (finalScore & _ & ->).
    eexists. split; [reflexivity|].
    destruct I as [I1 I2 I3 I4 I5 I6 I7 I8].
    constructor; fields; try congruence; auto.
    + rewrite !calls_app, I2.
      destruct debug, (onReport options); cbn; lia.
    + rewrite !calls_app, I3, Hl.
      destruct debug, (onReport options); cbn; lia.
    + intros _. split; [|reflexivity].
      destruct I5 as [->|(id & delay & -> & ->)]; [now destruct (fidTimeoutRef s)|].
      apply filter_pending_singleton.
    + left. destruct I5 as [->|(id & delay & -> & ->)]; [now destruct (fidTimeoutRef s)|].
      apply filter_pending_singleton.
  - exists s. split; [apply logFinalMetrics_guarded; auto | exact I].
Qed.

Lemma console_log_inv c line s : Inv s -> Inv (when c (emit (ConsoleLog line)) s).
Proof.
  intros [I1 I2 I3 I4 I5 I6 I7 I8]. destruct c; [|now constructor].
  constructor; fields; auto; rewrite calls_app; cbn; lia.
Qed.

Lemma mountEffect_inv now s : Inv s -> Inv (mountEffect now s).
Proof.
  intros [I1 I2 I3 I4 I5 I6 I7 I8]. unfold Hook.mountEffect.
  constructor; destruct (firstFrameTimeMsRef s) eqn:Hff; cbn; auto; congruence.
Qed.

Lemma panResponder_inv handler now s : Inv s -> Inv (fst (panResponder handler now s)).
Proof.
  intros [I1 I2 I3 I4 I5 I6 I7 I8].
  unfold Hook.panResponder, Hook.measureFirstInputDelay.
  destruct handler, (hasRecordedFirstInputRef s); cbn;
    constructor; cbn; auto;
    intros [H|[H|[]]]%in_app_or; auto; discriminate.
Qed.

Lemma unmountCleanup_inv s : Inv s -> Inv (unmountCleanup s).
Proof.
  intros I. unfold Hook.unmountCleanup.
  destruct (fidTimeoutRef s) as [id|] eqn:Hid; [|exact I].
  destruct I as [I1 I2 I3 I4 I5 I6 I7 I8].
  assert (Hnil : filter (fun t : TimerId * JS.number => negb (Pos.eqb (fst t) id)) (timers s) = []).
  { destruct I5 as [->|(id' & delay & -> & E)]; [reflexivity|].
    rewrite Hid in E. injection E as <-. apply filter_pending_singleton. }
  constructor; fields; rewrite ?Hnil; auto.
  intro Hl. destruct (I4 Hl). congruence.
Qed.

Lemma runFirstFrameTask_inv rest s :
  Inv s -> microtasks s = FirstFrameTask :: rest ->
  exists s', runFirstFrameTask (set_microtasks rest s) = Some s' /\ Inv s'.
Proof.
  intros [I1 I2 I3 I4 I5 I6 I7 I8] Hq.
  unfold Hook.runFirstFrameTask. fields.
  destruct (firstFrameTimeMsRef s) as [firstFrameTime|] eqn:Hff;
    [|exfalso; apply I1; [rewrite Hq; now left | reflexivity]].
  cbn [JS.bind]. cbv zeta. scored.
  eexists. split; [reflexivity|].
  destruct debug, (onMetricsReady options);
    constructor; fields; rewrite ?calls_app; cbn [calls filter is_interactive_call
      is_report_call List.length]; rewrite ?Nat.add_0_r;
    auto; try congruence;
    intro Hin; apply I1; rewrite Hq; now right.
Qed.

Lemma markInteractive_inv now s :
  Inv s -> exists s', markInteractive now s = Some s' /\ Inv s'.
Proof.
  intros I. unfold Hook.markInteractive.
  destruct (interactiveTimeMsRef s) as [t|] eqn:Hi; [eauto|].
  cbv zeta. scored. eexists. split; [reflexivity|].
  destruct I as [I1 I2 I3 I4 I5 I6 I7 I8]. rewrite Hi in I2.
  destruct debug, (onInteractive options) eqn:Ho; fields;
    destruct (hasLoggedRef s) eqn:Hl, (fidTimeoutRef s) as [id|] eqn:Hid;
    constructor; fields; rewrite ?calls_app;
    cbn [calls filter is_interactive_call is_report_call List.length];
    rewrite ?Nat.add_0_r, ?I2, ?Hl, ?Hid, ?Ho;
    auto; try congruence; try lia;
    try (destruct I5 as [->|(id' & delay & _ & E)]; [eauto|congruence]);
    try (rewrite I3, Hl; reflexivity).
Qed.

(** The part of the FID closure that precedes the call of [logFinalMetrics]. *)
Definition recordFid (inputTime : JS.number) (ty : InputType) (now : JS.number)
    (s : State) : option State :=
  let fidMetrics := {|
    firstInputDelayMs := now - inputTime;
    firstInputTimeMs := inputTime;
    inputProcessingStartTimeMs := now;
    inputType := ty
  |} in
  let s := set_firstInputDelayRef (Some fidMetrics) s in
  match metricsRef s with
  | Some current =>
      let updatedMetrics := {|
        timeToFirstFrameMs := timeToFirstFrameMs current;
        timeToInteractiveMs := timeToInteractiveMs current;
        firstInputDelay := Some fidMetrics;
        mountStartTimeMs := mountStartTimeMs current;
        firstFrameTimeMs := firstFrameTimeMs current;
        interactiveTimeMs := interactiveTimeMs current
      |} in
      let s := set_metricsRef (Some updatedMetrics) s in
      let s := setMetrics updatedMetrics s in
      updatedScore <- Scoring.calculatePerformanceScore updatedMetrics None None ;;
      let s := setScore updatedScore s in
      Some (when (onMetricsReady options) (emit (CallOnMetricsReady updatedMetrics)) s)
  | None => Some s
  end.

Lemma runFidTask_unfold inputTime ty now s :
  runFidTask inputTime ty now s
    = (s' <- recordFid inputTime ty now s ;; logFinalMetrics s').
Proof. reflexivity. Qed.

Lemma recordFid_inv inputTime ty now s :
  Inv s -> exists s', recordFid inputTime ty now s = Some s' /\ Inv s'.
Proof.
  intros [I1 I2 I3 I4 I5 I6 I7 I8]. unfold recordFid. cbv zeta. fields.
  destruct (metricsRef s) as [current|] eqn:Hm.
  - scored. eexists. split; [reflexivity|].
    destruct (onMetricsReady options);
      constructor; fields; rewrite ?calls_app;
      cbn [calls filter is_interactive_call is_report_call List.length];
      rewrite ?Nat.add_0_r; auto; congruence.
  - eexists. split; [reflexivity|].
    constructor; fields; rewrite ?Hm; auto.
Qed.

Lemma set_microtasks_inv rest task s :
  Inv s -> microtasks s = task :: rest -> Inv (set_microtasks rest s).
Proof.
  intros [I1 I2 I3 I4 I5 I6 I7 I8] Hq. constructor; fields; auto.
  intro Hin. apply I1. rewrite Hq. now right.
Qed.

Lemma runFidTask_inv inputTime ty now s :
  Inv s -> exists s', runFidTask inputTime ty now s = Some s' /\ Inv s'.
Proof.
  intro I. rewrite runFidTask_unfold.
  destruct (recordFid_inv inputTime ty now s I) as (s1 & -> & I1).
  cbn [JS.bind]. apply logFinalMetrics_inv, I1.
Qed.

Lemma timer_removed_inv id s : Inv s -> Inv (clearTimeout id s).
Proof.
  intros [I1 I2 I3 I4 I5 I6 I7 I8].
  constructor; fields; auto.
  - intro Hl. destruct (I4 Hl) as [-> ->]. auto.
  - destruct I5 as [->|(id' & delay & -> & E)]; [now left|].
    cbn. destruct (Pos.eqb id' id); cbn; eauto.
Qed.

(** Every event can be taken, and the invariants survive it. *)
Lemma step_inv s e : Inv s -> exists s', step s e = Some s' /\ Inv s'.
Proof.
  intro I. destruct e as [now|now|handler now|now|id|]; cbn [Hook.step].
  - eauto using mountEffect_inv.
  - apply markInteractive_inv, I.
  - eauto using panResponder_inv.
  - destruct (microtasks s) as [|[|inputTime ty] rest] eqn:Hq; [eauto| |].
    + apply runFirstFrameTask_inv; assumption.
    + cbv zeta. apply runFidTask_inv. eapply set_microtasks_inv; eassumption.
  - destruct (is_pending id s); [|eauto].
    unfold Hook.fidTimeoutCallback. cbv zeta.
    apply logFinalMetrics_inv, console_log_inv, timer_removed_inv, I.
  - eauto using unmountCleanup_inv.
Qed.

Lemma run_inv events : forall s, Inv s -> exists s', run s events = Some s' /\ Inv s'.
Proof.
  induction events as [|e events IH]; intros s I; cbn [Hook.run].
  - eauto.
  - destruct (step_inv s e I) as (s1 & -> & I1). cbn [JS.bind]. apply IH, I1.
Qed.

(** A state the instance is in after some events. *)
Definition reachable (s : State) : Prop :=
  exists mountTime events, run (init mountTime) events = Some s.

Lemma reachable_inv s : reachable s -> Inv s.
Proof.
  intros (mountTime & events & Hrun).
  destruct (run_inv events (init mountTime) (init_inv mountTime)) as (s' & Hs' & I).
  congruence.
Qed.

(** *** markInteractive *)

Lemma markInteractive_marked now s :
  interactiveTimeMsRef s <> None -> markInteractive now s = Some s.
Proof.
  intro H. unfold Hook.markInteractive.
  destruct (interactiveTimeMsRef s); [reflexivity | contradiction].
Qed.

(** A first call returns and sets the interactive timestamp to the time of
    the call. *)
Lemma markInteractive_first now s :
  interactiveTimeMsRef s = None ->
  exists s', markInteractive now s = Some s' /\ interactiveTimeMsRef s' = Some now.
Proof.
  intro Hi. unfold Hook.markInteractive. rewrite Hi. cbv zeta. scored.
  eexists. split; [reflexivity|].
  destruct debug, (onInteractive options); fields;
    now destruct (hasLoggedRef s), (fidTimeoutRef s).
Qed.

Lemma logFinalMetrics_interactive s s' :
  logFinalMetrics s = Some s' -> interactiveTimeMsRef s' = interactiveTimeMsRef s.
Proof.
  destruct (metricsRef s) as [current|] eqn:Hm;
    [destruct (hasLoggedRef s) eqn:Hl|].
  - rewrite logFinalMetrics_guarded by auto. now intros [= <-].
  - destruct (logFinalMetrics_finalizes s current Hm Hl) as (finalScore & _ & ->).
    now intros [= <-].
  - rewrite logFinalMetrics_guarded by auto. now intros [= <-].
Qed.

Lemma recordFid_interactive inputTime ty now s s' :
  recordFid inputTime ty now s = Some s' ->
  interactiveTimeMsRef s' = interactiveTimeMsRef s.
Proof.
  unfold recordFid. cbv zeta. fields.
  destruct (metricsRef s) as [current|].
  - scored. intros [= <-]. now destruct (onMetricsReady options).
  - now intros [= <-].
Qed.

(** No event other than the first [markInteractive] touches the interactive
    timestamp. *)
Lemma step_interactive s e s' t :
  step s e = Some s' -> interactiveTimeMsRef s = Some t ->
  interactiveTimeMsRef s' = Some t.
Proof.
  intros Hstep Hi. destruct e as [now|now|handler now|now|id|]; cbn [Hook.step] in Hstep.
  - injection Hstep as <-. unfold Hook.mountEffect.
    now destruct (firstFrameTimeMsRef s).
  - rewrite markInteractive_marked in Hstep by congruence. congruence.
  - injection Hstep as <-. unfold Hook.panResponder, Hook.measureFirstInputDelay.
    now destruct handler, (hasRecordedFirstInputRef s).
  - destruct (microtasks s) as [|[|inputTime ty] rest]; [congruence| |].
    + unfold Hook.runFirstFrameTask in Hstep.
      cbn [firstFrameTimeMsRef set_microtasks] in Hstep.
      destruct (firstFrameTimeMsRef s); [|discriminate].
      cbn [JS.bind] in Hstep. cbv zeta in Hstep. revert Hstep. scored.
      intros [= <-]. now destruct debug, (onMetricsReady options).
    + cbv zeta in Hstep. rewrite runFidTask_unfold in Hstep.
      destruct (recordFid inputTime ty now (set_microtasks rest s)) as [s1|] eqn:H1;
        [|discriminate].
      cbn [JS.bind] in Hstep.
      rewrite (logFinalMetrics_interactive _ _ Hstep),
        (recordFid_interactive _ _ _ _ _ H1).
      exact Hi.
  - destruct (is_pending id s); [|congruence].
    unfold Hook.fidTimeoutCallback in Hstep. cbv zeta in Hstep.
    rewrite (logFinalMetrics_interactive _ _ Hstep).
    now destruct debug.
  - injection Hstep as <-. unfold Hook.unmountCleanup.
    now destruct (fidTimeoutRef s).
Qed.

Lemma run_interactive events : forall s s' t,
  run s events = Some s' -> interactiveTimeMsRef s = Some t ->
  interactiveTimeMsRef s' = Some t.
Proof.
  induction events as [|e events IH]; intros s s' t Hrun Hi; cbn [Hook.run] in Hrun.
  - congruence.
  - destruct (step s e) as [s1|] eqn:Hstep; [|discriminate].
    cbn [JS.bind] in Hrun. eapply IH; [exact Hrun|].
    eapply step_interactive; eassumption.
Qed.

(** C6: [markInteractive] is idempotent.  A call made once the interactive
    timestamp is set returns the state as it is (metrics, score, timers and
    outputs included); after any call the timestamp is set, and stays as it
    is over any later events; over a whole lifecycle [onInteractive] is
    invoked at most once. *)
Theorem markInteractive_idempotent :
  (forall s now, interactiveTimeMsRef s <> None -> markInteractive now s = Some s) /\
  (forall s now, exists s',
      markInteractive now s = Some s' /\
      interactiveTimeMsRef s' <> None /\
      forall events s'', run s' events = Some s'' ->
        interactiveTimeMsRef s'' = interactiveTimeMsRef s' /\
        forall now', markInteractive now' s'' = Some s'') /\
  (forall mountTime events, exists s,
      run (init mountTime) events = Some s /\
      (calls is_interactive_call (out s) <= 1)%nat).
Proof.
  split; [exact (fun s now => markInteractive_marked now s)|]. split.
  - intros s now.
    assert (H : exists s' t, markInteractive now s = Some s' /\
                             interactiveTimeMsRef s' = Some t).
    { destruct (interactiveTimeMsRef s) as [t|] eqn:Hi.
      - exists s, t. split; [apply markInteractive_marked; congruence | exact Hi].
      - destruct (markInteractive_first now s Hi) as (s' & H1 & H2). eauto. }
    destruct H as (s' & t & Hm & Hi). exists s'.
    split; [exact Hm|]. split; [congruence|].
    intros events s'' Hrun.
    pose proof (run_interactive events s' s'' t Hrun Hi) as Hi''.
    split; [congruence|].
    intro now'. apply markInteractive_marked. congruence.
  - intros mountTime events.
    destruct (run_inv events (init mountTime) (init_inv mountTime)) as (s & Hrun & I).
    exists s. split; [exact Hrun|].
    rewrite (inv_interactive_calls s I).
    destruct (interactiveTimeMsRef s), (onInteractive options); lia.
Qed.

(** *** Finalization *)

(** The state right after a finalization: the guard is set, no timer is
    pending or remembered, and the one report made so far carries the
    metrics and the score the instance now holds. *)
Definition just_finalized (s : State) : Prop :=
  hasLoggedRef s = true /\
  timers s = [] /\
  fidTimeoutRef s = None /\
  exists finalMetrics finalScore,
    metricsRef s = Some finalMetrics /\
    metricsState s = Some finalMetrics /\
    scoreState s = Some finalScore /\
    Scoring.calculatePerformanceScore finalMetrics None None = Some finalScore /\
    filter is_report_call (out s)
      = if onReport options then [CallOnReport finalMetrics finalScore] else [].

Lemma no_report_yet s :
  Inv s -> hasLoggedRef s = false -> filter is_report_call (out s) = [].
Proof.
  intros I Hl. pose proof (inv_report_calls s I) as H.
  rewrite Hl in H. unfold calls in H. now apply length_zero_iff_nil.
Qed.

Lemma logFinalMetrics_first s :
  Inv s -> hasLoggedRef s = false -> metricsRef s <> None ->
  exists s', logFinalMetrics s = Some s' /\ just_finalized s'.
Proof.
  intros I Hl Hm. destruct (metricsRef s) as [current|] eqn:Hcur; [|contradiction].
  destruct (logFinalMetrics_finalizes s current Hcur Hl) as (finalScore & Hs & ->).
  eexists. split; [reflexivity|].
  unfold just_finalized. fields.
  assert (Ht : match fidTimeoutRef s with
               | Some id =>
                   filter (fun t : TimerId * JS.number => negb (Pos.eqb (fst t) id))
                     (timers s)
               | None => timers s
               end = []).
  { destruct (inv_timers s I) as [->|(id & delay & -> & ->)];
      [now destruct (fidTimeoutRef s) | apply filter_pending_singleton]. }
  repeat split; [exact Ht|].
  exists (finalMetricsOf current s), finalScore.
  repeat split; [exact Hs|].
  rewrite !filter_app, (no_report_yet s I Hl).
  now destruct debug, (onReport options).
Qed.

Lemma recordFid_keeps inputTime ty now s s' :
  recordFid inputTime ty now s = Some s' ->
  hasLoggedRef s' = hasLoggedRef s /\ (metricsRef s <> None -> metricsRef s' <> None).
Proof.
  unfold recordFid. cbv zeta. fields.
  destruct (metricsRef s) as [current|].
  - scored. intros [= <-].
    destruct (onMetricsReady options); fields; split; auto; discriminate.
  - intros [= <-]. fields. auto.
Qed.

Lemma pending_not_logged id s :
  Inv s -> is_pending id s = true -> hasLoggedRef s = false /\ metricsRef s <> None.
Proof.
  intros I Hp. unfold is_pending in Hp.
  destruct (inv_timers s I) as [E|(id' & delay & E & Href)];
    [rewrite E in Hp; discriminate|].
  split.
  - destruct (hasLoggedRef s) eqn:Hl; [|reflexivity].
    destruct (inv_logged_no_timer s I Hl). congruence.
  - apply (inv_timer_metrics s I). congruence.
Qed.

(** *** First input *)

Definition input_type_of (handler : PanHandler) : InputType :=
  match handler with
  | onStartShouldSetPanResponder => touch
  | onMoveShouldSetPanResponder => scroll
  end.

(** The first gesture of a sequence of events: its handler and its time. *)
Fixpoint first_gesture (events : list Event) : option (PanHandler * JS.number) :=
  match events with
  | [] => None
  | Gesture handler now :: _ => Some (handler, now)
  | _ :: events => first_gesture events
  end.

Definition fid_of (metrics : option PerformanceMetrics) : option FirstInputDelayMetrics :=
  match metrics with
  | Some m => firstInputDelay m
  | None => None
  end.

(** [r] is a first-input record the instance holds or has handed out. *)
Definition recorded (s : State) (r : FirstInputDelayMetrics) : Prop :=
  firstInputDelayRef s = Some r \/
  fid_of (metricsRef s) = Some r \/
  fid_of (metricsState s) = Some r \/
  exists o, In o (out s) /\ fid_of (output_metrics o) = Some r.

(** A first-input record found anywhere is the one [firstInputDelayRef]
    holds. *)
Definition from_ref (s : State) (x : option FirstInputDelayMetrics) : Prop :=
  x = None \/ x = firstInputDelayRef s.

Record FidRecords (s : State) : Prop := {
  fid_metricsRef : from_ref s (fid_of (metricsRef s));
  fid_metricsState : from_ref s (fid_of (metricsState s));
  fid_out : Forall (fun o => from_ref s (fid_of (output_metrics o))) (out s)
}.

(** The bookkeeping of the first input, given the first gesture so far. *)
Definition FidBook (first : option (PanHandler * JS.number)) (s : State) : Prop :=
  match first with
  | None =>
      hasRecordedFirstInputRef s = false /\
      filter is_fid_task (microtasks s) = [] /\
      firstInputDelayRef s = None
  | Some (handler, t) =>
      hasRecordedFirstInputRef s = true /\
      ((filter is_fid_task (microtasks s) = [FidTask t (input_type_of handler)] /\
        firstInputDelayRef s = None) \/
       (filter is_fid_task (microtasks s) = [] /\
        exists r, firstInputDelayRef s = Some r /\
                  firstInputTimeMs r = t /\ inputType r = input_type_of handler))
  end.

Definition FidInv (history : list Event) (s : State) : Prop :=
  FidRecords s /\ FidBook (first_gesture history) s.

(** What the operations that do not capture an input leave alone. *)
Definition same_fid_book (s s' : State) : Prop :=
  firstInputDelayRef s' = firstInputDelayRef s /\
  hasRecordedFirstInputRef s' = hasRecordedFirstInputRef s /\
  microtasks s' = microtasks s.

Lemma first_gesture_snoc history e :
  first_gesture (history ++ [e])
    = match first_gesture history with
      | Some g => Some g
      | None => first_gesture [e]
      end.
Proof.
  induction history as [|e' history IH]; [now destruct e|].
  destruct e'; cbn; auto.
Qed.

Lemma init_fid_inv now : FidInv [] (init now).
Proof.
  split; [constructor|]; cbn; auto; now left.
Qed.

Lemma same_fid_book_inv first s s' :
  same_fid_book s s' -> FidBook first s -> FidBook first s'.
Proof.
  intros (H1 & H2 & H3). unfold FidBook. now rewrite H1, H2, H3.
Qed.

Lemma from_ref_same s s' x :
  firstInputDelayRef s' = firstInputDelayRef s -> from_ref s x -> from_ref s' x.
Proof. unfold from_ref. now intros ->. Qed.

Lemma from_ref_or_object s x :
  from_ref s x -> from_ref s (JS.or_object (firstInputDelayRef s) x).
Proof.
  unfold from_ref. destruct (firstInputDelayRef s); cbn; [now right|].
  intros [-> | ->]; now left.
Qed.

(** Closes the goals on the records of a state written out field by field,
    whose [firstInputDelayRef] is that of [s]. *)
Ltac records F1 F3 :=
  constructor; fields; cbn [fid_of output_metrics];
  rewrite ?app_nil_r;
  repeat (apply Forall_app; split);
  try (eapply Forall_impl; [|exact F3]; cbn; intro; apply from_ref_same; reflexivity);
  repeat (apply Forall_cons || apply Forall_nil);
  cbn;
  try (eapply from_ref_same; [|apply from_ref_or_object; eassumption]; reflexivity);
  try (eapply from_ref_same; [|eassumption]; reflexivity);
  try (now left).

Lemma logFinalMetrics_fid s s' :
  logFinalMetrics s = Some s' -> FidRecords s -> FidRecords s' /\ same_fid_book s s'.
Proof.
  intros H F.
  destruct (metricsRef s) as [current|] eqn:Hm;
    [destruct (hasLoggedRef s) eqn:Hl|].
  - rewrite logFinalMetrics_guarded in H by auto. injection H as <-.
    split; [exact F | now repeat split].
  - destruct (logFinalMetrics_finalizes s current Hm Hl) as (finalScore & _ & E).
    rewrite E in H. injection H as <-.
    split; [|now repeat split].
    destruct F as [F1 F2 F3]. rewrite Hm in F1. cbn in F1.
    unfold finalized. destruct debug, (onReport options); records F1 F3.
  - rewrite logFinalMetrics_guarded in H by auto. injection H as <-.
    split; [exact F | now repeat split].
Qed.

Lemma markInteractive_fid now s s' :
  markInteractive now s = Some s' -> FidRecords s -> FidRecords s' /\ same_fid_book s s'.
Proof.
  unfold Hook.markInteractive.
  destruct (interactiveTimeMsRef s) as [t|];
    [intros [= <-] F; split; [exact F | now repeat split]|].
  cbv zeta. scored. intros [= <-] [F1 F2 F3].
  assert (F1' : from_ref s match metricsRef s with
                           | Some current => firstInputDelay current
                           | None => None
                           end) by exact F1.
  destruct debug, (onInteractive options); fields;
    destruct (hasLoggedRef s), (fidTimeoutRef s);
    (split; [records F1' F3 | now repeat split]).
Qed.

Lemma runFirstFrameTask_fid s s' :
  runFirstFrameTask s = Some s' -> FidRecords s -> FidRecords s' /\ same_fid_book s s'.
Proof.
  unfold Hook.runFirstFrameTask.
  destruct (firstFrameTimeMsRef s) as [firstFrameTime|]; [|discriminate].
  cbn [JS.bind]. cbv zeta. scored. intros [= <-] [F1 F2 F3].
  destruct debug, (onMetricsReady options);
    (split; [records F1 F3 | now repeat split]).
Qed.

(** The FID closure sets the record; nothing held a record before it ran. *)
Lemma recordFid_fid inputTime ty now s s' :
  recordFid inputTime ty now s = Some s' ->
  FidRecords s -> firstInputDelayRef s = None ->
  FidRecords s' /\
  hasRecordedFirstInputRef s' = hasRecordedFirstInputRef s /\
  microtasks s' = microtasks s /\
  exists r, firstInputDelayRef s' = Some r /\
            firstInputTimeMs r = inputTime /\ inputType r = ty.
Proof.
  intros H [F1 F2 F3] Href.
  assert (F3' : Forall (fun o => fid_of (output_metrics o) = None) (out s)).
  { eapply Forall_impl; [|exact F3]. cbn. unfold from_ref. rewrite Href.
    now intros o [E|E]. }
  assert (F2' : fid_of (metricsState s) = None).
  { destruct F2 as [E|E]; [exact E | now rewrite E]. }
  revert H. unfold recordFid. cbv zeta. fields.
  destruct (metricsRef s) as [current|] eqn:Hm.
  - scored. intros [= <-].
    destruct (onMetricsReady options); fields;
      (split; [|repeat split; eexists; repeat split; reflexivity]);
      constructor; fields; cbn [fid_of output_metrics firstInputDelay];
      rewrite ?app_nil_r; try (now right);
      repeat (apply Forall_app; split);
      try (eapply Forall_impl; [|exact F3']; cbn; intros o E; now left);
      repeat (apply Forall_cons || apply Forall_nil); cbn;
      now right.
  - intros [= <-].
    split; [|repeat split; eexists; repeat split; reflexivity].
    constructor; fields.
    + rewrite Hm. now left.
    + left. exact F2'.
    + eapply Forall_impl; [|exact F3']. cbn. intros o E. now left.
Qed.

Lemma records_same s s' :
  firstInputDelayRef s' = firstInputDelayRef s ->
  metricsRef s' = metricsRef s -> metricsState s' = metricsState s ->
  (out s' = out s \/ exists line, out s' = out s ++ [ConsoleLog line]) ->
  FidRecords s -> FidRecords s'.
Proof.
  intros H1 H2 H3 Hout [F1 F2 F3].
  constructor; rewrite ?H2, ?H3.
  - eapply from_ref_same; eassumption.
  - eapply from_ref_same; eassumption.
  - assert (F3' : Forall (fun o => from_ref s' (fid_of (output_metrics o))) (out s)).
    { eapply Forall_impl; [|exact F3]. cbn. intros o. now apply from_ref_same. }
    destruct Hout as [->|[line ->]]; [exact F3'|].
    apply Forall_app. split; [exact F3'|]. repeat constructor.
Qed.

Lemma step_fid_inv history s e s' :
  step s e = Some s' -> FidInv history s -> FidInv (history ++ [e]) s'.
Proof.
  intros Hstep [F B]. unfold FidInv. rewrite first_gesture_snoc.
  destruct e as [now|now|handler now|now|id|]; cbn [Hook.step] in Hstep.
  - (* the mount effect *)
    injection Hstep as <-.
    assert (Hq : filter is_fid_task (microtasks (mountEffect now s))
                 = filter is_fid_task (microtasks s)).
    { unfold Hook.mountEffect. destruct (firstFrameTimeMsRef s); fields;
        now rewrite filter_app, app_nil_r. }
    split.
    + apply (records_same s); [..|exact F]; unfold Hook.mountEffect;
        try (now destruct (firstFrameTimeMsRef s)).
      left. now destruct (firstFrameTimeMsRef s).
    + replace (match first_gesture history with
               | Some g => Some g
               | None => first_gesture [MountEffect now]
               end) with (first_gesture history) by now destruct (first_gesture history).
      unfold FidBook in *. rewrite Hq.
      replace (hasRecordedFirstInputRef (mountEffect now s))
        with (hasRecordedFirstInputRef s)
        by (unfold Hook.mountEffect; now destruct (firstFrameTimeMsRef s)).
      replace (firstInputDelayRef (mountEffect now s)) with (firstInputDelayRef s)
        by (unfold Hook.mountEffect; now destruct (firstFrameTimeMsRef s)).
      exact B.
  - (* markInteractive *)
    destruct (markInteractive_fid now s s' Hstep F) as [F' Hsame].
    split; [exact F'|].
    apply (same_fid_book_inv _ s); [exact Hsame|].
    now destruct (first_gesture history).
  - (* a gesture *)
    injection Hstep as <-.
    split.
    + apply (records_same s); [..|exact F];
        unfold Hook.panResponder, Hook.measureFirstInputDelay;
        try (now destruct handler, (hasRecordedFirstInputRef s)).
      left. now destruct handler, (hasRecordedFirstInputRef s).
    + unfold FidBook in *.
      destruct (first_gesture history) as [[h t]|].
      * destruct B as [Hrec B].
        unfold Hook.panResponder, Hook.measureFirstInputDelay.
        destruct handler; rewrite Hrec; cbn; auto.
      * destruct B as (Hrec & Hq & Href).
        unfold Hook.panResponder, Hook.measureFirstInputDelay.
        destruct handler; rewrite Hrec; cbn;
          rewrite filter_app, Hq; cbn; auto.
  - (* a microtask *)
    replace (match first_gesture history with
             | Some g => Some g
             | None => first_gesture [RunMicrotask now]
             end) with (first_gesture history) by now destruct (first_gesture history).
    destruct (microtasks s) as [|[|inputTime ty] rest] eqn:Hq.
    + injection Hstep as <-. now split.
    + assert (F0 : FidRecords (set_microtasks rest s))
        by (apply (records_same s); [..|exact F]; try reflexivity; now left).
      destruct (runFirstFrameTask_fid _ _ Hstep F0) as [F' (H1 & H2 & H3)].
      split; [exact F'|].
      unfold FidBook in *. rewrite H1, H2, H3. cbn.
      rewrite Hq in B. exact B.
    + cbv zeta in Hstep. rewrite runFidTask_unfold in Hstep.
      destruct (recordFid inputTime ty now (set_microtasks rest s)) as [s1|] eqn:E1;
        [|discriminate].
      cbn [JS.bind] in Hstep.
      assert (F0 : FidRecords (set_microtasks rest s))
        by (apply (records_same s); [..|exact F]; try reflexivity; now left).
      unfold FidBook in B. rewrite Hq in B. cbn in B.
      destruct (first_gesture history) as [[h t]|];
        [|destruct B as (_ & B & _); discriminate].
      destruct B as [Hrec [[Hfilter Href]|[Hfilter _]]]; [|discriminate].
      injection Hfilter as -> -> Hrest.
      destruct (recordFid_fid _ _ _ _ _ E1 F0 Href) as (F1 & R1 & Q1 & r & Hr & Ht & Hty).
      destruct (logFinalMetrics_fid _ _ Hstep F1) as [F' (H1 & H2 & H3)].
      split; [exact F'|].
      unfold FidBook. rewrite H1, H2, H3, R1, Q1. cbn.
      split; [exact Hrec|]. right. split; [exact Hrest|]. eauto.
  - (* the timer *)
    replace (match first_gesture history with
             | Some g => Some g
             | None => first_gesture [TimerFires id]
             end) with (first_gesture history) by now destruct (first_gesture history).
    destruct (is_pending id s); [|injection Hstep as <-; now split].
    unfold Hook.fidTimeoutCallback in Hstep. cbv zeta in Hstep.
    assert (F0 : FidRecords
                   (when debug (emit (ConsoleLog (LogFidTimeout logPrefix fidTimeout)))
                      (clearTimeout id s))).
    { apply (records_same s); [..|exact F]; try (now destruct debug).
      destruct debug; fields; eauto. }
    destruct (logFinalMetrics_fid _ _ Hstep F0) as [F' (H1 & H2 & H3)].
    split; [exact F'|].
    unfold FidBook in *. rewrite H1, H2, H3.
    now destruct debug.
  - (* unmount *)
    replace (match first_gesture history with
             | Some g => Some g
             | None => first_gesture [Unmount]
             end) with (first_gesture history) by now destruct (first_gesture history).
    injection Hstep as <-. split.
    + apply (records_same s); [..|exact F]; unfold Hook.unmountCleanup;
        try (now destruct (fidTimeoutRef s)).
      left. now destruct (fidTimeoutRef s).
    + unfold FidBook in *. unfold Hook.unmountCleanup.
      now destruct (fidTimeoutRef s).
Qed.

Lemma run_fid_inv events : forall history s s',
  run s events = Some s' -> FidInv history s -> FidInv (history ++ events) s'.
Proof.
  induction events as [|e events IH]; intros history s s' Hrun F; cbn [Hook.run] in Hrun.
  - injection Hrun as <-. now rewrite app_nil_r.
  - destruct (step s e) as [s1|] eqn:Hstep; [|discriminate].
    cbn [JS.bind] in Hrun.
    replace (history ++ e :: events) with ((history ++ [e]) ++ events)
      by now rewrite <- app_assoc.
    eapply IH; [exact Hrun|]. eapply step_fid_inv; eassumption.
Qed.

(** *** The first frame comes before the first input *)

(** The metrics record exists, or the closure that creates it is the next
    microtask. *)
Definition frame_captured_or_next (s : State) : Prop :=
  metricsRef s <> None \/ exists rest, microtasks s = FirstFrameTask :: rest.

Lemma logFinalMetrics_metrics s s' :
  logFinalMetrics s = Some s' ->
  (metricsRef s <> None -> metricsRef s' <> None) /\
  (metricsRef s = None -> s' = s).
Proof.
  destruct (metricsRef s) as [current|] eqn:Hm;
    [destruct (hasLoggedRef s) eqn:Hl|].
  - rewrite logFinalMetrics_guarded by auto. intros [= <-]. split; congruence.
  - destruct (logFinalMetrics_finalizes s current Hm Hl) as (finalScore & _ & ->).
    intros [= <-]. split; [discriminate | congruence].
  - rewrite logFinalMetrics_guarded by auto. intros [= <-]. split; congruence.
Qed.

Lemma step_frame s e s' :
  step s e = Some s' -> frame_captured_or_next s -> frame_captured_or_next s'.
Proof.
  unfold frame_captured_or_next.
  intros Hstep W. destruct e as [now|now|handler now|now|id|]; cbn [Hook.step] in Hstep.
  - (* the mount effect *)
    injection Hstep as <-. unfold Hook.mountEffect.
    destruct W as [Hm|[rest Hq]]; [left|right].
    + now destruct (firstFrameTimeMsRef s).
    + exists (rest ++ [FirstFrameTask]).
      destruct (firstFrameTimeMsRef s); fields; now rewrite Hq.
  - (* markInteractive *)
    unfold Hook.markInteractive in Hstep.
    destruct (interactiveTimeMsRef s) as [t|]; [now injection Hstep as <-|].
    left. revert Hstep. cbv zeta. scored. intros [= <-].
    destruct debug, (onInteractive options); fields;
      destruct (hasLoggedRef s), (fidTimeoutRef s); discriminate.
  - (* a gesture *)
    injection Hstep as <-. unfold Hook.panResponder, Hook.measureFirstInputDelay.
    destruct W as [Hm|[rest Hq]]; [left|right].
    + now destruct handler, (hasRecordedFirstInputRef s).
    + destruct handler, (hasRecordedFirstInputRef s); fields; rewrite Hq; cbn; eauto.
  - (* a microtask *)
    destruct (microtasks s) as [|[|inputTime ty] rest] eqn:Hq.
    + injection Hstep as <-. rewrite Hq. exact W.
    + left. unfold Hook.runFirstFrameTask in Hstep. fields.
      destruct (firstFrameTimeMsRef s); [|discriminate].
      cbn [JS.bind] in Hstep. cbv zeta in Hstep. revert Hstep. scored.
      intros [= <-]. destruct debug, (onMetricsReady options); discriminate.
    + destruct W as [Hm|[rest' Hq']]; [|discriminate].
      left. cbv zeta in Hstep. rewrite runFidTask_unfold in Hstep.
      destruct (recordFid inputTime ty now (set_microtasks rest s)) as [s1|] eqn:E1;
        [|discriminate].
      cbn [JS.bind] in Hstep.
      apply (logFinalMetrics_metrics _ _ Hstep).
      apply (recordFid_keeps _ _ _ _ _ E1). exact Hm.
  - (* the timer *)
    destruct (is_pending id s); [|now injection Hstep as <-].
    unfold Hook.fidTimeoutCallback in Hstep. cbv zeta in Hstep.
    destruct (logFinalMetrics_metrics _ _ Hstep) as [Hsome Hnone].
    destruct W as [Hm|[rest Hq]].
    + left. apply Hsome. now destruct debug.
    + destruct (metricsRef s) as [current|] eqn:Hm.
      * left. apply Hsome. destruct debug; fields; congruence.
      * right. exists rest. rewrite Hnone by (destruct debug; exact Hm).
        now destruct debug.
  - (* unmount *)
    injection Hstep as <-. unfold Hook.unmountCleanup.
    now destruct (fidTimeoutRef s).
Qed.

Lemma run_frame events : forall s s',
  run s events = Some s' -> frame_captured_or_next s -> frame_captured_or_next s'.
Proof.
  induction events as [|e events IH]; intros s s' Hrun W; cbn [Hook.run] in Hrun.
  - now injection Hrun as <-.
  - destruct (step s e) as [s1|] eqn:Hstep; [|discriminate].
    cbn [JS.bind] in Hrun. eapply IH; [exact Hrun|]. eapply step_frame; eassumption.
Qed.

Lemma run_app events1 : forall events2 s,
  run s (events1 ++ events2) = (s1 <- run s events1 ;; run s1 events2).
Proof.
  induction events1 as [|e events1 IH]; intros events2 s; cbn [app Hook.run JS.bind].
  - reflexivity.
  - destruct (step s e) as [s1|]; cbn [JS.bind]; [apply IH | reflexivity].
Qed.

(** Where the mount effect comes before the first gesture, the metrics
    record exists, or is about to, at every later point of the run. *)
Lemma captured_before_input mountTime before t after s :
  first_gesture before = None ->
  run (init mountTime) (before ++ MountEffect t :: after) = Some s ->
  frame_captured_or_next s.
Proof.
  intros Hbefore Hrun. rewrite run_app in Hrun.
  destruct (run (init mountTime) before) as [s0|] eqn:H0; [|discriminate].
  cbn [JS.bind Hook.run Hook.step] in Hrun.
  apply (run_frame after _ _ Hrun).
  destruct (run_fid_inv before [] _ _ H0 (init_fid_inv mountTime)) as [_ B].
  cbn [app] in B. unfold FidBook in B. rewrite Hbefore in B.
  destruct B as (_ & Hq & _).
  unfold frame_captured_or_next, Hook.mountEffect.
  destruct (microtasks s0) as [|[|inputTime ty] rest] eqn:E; [| |discriminate];
    right; destruct (firstFrameTimeMsRef s0); fields; rewrite E; cbn; eauto.
Qed.

(** C7, amended: finalization happens at most once, the first trigger
    performing it once the metrics record exists.  In every run [onReport]
    is invoked at most once; a finalized instance ignores [logFinalMetrics];
    the FID timeout firing, or the first input being captured once the
    metrics record exists, finalizes an instance that is not finalized yet:
    the guard is set, no timer stays pending, and the single report carries
    the final metrics and their score.  The metrics record does exist when
    the first input is captured in every run where the mount effect comes
    before the first gesture. *)
Theorem finalization_at_most_once :
  (forall mountTime events, exists s,
      run (init mountTime) events = Some s /\
      (calls is_report_call (out s) <= 1)%nat) /\
  (forall s, hasLoggedRef s = true -> logFinalMetrics s = Some s) /\
  (forall s id, reachable s -> is_pending id s = true ->
      exists s', step s (TimerFires id) = Some s' /\ just_finalized s') /\
  (forall s inputTime ty rest now, reachable s ->
      microtasks s = FidTask inputTime ty :: rest ->
      hasLoggedRef s = false -> metricsRef s <> None ->
      exists s', step s (RunMicrotask now) = Some s' /\ just_finalized s') /\
  (forall mountTime before t after s inputTime ty rest now,
      first_gesture before = None ->
      run (init mountTime) (before ++ MountEffect t :: after) = Some s ->
      microtasks s = FidTask inputTime ty :: rest ->
      hasLoggedRef s = false ->
      exists s', step s (RunMicrotask now) = Some s' /\ just_finalized s').
Proof.
  assert (Hinput : forall s inputTime ty rest now, reachable s ->
            microtasks s = FidTask inputTime ty :: rest ->
            hasLoggedRef s = false -> metricsRef s <> None ->
            exists s', step s (RunMicrotask now) = Some s' /\ just_finalized s').
  { intros s inputTime ty rest now Hr Hq Hl Hm.
    pose proof (reachable_inv s Hr) as I.
    cbn [Hook.step]. rewrite Hq. cbv zeta. rewrite runFidTask_unfold.
    pose proof (set_microtasks_inv rest _ s I Hq) as I0.
    destruct (recordFid_inv inputTime ty now _ I0) as (s1 & H1 & I1).
    rewrite H1. cbn [JS.bind].
    destruct (recordFid_keeps _ _ _ _ _ H1) as [Hl1 Hm1].
    apply logFinalMetrics_first; [exact I1 | now rewrite Hl1 | now apply Hm1]. }
  split; [|split; [|split; [|split]]].
  - intros mountTime events.
    destruct (run_inv events (init mountTime) (init_inv mountTime)) as (s & Hrun & I).
    exists s. split; [exact Hrun|].
    rewrite (inv_report_calls s I).
    destruct (hasLoggedRef s), (onReport options); lia.
  - intros s Hl. apply logFinalMetrics_guarded. auto.
  - intros s id Hr Hp. pose proof (reachable_inv s Hr) as I.
    destruct (pending_not_logged id s I Hp) as [Hl Hm].
    cbn [Hook.step]. rewrite Hp. unfold Hook.fidTimeoutCallback. cbv zeta.
    apply logFinalMetrics_first.
    + apply console_log_inv, timer_removed_inv, I.
    + now destruct debug.
    + now destruct debug.
  - exact Hinput.
  - intros mountTime before t after s inputTime ty rest now Hbefore Hrun Hq Hl.
    apply (Hinput s inputTime ty rest now); try assumption.
    + now exists mountTime, (before ++ MountEffect t :: after).
    + destruct (captured_before_input _ _ _ _ _ Hbefore Hrun) as [Hm|[rest' Hq']];
        [exact Hm | congruence].
Qed.

Lemma recorded_is_ref s r : FidRecords s -> recorded s r -> firstInputDelayRef s = Some r.
Proof.
  intros [F1 F2 F3] [H|[H|[H|(o & Hin & H)]]].
  - exact H.
  - destruct F1 as [E|E]; congruence.
  - destruct F2 as [E|E]; congruence.
  - rewrite Forall_forall in F3. destruct (F3 o Hin) as [E|E]; congruence.
Qed.

(** C8: at most one first-input record per lifecycle.  The responder's
    handlers always return [false]; once the guard flag is set
    [measureFirstInputDelay] changes nothing, and every call leaves it set;
    in every run all the first-input records the instance holds or has
    handed out are one record, and it is the record of the first gesture
    (its time and its kind). *)
Theorem first_input_recorded_once :
  (forall handler now s, snd (panResponder handler now s) = false) /\
  (forall ty now s, hasRecordedFirstInputRef s = true ->
      measureFirstInputDelay ty now s = (s, false)) /\
  (forall ty now s,
      hasRecordedFirstInputRef (fst (measureFirstInputDelay ty now s)) = true) /\
  (forall mountTime events, exists s,
      run (init mountTime) events = Some s /\
      (forall r1 r2, recorded s r1 -> recorded s r2 -> r1 = r2) /\
      (forall r, recorded s r ->
         exists handler t,
           first_gesture events = Some (handler, t) /\
           firstInputTimeMs r = t /\ inputType r = input_type_of handler)).
Proof.
  split; [|split; [|split]].
  - now intros [] now s.
  - intros ty now s H. unfold Hook.measureFirstInputDelay. now rewrite H.
  - intros ty now s. unfold Hook.measureFirstInputDelay.
    now destruct (hasRecordedFirstInputRef s) eqn:H.
  - intros mountTime events.
    destruct (run_inv events (init mountTime) (init_inv mountTime)) as (s & Hrun & _).
    exists s. split; [exact Hrun|].
    destruct (run_fid_inv events [] _ _ Hrun (init_fid_inv mountTime)) as [F B].
    cbn [app] in B. split.
    + intros r1 r2 H1 H2.
      apply (recorded_is_ref s r1 F) in H1. apply (recorded_is_ref s r2 F) in H2.
      congruence.
    + intros r Hr. apply (recorded_is_ref s r F) in Hr.
      unfold FidBook in B. destruct (first_gesture events) as [[handler t]|].
      * destruct B as [_ [[_ E]|(_ & r' & E & Ht & Hty)]]; [congruence|].
        exists handler, t. rewrite Hr in E. injection E as <-. auto.
      * destruct B as (_ & _ & E). congruence.
Qed.

(** *** markInteractive before the first frame is captured *)

(** C10: when [markInteractive] runs while the metrics record is still
    empty, the metrics it stores and passes to [onInteractive] have 0 for
    both [timeToFirstFrameMs] and [firstFrameTimeMs], and the score computed
    from them has a TTFF sub-score of 100. *)
Theorem markInteractive_before_first_frame s now :
  reachable s -> metricsRef s = None ->
  exists s' updatedMetrics updatedScore,
    markInteractive now s = Some s' /\
    metricsRef s' = Some updatedMetrics /\
    metricsState s' = Some updatedMetrics /\
    timeToFirstFrameMs updatedMetrics = 0 /\
    firstFrameTimeMs updatedMetrics = 0 /\
    timeToInteractiveMs updatedMetrics = Some (now - mountStartTimeMsRef s) /\
    Scoring.calculatePerformanceScore updatedMetrics None None = Some updatedScore /\
    scoreState s' = Some updatedScore /\
    b_ttff (breakdown updatedScore) = 100 /\
    filter is_interactive_call (out s')
      = if onInteractive options then [CallOnInteractive updatedMetrics] else [].
Proof.
  intros Hr Hm. pose proof (reachable_inv s Hr) as I.
  assert (Hi : interactiveTimeMsRef s = None).
  { destruct (interactiveTimeMsRef s) eqn:E; [|reflexivity].
    exfalso. apply (inv_interactive_metrics s I); [congruence | exact Hm]. }
  assert (Hcalls : filter is_interactive_call (out s) = []).
  { pose proof (inv_interactive_calls s I) as H. rewrite Hi in H.
    unfold calls in H. now apply length_zero_iff_nil. }
  unfold Hook.markInteractive. rewrite Hi. cbv zeta. fields.
  rewrite Hm. cbn [option_map or_zero].
  scored.
  destruct (ScoringFacts.performance_score_inv _ _ _ _ Hsc) as (Httff & _).
  cbn [timeToFirstFrameMs JS.nullish t_ttff Scoring.DEFAULT_THRESHOLDS] in Httff.
  rewrite ScoringFacts.score_at_or_below_good in Httff by (cbn; discriminate).
  injection Httff as Httff.
  eexists _, _, sc. split; [reflexivity|].
  destruct debug, (onInteractive options); fields;
    destruct (hasLoggedRef s), (fidTimeoutRef s); fields;
    rewrite ?filter_app, ?Hcalls; cbn [filter is_interactive_call app];
    repeat split; auto.
Qed.

End Instance.

(** *** Sample runs *)

Definition sample_options : Options := {|
  componentName := "TestComponent";
  namespace := None;
  fidTimeout_opt := Some 1000;
  debug_opt := Some true;
  onMetricsReady := true;
  onInteractive := true;
  onReport := true
|}.

(** Mounted at 1000, first frame at 1100, interactive at 1200. *)
Definition until_interactive : list Event :=
  [MountEffect 1100; RunMicrotask 1100; MarkInteractive 1200].

(** The state after some events on an instance mounted at 1000. *)
Definition state_after (events : list Event) : State :=
  match run false sample_options (init 1000) events with
  | Some s => s
  | None => init 1000
  end.

Definition interactive_state : State := Eval vm_compute in state_after until_interactive.

Definition marked_early_state : State :=
  Eval vm_compute in state_after [MarkInteractive 1200].

Lemma interactive_state_reachable : reachable false sample_options interactive_state.
Proof. exists 1000, until_interactive. vm_compute. reflexivity. Qed.

Lemma markInteractive_idempotent_witness :
  markInteractive false sample_options 1300 interactive_state = Some interactive_state /\
  forall now',
    markInteractive false sample_options now' marked_early_state = Some marked_early_state.
Proof.
  destruct (markInteractive_idempotent false sample_options) as (Hnoop & Hafter & _).
  split.
  - apply Hnoop. cbn. discriminate.
  - destruct (Hafter (init 1000) 1200) as (s & Hs & _ & Hlater).
    vm_compute in Hs. injection Hs as Hs. subst s.
    destruct (Hlater [] _ eq_refl) as [_ H]. exact H.
Defined.

(** A touch at 1300, after the instance became interactive. *)
Definition until_gesture : list Event :=
  until_interactive ++ [Gesture onStartShouldSetPanResponder 1300].

Definition gesture_state : State := Eval vm_compute in state_after until_gesture.

Definition timed_out_state : State :=
  Eval vm_compute in state_after (until_interactive ++ [TimerFires 1%positive]).

(** Mounted, first frame captured, touched at 1300; never marked
    interactive. *)
Definition input_only_state : State :=
  Eval vm_compute in
    state_after [MountEffect 1100; RunMicrotask 1100;
                 Gesture onStartShouldSetPanResponder 1300].

Lemma gesture_state_reachable : reachable false sample_options gesture_state.
Proof. exists 1000, until_gesture. vm_compute. reflexivity. Qed.

Lemma finalization_at_most_once_witness :
  logFinalMetrics false sample_options timed_out_state = Some timed_out_state /\
  (exists s', step false sample_options interactive_state (TimerFires 1%positive) = Some s' /\
              just_finalized sample_options s') /\
  (exists s', step false sample_options gesture_state (RunMicrotask 1310) = Some s' /\
              just_finalized sample_options s') /\
  (exists s', step false sample_options input_only_state (RunMicrotask 1310) = Some s' /\
              just_finalized sample_options s').
Proof.
  destruct (finalization_at_most_once false sample_options)
    as (_ & Hguard & Htimer & Hinput & Hscheduled).
  split; [|split; [|split]].
  - apply Hguard. reflexivity.
  - apply Htimer; [exact interactive_state_reachable | reflexivity].
  - apply (Hinput gesture_state 1300 touch []);
      [exact gesture_state_reachable | reflexivity | reflexivity | cbn; discriminate].
  - apply (Hscheduled 1000 [] 1100
             [RunMicrotask 1100; Gesture onStartShouldSetPanResponder 1300]
             input_only_state 1300 touch []); reflexivity.
Defined.

(** A touch at 1050 processed at 1060, before the mount effect has run:
    the metrics record is still empty. *)
Definition early_touch : list Event :=
  [Gesture onStartShouldSetPanResponder 1050; RunMicrotask 1060].

Definition early_touch_state : State := Eval vm_compute in state_after early_touch.

Definition early_touch_record : FirstInputDelayMetrics := {|
  firstInputDelayMs := 10;
  firstInputTimeMs := 1050;
  inputProcessingStartTimeMs := 1060;
  inputType := touch
|}.

(** C7 as stated fails: here the capture of the first input is the trigger
    that fires first (no timer was ever armed), the record is stored, and
    yet the guard of [logFinalMetrics] returns early on the empty metrics
    record: the instance is not finalized and [onReport] is not invoked,
    neither then nor in the rest of a lifecycle in which [markInteractive]
    is never called. *)
Lemma first_input_without_metrics :
  run false sample_options (init 1000) early_touch = Some early_touch_state /\
  firstInputDelayRef early_touch_state = Some early_touch_record /\
  microtasks early_touch_state = [] /\
  timers early_touch_state = [] /\
  metricsRef early_touch_state = None /\
  hasLoggedRef early_touch_state = false /\
  calls is_report_call (out early_touch_state) = 0%nat /\
  ~ just_finalized sample_options early_touch_state /\
  exists s,
    run false sample_options early_touch_state
      [MountEffect 1100; RunMicrotask 1100; Unmount] = Some s /\
    hasLoggedRef s = false /\
    calls is_report_call (out s) = 0%nat.
Proof.
  repeat (split; [vm_compute; reflexivity|]).
  split.
  - intros [H _]. vm_compute in H. discriminate.
  - eexists. split; [vm_compute; reflexivity|]. split; reflexivity.
Qed.

(** A touch at 1300 processed at 1310, then a scroll at 1400. *)
Definition two_gestures : list Event :=
  [MountEffect 1100; RunMicrotask 1100;
   Gesture onStartShouldSetPanResponder 1300; RunMicrotask 1310;
   Gesture onMoveShouldSetPanResponder 1400; RunMicrotask 1410].

Definition first_touch : FirstInputDelayMetrics := {|
  firstInputDelayMs := 10;
  firstInputTimeMs := 1300;
  inputProcessingStartTimeMs := 1310;
  inputType := touch
|}.

Lemma first_input_recorded_once_witness :
  measureFirstInputDelay scroll 1400 gesture_state = (gesture_state, false) /\
  exists handler t,
    first_gesture two_gestures = Some (handler, t) /\
    firstInputTimeMs first_touch = t /\
    inputType first_touch = input_type_of handler.
Proof.
  destruct (first_input_recorded_once false sample_options)
    as (_ & Hguard & _ & Hrun).
  split.
  - apply Hguard. reflexivity.
  - destruct (Hrun 1000 two_gestures) as (s & Hs & _ & Hfirst).
    apply Hfirst. left.
    vm_compute in Hs. injection Hs as Hs. subst s. reflexivity.
Defined.

Lemma markInteractive_before_first_frame_witness :
  exists s' updatedMetrics updatedScore,
    markInteractive false sample_options 1200 (init 1000) = Some s' /\
    metricsRef s' = Some updatedMetrics /\
    metricsState s' = Some updatedMetrics /\
    timeToFirstFrameMs updatedMetrics = 0 /\
    firstFrameTimeMs updatedMetrics = 0 /\
    timeToInteractiveMs updatedMetrics = Some (1200 - mountStartTimeMsRef (init 1000)) /\
    Scoring.calculatePerformanceScore updatedMetrics None None = Some updatedScore /\
    scoreState s' = Some updatedScore /\
    b_ttff (breakdown updatedScore) = 100 /\
    filter is_interactive_call (out s')
      = if onInteractive sample_options then [CallOnInteractive updatedMetrics] else [].
Proof.
  apply (markInteractive_before_first_frame false sample_options (init 1000) 1200).
  - exists 1000, []. reflexivity.
  - reflexivity.
Defined.

End HookFacts.

(** ** More on the scoring engine *)

Module ScoringExtra.
Import Scoring ScoringFacts.






(** Weights that make [overall] a score: none negative, summing to at most 1. *)
Definition convex (weights : MetricWeights) : Prop :=
  0 <= w_ttff weights /\ 0 <= w_tti weights /\ 0 <= w_fid weights /\
  w_ttff weights + w_tti weights + w_fid weights <= 1.

Lemma default_weights_convex : convex DEFAULT_WEIGHTS.
Proof. repeat split; cbn; discriminate. Qed.

Lemma weighted_sum_range a b c weights :
  0 <= a <= 100 -> 0 <= b <= 100 -> 0 <= c <= 100 -> convex weights ->
  0 <= a * w_ttff weights + b * w_tti weights + c * w_fid weights <= 100.
Proof.
  intros [Ha0 Ha1] [Hb0 Hb1] [Hc0 Hc1] (H1 & H2 & H3 & Hsum).
  pose proof (Qmult_le_0_compat _ _ Ha0 H1).
  pose proof (Qmult_le_0_compat _ _ Hb0 H2).
  pose proof (Qmult_le_0_compat _ _ Hc0 H3).
  pose proof (Qmult_le_compat_r _ _ _ Ha1 H1).
  pose proof (Qmult_le_compat_r _ _ _ Hb1 H2).
  pose proof (Qmult_le_compat_r _ _ _ Hc1 H3).
  split; lra.
Qed.

(** The categories from worst to best. *)
Definition rank (c : Category) : nat :=
  match c with
  | poor_category => 0
  | needs_improvement => 1
  | good_category => 2
  | excellent => 3
  end.


(** X4: a higher score never gets a worse category. *)
Theorem getScoreCategory_monotone s1 s2 :
  s1 <= s2 -> (rank (getScoreCategory s1) <= rank (getScoreCategory s2))%nat.
Proof.
  intro H. unfold getScoreCategory.
  destruct (JS.ge s1 90) eqn:A1, (JS.ge s1 75) eqn:B1, (JS.ge s1 50) eqn:C1,
    (JS.ge s2 90) eqn:A2, (JS.ge s2 75) eqn:B2, (JS.ge s2 50) eqn:C2;
    cbn [rank]; try lia;
    repeat match goal with
      | E : JS.ge _ _ = true |- _ => apply ge_true_iff in E
      | E : JS.ge _ _ = false |- _ => apply ge_false_iff in E
      end; lra.
Qed.

Lemma getScoreCategory_monotone_witness :
  (rank (getScoreCategory 74%Q) <= rank (getScoreCategory 75%Q))%nat.
Proof. apply getScoreCategory_monotone. cbn. discriminate. Defined.






End ScoringExtra.

(** ** More on the lifecycle hook *)

Module HookExtra.
Import Hook HookFacts.

(** What a callback may be handed by an instance mounted at [mountTime]:
    metrics stamped with that mount time and, for a report, the score of
    the reported metrics. *)
Definition well_formed_output (mountTime : JS.number) (o : Output) : Prop :=
  match o with
  | ConsoleLog _ => True
  | CallOnMetricsReady m | CallOnInteractive m => mountStartTimeMs m = mountTime
  | CallOnReport m score =>
      mountStartTimeMs m = mountTime /\
      Scoring.calculatePerformanceScore m None None = Some score
  end.

(** The record the closure of the first input builds. *)
Definition fid_record (inputTime : JS.number) (ty : InputType) (now : JS.number)
  : FirstInputDelayMetrics := {|
  firstInputDelayMs := now - inputTime;
  firstInputTimeMs := inputTime;
  inputProcessingStartTimeMs := now;
  inputType := ty
|}.

(** [{ ...current, firstInputDelay: r }]. *)
Definition with_first_input (current : PerformanceMetrics) (r : FirstInputDelayMetrics)
  : PerformanceMetrics := {|
  timeToFirstFrameMs := timeToFirstFrameMs current;
  timeToInteractiveMs := timeToInteractiveMs current;
  firstInputDelay := Some r;
  mountStartTimeMs := mountStartTimeMs current;
  firstFrameTimeMs := firstFrameTimeMs current;
  interactiveTimeMs := interactiveTimeMs current
|}.

(** The TTI fields of the metrics [m] agree with the timestamp
    [markInteractive] left in [s]: absent if there is none; [t - mount] and
    [t] when [t] is truthy; no [interactiveTimeMs] when [t] is 0. *)
Definition reconciled_tti (s : State) (m : PerformanceMetrics) : Prop :=
  match interactiveTimeMsRef s with
  | None => timeToInteractiveMs m = None /\ interactiveTimeMs m = None
  | Some t =>
      (JS.truthy t = true ->
       timeToInteractiveMs m = Some (t - mountStartTimeMsRef s) /\
       interactiveTimeMs m = Some t) /\
      (JS.truthy t = false -> interactiveTimeMs m = None)
  end.

(** The delay of a first-input record is the time between the input and
    the start of its processing. *)
Definition well_formed_fid (r : FirstInputDelayMetrics) : Prop :=
  firstInputDelayMs r = inputProcessingStartTimeMs r - firstInputTimeMs r.

Section Instance.

Variable isDev : bool.
Variable options : Options.

Abbreviation logFinalMetrics := (logFinalMetrics isDev options).
Abbreviation runFidTask := (runFidTask isDev options).
Abbreviation runFirstFrameTask := (runFirstFrameTask isDev options).
Abbreviation markInteractive := (markInteractive isDev options).
Abbreviation fidTimeoutCallback := (fidTimeoutCallback isDev options).
Abbreviation step := (step isDev options).
Abbreviation run := (run isDev options).
Abbreviation debug := (debug isDev options).
Abbreviation logPrefix := (logPrefix options).
Abbreviation fidTimeout := (fidTimeout options).
Abbreviation recordFid := (recordFid options).
Abbreviation reachable := (reachable isDev options).
Abbreviation finalized := (finalized isDev options).

Ltac fields :=
  cbn [mountStartTimeMsRef firstFrameTimeMsRef interactiveTimeMsRef metricsRef
       hasLoggedRef metricsState scoreState firstInputDelayRef
       hasRecordedFirstInputRef fidTimeoutRef microtasks timers nextTimerId out
       set_firstFrameTimeMsRef set_interactiveTimeMsRef set_metricsRef
       set_hasLoggedRef setMetrics setScore set_firstInputDelayRef
       set_hasRecordedFirstInputRef set_fidTimeoutRef set_microtasks set_timers
       emit queueMicrotask setTimeout clearTimeout when fst snd negb HookFacts.finalized]
    in *.

Ltac scored :=
  match goal with
  | |- context [Scoring.calculatePerformanceScore ?m None None] =>
      let sc := fresh "sc" in
      let Hsc := fresh "Hsc" in
      destruct (ScoringFacts.performance_score_total m None None) as [sc Hsc];
      rewrite Hsc; cbn [JS.bind]
  end.

(** What holds of every state of an instance mounted at [mountTime]. *)
Record Inv2 (mountTime : JS.number) (s : State) : Prop := {
  inv_mount : mountStartTimeMsRef s = mountTime;
  (** the [metrics] cell mirrors the ref *)
  inv_sync_metrics : metricsState s = metricsRef s;
  (** the [score] cell holds the score of the current metrics *)
  inv_sync_score :
    scoreState s
      = match metricsRef s with
        | Some m => Scoring.calculatePerformanceScore m None None
        | None => None
        end;
  inv_metrics_mount :
    forall m, metricsRef s = Some m -> mountStartTimeMs m = mountTime;
  (** the TTI fields of the current metrics are absent or those of the call
      of [markInteractive] *)
  inv_tti :
    forall m, metricsRef s = Some m ->
      match interactiveTimeMsRef s with
      | None => timeToInteractiveMs m = None /\ interactiveTimeMs m = None
      | Some t =>
          (timeToInteractiveMs m = None \/ timeToInteractiveMs m = Some (t - mountTime)) /\
          (interactiveTimeMs m = None \/ interactiveTimeMs m = Some t)
      end;
  (** no timer was created yet, or one was, by [markInteractive], with the
      FID timeout as its delay *)
  inv_timer_ids :
    (nextTimerId s = 1%positive /\ timers s = [] /\ fidTimeoutRef s = None) \/
    (nextTimerId s = 2%positive /\ interactiveTimeMsRef s <> None /\
     (timers s = [] \/ timers s = [(1%positive, fidTimeout)]));
  inv_fid_wf : forall r, firstInputDelayRef s = Some r -> well_formed_fid r;
  inv_outputs : Forall (well_formed_output mountTime) (out s)
}.

Lemma init_inv2 mountTime : Inv2 mountTime (init mountTime).
Proof.
  constructor; cbn; auto; try discriminate.
Qed.

Lemma or_number_cases (a b : option JS.number) :
  JS.or_number a b = a \/ JS.or_number a b = b.
Proof.
  unfold JS.or_number. destruct a as [v|]; [|now right].
  destruct (JS.truthy v); auto.
Qed.

(** The TTI fields [logFinalMetrics] reports are absent or those of the call
    of [markInteractive]. *)
Lemma finalMetricsOf_tti mountTime current s :
  Inv2 mountTime s -> metricsRef s = Some current ->
  match interactiveTimeMsRef s with
  | None =>
      timeToInteractiveMs (finalMetricsOf current s) = None /\
      interactiveTimeMs (finalMetricsOf current s) = None
  | Some t =>
      (timeToInteractiveMs (finalMetricsOf current s) = None \/
       timeToInteractiveMs (finalMetricsOf current s) = Some (t - mountTime)) /\
      (interactiveTimeMs (finalMetricsOf current s) = None \/
       interactiveTimeMs (finalMetricsOf current s) = Some t)
  end.
Proof.
  intros I Hm. pose proof (inv_tti _ _ I current Hm) as H.
  pose proof (inv_mount _ _ I) as Hmount.
  unfold finalMetricsOf. cbn [timeToInteractiveMs interactiveTimeMs].
  rewrite Hmount.
  destruct (interactiveTimeMsRef s) as [t|].
  - destruct H as [Htti Hit]. split.
    + destruct (or_number_cases (timeToInteractiveMs current)
                  (if JS.truthy t then Some (t - mountTime) else None)) as [-> | ->].
      * exact Htti.
      * destruct (JS.truthy t); auto.
    + destruct (or_number_cases
                  (JS.or_number (interactiveTimeMs current) (Some t)) None) as [-> | ->];
        [|now left].
      destruct (or_number_cases (interactiveTimeMs current) (Some t)) as [-> | ->];
        [exact Hit | now right].
  - destruct H as [-> ->]. cbn. auto.
Qed.

Lemma logFinalMetrics_inv2 mountTime s s' :
  logFinalMetrics s = Some s' -> Inv2 mountTime s -> Inv2 mountTime s'.
Proof.
  intros H I.
  destruct (metricsRef s) as [current|] eqn:Hm;
    [destruct (hasLoggedRef s) eqn:Hl|].
  - rewrite logFinalMetrics_guarded in H by auto. now injection H as <-.
  - destruct (logFinalMetrics_finalizes isDev options s current Hm Hl)
      as (finalScore & Hs & E).
    rewrite E in H. injection H as <-.
    pose proof (finalMetricsOf_tti mountTime current s I Hm) as Htti.
    destruct I as [I1 I2 I3 I4 I5 I6 I7 I8].
    constructor; fields; auto.
    + intros m [= <-]. cbn. now apply I4.
    + intros m [= <-]. exact Htti.
    + destruct I6 as [(Hn & Ht & Hr)|(Hn & Hi & Ht)].
      * left. rewrite Hr. auto.
      * right. repeat split; auto.
        destruct (fidTimeoutRef s) as [id|]; [|exact Ht].
        destruct Ht as [-> | ->]; [now left|].
        cbn. destruct (Pos.eqb 1 id); cbn; auto.
    + repeat (apply Forall_app; split); [exact I8 | |].
      * destruct debug; repeat constructor.
      * destruct (onReport options); repeat constructor; cbn; auto.
  - rewrite logFinalMetrics_guarded in H by auto. now injection H as <-.
Qed.

Lemma console_log_inv2 mountTime c line s :
  Inv2 mountTime s -> Inv2 mountTime (when c (emit (ConsoleLog line)) s).
Proof.
  intros I. destruct c; [|exact I]. destruct I as [I1 I2 I3 I4 I5 I6 I7 I8].
  constructor; fields; auto.
  apply Forall_app. split; [exact I8 | repeat constructor].
Qed.

Lemma set_microtasks_inv2 mountTime rest s :
  Inv2 mountTime s -> Inv2 mountTime (set_microtasks rest s).
Proof. intros [I1 I2 I3 I4 I5 I6 I7 I8]. constructor; fields; auto. Qed.

Lemma mountEffect_inv2 mountTime now s :
  Inv2 mountTime s -> Inv2 mountTime (mountEffect now s).
Proof.
  intros [I1 I2 I3 I4 I5 I6 I7 I8]. unfold Hook.mountEffect.
  destruct (firstFrameTimeMsRef s); constructor; fields; auto.
Qed.

Lemma panResponder_inv2 mountTime handler now s :
  Inv2 mountTime s -> Inv2 mountTime (fst (panResponder handler now s)).
Proof.
  intros [I1 I2 I3 I4 I5 I6 I7 I8].
  unfold Hook.panResponder, Hook.measureFirstInputDelay.
  destruct handler, (hasRecordedFirstInputRef s); constructor; fields; auto.
Qed.

Lemma clearTimeout_inv2 mountTime id s :
  Inv2 mountTime s -> Inv2 mountTime (clearTimeout id s).
Proof.
  intros [I1 I2 I3 I4 I5 I6 I7 I8]. constructor; fields; auto.
  destruct I6 as [(Hn & Ht & Hr)|(Hn & Hi & Ht)].
  - left. rewrite Ht. auto.
  - right. repeat split; auto.
    destruct Ht as [-> | ->]; [now left|].
    cbn. destruct (Pos.eqb 1 id); cbn; auto.
Qed.

Lemma unmountCleanup_inv2 mountTime s :
  Inv2 mountTime s -> Inv2 mountTime (unmountCleanup s).
Proof.
  intro I. unfold Hook.unmountCleanup.
  destruct (fidTimeoutRef s); [apply clearTimeout_inv2, I | exact I].
Qed.

Lemma runFirstFrameTask_inv2 mountTime s s' :
  runFirstFrameTask s = Some s' -> Inv2 mountTime s -> Inv2 mountTime s'.
Proof.
  unfold Hook.runFirstFrameTask.
  destruct (firstFrameTimeMsRef s) as [firstFrameTime|]; [|discriminate].
  cbn [JS.bind]. cbv zeta. scored. intros [= <-] [I1 I2 I3 I4 I5 I6 I7 I8].
  destruct debug, (onMetricsReady options);
    constructor; fields; auto;
    try (intros m [= <-]; cbn; destruct (interactiveTimeMsRef s); now auto);
    repeat (apply Forall_app; split); auto; repeat constructor; cbn; auto.
Qed.

Lemma recordFid_inv2 mountTime inputTime ty now s s' :
  recordFid inputTime ty now s = Some s' -> Inv2 mountTime s -> Inv2 mountTime s'.
Proof.
  unfold HookFacts.recordFid. cbv zeta. fields.
  intros H [I1 I2 I3 I4 I5 I6 I7 I8]. revert H.
  destruct (metricsRef s) as [current|] eqn:Hm.
  - scored. intros [= <-].
    pose proof (I4 current eq_refl) as Hmount.
    pose proof (I5 current eq_refl) as Htti.
    destruct (onMetricsReady options);
      constructor; fields; auto;
      try (intros m [= <-]; cbn; auto);
      try (intros r [= <-]; reflexivity);
      repeat (apply Forall_app; split); auto; repeat constructor; cbn; auto.
  - intros [= <-]. constructor; fields; rewrite ?Hm; auto.
    intros r [= <-]. reflexivity.
Qed.

Lemma markInteractive_inv2 mountTime now s s' :
  markInteractive now s = Some s' -> Inv2 mountTime s -> Inv2 mountTime s'.
Proof.
  unfold Hook.markInteractive.
  destruct (interactiveTimeMsRef s) as [t|] eqn:Hi; [now intros [= <-]|].
  cbv zeta. scored. intros [= <-] [I1 I2 I3 I4 I5 I6 I7 I8].
  destruct I6 as [(Hn & Ht & Hr)|(_ & Hcontra & _)]; [|congruence].
  destruct debug, (onInteractive options); fields; rewrite Hr;
    destruct (hasLoggedRef s); fields;
    constructor; fields; rewrite ?Hn, ?Ht, ?Hr; auto;
    try (intros m [= <-]; cbn; rewrite ?I1; now auto);
    try (right; repeat split; [discriminate | now right]);
    repeat (apply Forall_app; split); auto; repeat constructor; cbn; auto.
Qed.

Lemma step_inv2 mountTime s e s' :
  step s e = Some s' -> Inv2 mountTime s -> Inv2 mountTime s'.
Proof.
  intros Hstep I. destruct e as [now|now|handler now|now|id|]; cbn [Hook.step] in Hstep.
  - injection Hstep as <-. apply mountEffect_inv2, I.
  - eapply markInteractive_inv2; eassumption.
  - injection Hstep as <-. apply panResponder_inv2, I.
  - destruct (microtasks s) as [|[|inputTime ty] rest]; [now injection Hstep as <-| |].
    + eapply runFirstFrameTask_inv2; [exact Hstep|]. apply set_microtasks_inv2, I.
    + cbv zeta in Hstep. rewrite runFidTask_unfold in Hstep.
      destruct (recordFid inputTime ty now (set_microtasks rest s)) as [s1|] eqn:E1;
        [|discriminate].
      cbn [JS.bind] in Hstep.
      eapply logFinalMetrics_inv2; [exact Hstep|].
      eapply recordFid_inv2; [exact E1|]. apply set_microtasks_inv2, I.
  - destruct (is_pending id s); [|now injection Hstep as <-].
    unfold Hook.fidTimeoutCallback in Hstep. cbv zeta in Hstep.
    eapply logFinalMetrics_inv2; [exact Hstep|].
    apply console_log_inv2, clearTimeout_inv2, I.
  - injection Hstep as <-. apply unmountCleanup_inv2, I.
Qed.

Lemma run_inv2 mountTime events : forall s s',
  run s events = Some s' -> Inv2 mountTime s -> Inv2 mountTime s'.
Proof.
  induction events as [|e events IH]; intros s s' Hrun I; cbn [Hook.run] in Hrun.
  - now injection Hrun as <-.
  - destruct (step s e) as [s1|] eqn:Hstep; [|discriminate].
    cbn [JS.bind] in Hrun. eapply IH; [exact Hrun|]. eapply step_inv2; eassumption.
Qed.

Lemma reachable_inv2 s : reachable s -> exists mountTime, Inv2 mountTime s.
Proof.
  intros (mountTime & events & Hrun). exists mountTime.
  eapply run_inv2; [exact Hrun | apply init_inv2].
Qed.

(** X9: in every run the [metrics] cell mirrors [metricsRef], and the [score]
    cell holds the score of those metrics under the default thresholds and
    weights: absent while there are no metrics, recomputed at each change. *)
Theorem score_in_sync mountTime events :
  exists s,
    run (init mountTime) events = Some s /\
    metricsState s = metricsRef s /\
    scoreState s
      = match metricsRef s with
        | Some m => Scoring.calculatePerformanceScore m None None
        | None => None
        end.
Proof.
  destruct (run_inv isDev options events (init mountTime) (init_inv options mountTime))
    as (s & Hrun & _).
  exists s. split; [exact Hrun|].
  pose proof (run_inv2 mountTime events _ _ Hrun (init_inv2 mountTime)) as I.
  split; [apply (inv_sync_metrics _ _ I) | apply (inv_sync_score _ _ I)].
Qed.

(** X10: in every run, whatever metrics a callback is handed carry the mount
    time of the instance, and a report carries the score of the metrics it
    reports. *)
Theorem outputs_well_formed mountTime events :
  exists s,
    run (init mountTime) events = Some s /\
    Forall (well_formed_output mountTime) (out s).
Proof.
  destruct (run_inv isDev options events (init mountTime) (init_inv options mountTime))
    as (s & Hrun & _).
  exists s. split; [exact Hrun|].
  apply (inv_outputs _ _ (run_inv2 mountTime events _ _ Hrun (init_inv2 mountTime))).
Qed.

(** X11: [setTimeout] is called at most once in a lifecycle: a timer exists only
    once [markInteractive] was called, it is the first the instance creates,
    and its delay is the FID timeout. *)
Theorem timer_created_once mountTime events :
  exists s,
    run (init mountTime) events = Some s /\
    ((nextTimerId s = 1%positive /\ timers s = [] /\ fidTimeoutRef s = None) \/
     (nextTimerId s = 2%positive /\ interactiveTimeMsRef s <> None /\
      (timers s = [] \/ timers s = [(1%positive, fidTimeout)]))).
Proof.
  destruct (run_inv isDev options events (init mountTime) (init_inv options mountTime))
    as (s & Hrun & _).
  exists s. split; [exact Hrun|].
  apply (inv_timer_ids _ _ (run_inv2 mountTime events _ _ Hrun (init_inv2 mountTime))).
Qed.

(** X12: in every run, the delay of a first-input record the instance holds or
    has handed out is the time from the input to the start of its
    processing. *)
Theorem first_input_delay_measured mountTime events :
  exists s,
    run (init mountTime) events = Some s /\
    forall r, recorded s r ->
      firstInputDelayMs r = inputProcessingStartTimeMs r - firstInputTimeMs r.
Proof.
  destruct (run_inv isDev options events (init mountTime) (init_inv options mountTime))
    as (s & Hrun & _).
  exists s. split; [exact Hrun|].
  intros r Hr.
  destruct (run_fid_inv isDev options events [] _ _ Hrun (init_fid_inv mountTime))
    as [F _].
  apply (recorded_is_ref s r F) in Hr.
  apply (inv_fid_wf _ _ (run_inv2 mountTime events _ _ Hrun (init_inv2 mountTime)) r Hr).
Qed.

Lemma reachable_fid_records s : reachable s -> FidRecords s.
Proof.
  intros (mountTime & events & Hrun).
  now destruct (run_fid_inv isDev options events [] _ _ Hrun (init_fid_inv mountTime)).
Qed.

Lemma finalMetricsOf_reconciled mountTime s current :
  Inv2 mountTime s -> metricsRef s = Some current ->
  reconciled_tti s (finalMetricsOf current s).
Proof.
  intros I2 Hm. unfold reconciled_tti.
  pose proof (inv_tti _ _ I2 current Hm) as Htti.
  pose proof (inv_mount _ _ I2) as Hmount.
  cbn [finalMetricsOf timeToInteractiveMs interactiveTimeMs].
  destruct (interactiveTimeMsRef s) as [t|].
  - destruct Htti as [Htti Hit]. rewrite Hmount. split.
    + intro Ht. rewrite Ht. split.
      * destruct Htti as [-> | ->]; [reflexivity|]. cbn [JS.or_number].
        now destruct (JS.truthy (t - mountTime)).
      * destruct Hit as [-> | ->]; cbn [JS.or_number]; rewrite ?Ht;
          cbn [JS.or_number]; now rewrite ?Ht.
    + intro Ht. destruct Hit as [-> | ->]; cbn [JS.or_number]; rewrite ?Ht;
        cbn [JS.or_number]; now rewrite ?Ht.
  - destruct Htti as [-> ->]. cbn. auto.
Qed.

(** The one place a report is made: [logFinalMetrics] on a state that holds
    metrics and is not finalized yet, be it between two events or in the
    middle of one. *)
Lemma logFinalMetrics_report mountTime s current :
  Inv options s -> Inv2 mountTime s ->
  metricsRef s = Some current -> hasLoggedRef s = false ->
  exists s' finalScore,
    logFinalMetrics s = Some s' /\
    metricsRef s' = Some (finalMetricsOf current s) /\
    filter is_report_call (out s')
      = (if onReport options
         then [CallOnReport (finalMetricsOf current s) finalScore] else []) /\
    reconciled_tti s (finalMetricsOf current s).
Proof.
  intros I I2 Hm Hl.
  destruct (logFinalMetrics_finalizes isDev options s current Hm Hl)
    as (finalScore & _ & E).
  exists (finalized current finalScore s), finalScore.
  split; [exact E|]. split; [reflexivity|]. split.
  - fields. rewrite !filter_app, (no_report_yet options s I Hl).
    now destruct debug, (onReport options).
  - eapply finalMetricsOf_reconciled; eassumption.
Qed.

Lemma recordFid_fields inputTime ty now s s' current :
  recordFid inputTime ty now s = Some s' -> metricsRef s = Some current ->
  metricsRef s' = Some (with_first_input current (fid_record inputTime ty now)) /\
  firstInputDelayRef s' = Some (fid_record inputTime ty now) /\
  hasLoggedRef s' = hasLoggedRef s /\
  interactiveTimeMsRef s' = interactiveTimeMsRef s /\
  mountStartTimeMsRef s' = mountStartTimeMsRef s.
Proof.
  unfold HookFacts.recordFid. cbv zeta. fields. intros H Hm. revert H.
  rewrite Hm. scored. intros [= <-].
  destruct (onMetricsReady options); fields; repeat split; reflexivity.
Qed.

(** X13: what a finalization reports, at the two places the hook finalizes.
    When the FID timeout fires, and when the closure of the first input runs
    on an instance that holds metrics and is not finalized, the step
    finalizes and the report is made of the metrics held before the step:
    the first-frame fields are kept; the first input is the captured record
    (absent if none was captured when the timeout fires, the record the
    closure has just measured otherwise); the TTI fields are absent if
    [markInteractive] was never called, and otherwise reconciled with its
    timestamp [t]: [t - mount] and [t] when [t] is truthy, while a timestamp
    of 0 is left out of the report. *)
Theorem final_report_contents :
  (forall s id, reachable s -> is_pending id s = true ->
     exists current s' finalMetrics finalScore,
       metricsRef s = Some current /\
       step s (TimerFires id) = Some s' /\
       metricsRef s' = Some finalMetrics /\
       filter is_report_call (out s')
         = (if onReport options then [CallOnReport finalMetrics finalScore] else []) /\
       timeToFirstFrameMs finalMetrics = timeToFirstFrameMs current /\
       firstFrameTimeMs finalMetrics = firstFrameTimeMs current /\
       firstInputDelay finalMetrics = firstInputDelayRef s /\
       reconciled_tti s finalMetrics) /\
  (forall s inputTime ty rest now current, reachable s ->
     microtasks s = FidTask inputTime ty :: rest ->
     hasLoggedRef s = false -> metricsRef s = Some current ->
     exists s' finalMetrics finalScore,
       step s (RunMicrotask now) = Some s' /\
       metricsRef s' = Some finalMetrics /\
       filter is_report_call (out s')
         = (if onReport options then [CallOnReport finalMetrics finalScore] else []) /\
       timeToFirstFrameMs finalMetrics = timeToFirstFrameMs current /\
       firstFrameTimeMs finalMetrics = firstFrameTimeMs current /\
       firstInputDelay finalMetrics = Some (fid_record inputTime ty now) /\
       reconciled_tti s finalMetrics).
Proof.
  split.
  - intros s id Hr Hp.
    pose proof (reachable_inv isDev options s Hr) as I.
    destruct (reachable_inv2 s Hr) as (mountTime & I2).
    pose proof (reachable_fid_records s Hr) as F.
    destruct (pending_not_logged options id s I Hp) as [Hl Hm].
    destruct (metricsRef s) as [current|] eqn:Hcur; [|contradiction].
    set (mid := when debug (emit (ConsoleLog (LogFidTimeout logPrefix fidTimeout)))
                  (clearTimeout id s)).
    assert (Hmid : metricsRef mid = Some current /\ hasLoggedRef mid = false /\
                   finalMetricsOf current mid = finalMetricsOf current s /\
                   interactiveTimeMsRef mid = interactiveTimeMsRef s /\
                   mountStartTimeMsRef mid = mountStartTimeMsRef s).
    { subst mid. unfold finalMetricsOf. destruct debug; fields; auto. }
    destruct Hmid as (Hm1 & Hl1 & Hfin & Hi1 & Hmount1).
    destruct (logFinalMetrics_report mountTime mid current) as (s' & finalScore & E & Hm' & Hout & Htti);
      [apply console_log_inv, timer_removed_inv, I
      |apply console_log_inv2, clearTimeout_inv2, I2
      |exact Hm1 | exact Hl1 |].
    exists current, s', (finalMetricsOf current s), finalScore.
    split; [reflexivity|]. split.
    { cbn [Hook.step]. rewrite Hp. exact E. }
    rewrite Hfin in Hm', Hout, Htti.
    split; [exact Hm'|]. split; [exact Hout|].
    split; [reflexivity|]. split; [reflexivity|]. split.
    + cbn [finalMetricsOf firstInputDelay].
      pose proof (fid_metricsRef s F) as Hfid. rewrite Hcur in Hfid. cbn in Hfid.
      unfold JS.or_object. destruct (firstInputDelayRef s) eqn:Href; [reflexivity|].
      destruct Hfid as [E0|E0]; congruence.
    + unfold reconciled_tti in *. now rewrite Hi1, Hmount1 in Htti.
  - intros s inputTime ty rest now current Hr Hq Hl Hm.
    pose proof (reachable_inv isDev options s Hr) as I.
    destruct (reachable_inv2 s Hr) as (mountTime & I2).
    pose proof (set_microtasks_inv options rest _ s I Hq) as I0.
    destruct (recordFid_inv options inputTime ty now _ I0) as (s1 & H1 & I1).
    pose proof (recordFid_inv2 mountTime _ _ _ _ _ H1 (set_microtasks_inv2 mountTime rest s I2))
      as I21.
    destruct (recordFid_fields _ _ _ _ _ current H1 Hm)
      as (Hm1 & Href1 & Hl1 & Hi1 & Hmount1).
    cbn [hasLoggedRef set_microtasks interactiveTimeMsRef mountStartTimeMsRef]
      in Hl1, Hi1, Hmount1.
    destruct (logFinalMetrics_report mountTime s1 _ I1 I21 Hm1)
      as (s' & finalScore & E & Hm' & Hout & Htti); [congruence|].
    eexists s', _, finalScore.
    split.
    { cbn [Hook.step]. rewrite Hq. cbv zeta. rewrite runFidTask_unfold, H1.
      cbn [JS.bind]. exact E. }
    split; [exact Hm'|]. split; [exact Hout|].
    split; [reflexivity|]. split; [reflexivity|]. split.
    + cbn [finalMetricsOf firstInputDelay]. now rewrite Href1.
    + unfold reconciled_tti in *. now rewrite Hi1, Hmount1 in Htti.
Qed.

(** X14: an input processed after the instance was finalized (by the timeout)
    still becomes the first-input record, updates the metrics and is passed
    to [onMetricsReady]; nothing is reported again. *)
Theorem late_input_not_reported s inputTime ty rest now :
  reachable s -> hasLoggedRef s = true ->
  microtasks s = FidTask inputTime ty :: rest ->
  exists s' current,
    let fidMetrics := {| firstInputDelayMs := now - inputTime;
                         firstInputTimeMs := inputTime;
                         inputProcessingStartTimeMs := now;
                         inputType := ty |} in
    let updatedMetrics := {| timeToFirstFrameMs := timeToFirstFrameMs current;
                             timeToInteractiveMs := timeToInteractiveMs current;
                             firstInputDelay := Some fidMetrics;
                             mountStartTimeMs := mountStartTimeMs current;
                             firstFrameTimeMs := firstFrameTimeMs current;
                             interactiveTimeMs := interactiveTimeMs current |} in
    metricsRef s = Some current /\
    step s (RunMicrotask now) = Some s' /\
    hasLoggedRef s' = true /\
    firstInputDelayRef s' = Some fidMetrics /\
    metricsRef s' = Some updatedMetrics /\
    out s' = out s
             ++ (if onMetricsReady options then [CallOnMetricsReady updatedMetrics]
                 else []).
Proof.
  intros Hr Hl Hq. pose proof (reachable_inv isDev options s Hr) as I.
  destruct (metricsRef s) as [current|] eqn:Hm;
    [|now destruct (inv_logged_metrics options s I Hl)].
  cbn [Hook.step]. rewrite Hq. cbv zeta.
  unfold Hook.runFidTask. cbv zeta. fields. rewrite Hm. scored.
  eexists _, current. split; [reflexivity|].
  rewrite logFinalMetrics_guarded
    by (right; now destruct (onMetricsReady options)).
  split; [reflexivity|].
  destruct (onMetricsReady options); fields; rewrite ?app_nil_r; auto.
Qed.

(** X15: when the first input finalizes the instance before [markInteractive] is
    called, the later call still records the TTI and notifies
    [onInteractive], but arms no timeout and reports nothing: the TTI never
    reaches [onReport]. *)
Theorem markInteractive_after_report s now :
  reachable s -> hasLoggedRef s = true -> interactiveTimeMsRef s = None ->
  exists s' updatedMetrics,
    markInteractive now s = Some s' /\
    metricsRef s' = Some updatedMetrics /\
    timeToInteractiveMs updatedMetrics = Some (now - mountStartTimeMsRef s) /\
    hasLoggedRef s' = true /\
    timers s' = [] /\ fidTimeoutRef s' = None /\
    filter is_interactive_call (out s')
      = (if onInteractive options then [CallOnInteractive updatedMetrics] else []) /\
    filter is_report_call (out s') = filter is_report_call (out s).
Proof.
  intros Hr Hl Hi. pose proof (reachable_inv isDev options s Hr) as I.
  destruct (inv_logged_no_timer options s I Hl) as [Ht Hf].
  assert (Hcalls : filter is_interactive_call (out s) = []).
  { pose proof (inv_interactive_calls options s I) as H. rewrite Hi in H.
    unfold calls in H. now apply length_zero_iff_nil. }
  unfold Hook.markInteractive. rewrite Hi. cbv zeta. scored.
  eexists _, _. split; [reflexivity|].
  destruct debug, (onInteractive options); fields; rewrite Hl; fields;
    rewrite ?filter_app, ?Hcalls, ?app_nil_r; cbn [filter is_interactive_call
      is_report_call app]; rewrite ?app_nil_r; auto 10.
Qed.

Lemma logFinalMetrics_timers s s' :
  logFinalMetrics s = Some s' -> timers s = [] ->
  timers s' = [] /\ firstFrameTimeMsRef s' = firstFrameTimeMsRef s.
Proof.
  intros H Ht.
  destruct (metricsRef s) as [current|] eqn:Hm;
    [destruct (hasLoggedRef s) eqn:Hl|].
  - rewrite logFinalMetrics_guarded in H by auto. injection H as <-. auto.
  - destruct (logFinalMetrics_finalizes isDev options s current Hm Hl)
      as (finalScore & _ & E).
    rewrite E in H. injection H as <-. fields. rewrite Ht.
    now destruct (fidTimeoutRef s).
  - rewrite logFinalMetrics_guarded in H by auto. injection H as <-. auto.
Qed.

Lemma recordFid_timers inputTime ty now s s' :
  recordFid inputTime ty now s = Some s' -> timers s' = timers s.
Proof.
  unfold HookFacts.recordFid. cbv zeta. fields.
  destruct (metricsRef s) as [current|].
  - scored. intros [= <-]. now destruct (onMetricsReady options).
  - now intros [= <-].
Qed.

(** Once [markInteractive] was called, no event creates a timer. *)
Lemma step_no_timer s e s' t :
  step s e = Some s' -> interactiveTimeMsRef s = Some t -> timers s = [] ->
  timers s' = [].
Proof.
  intros Hstep Hi Ht.
  destruct e as [now|now|handler now|now|id|]; cbn [Hook.step] in Hstep.
  - injection Hstep as <-. unfold Hook.mountEffect.
    now destruct (firstFrameTimeMsRef s).
  - rewrite markInteractive_marked in Hstep by congruence. congruence.
  - injection Hstep as <-. unfold Hook.panResponder, Hook.measureFirstInputDelay.
    now destruct handler, (hasRecordedFirstInputRef s).
  - destruct (microtasks s) as [|[|inputTime ty] rest]; [congruence| |].
    + unfold Hook.runFirstFrameTask in Hstep. fields.
      destruct (firstFrameTimeMsRef s); [|discriminate].
      cbn [JS.bind] in Hstep. cbv zeta in Hstep. revert Hstep. scored.
      intros [= <-]. now destruct debug, (onMetricsReady options).
    + cbv zeta in Hstep. rewrite runFidTask_unfold in Hstep.
      destruct (recordFid inputTime ty now (set_microtasks rest s)) as [s1|] eqn:E1;
        [|discriminate].
      cbn [JS.bind] in Hstep.
      apply (logFinalMetrics_timers _ _ Hstep).
      now rewrite (recordFid_timers _ _ _ _ _ E1).
  - unfold is_pending in Hstep. rewrite Ht in Hstep. cbn in Hstep. congruence.
  - injection Hstep as <-. unfold Hook.unmountCleanup.
    destruct (fidTimeoutRef s); fields; now rewrite Ht.
Qed.

Lemma run_no_timer events : forall s s' t,
  run s events = Some s' -> interactiveTimeMsRef s = Some t -> timers s = [] ->
  timers s' = [].
Proof.
  induction events as [|e events IH]; intros s s' t Hrun Hi Ht; cbn [Hook.run] in Hrun.
  - congruence.
  - destruct (step s e) as [s1|] eqn:Hstep; [|discriminate].
    cbn [JS.bind] in Hrun. apply (IH s1 s' t Hrun).
    + eapply step_interactive; eassumption.
    + eapply step_no_timer; eassumption.
Qed.

(** X16: the cleanup at unmount cancels the pending timeout for good when
    [markInteractive] was called before it: no timer is pending at any later
    point, so the timeout never fires.  A first [markInteractive] that comes
    after the unmount, on an instance not yet finalized, arms the timeout all
    the same. *)
Theorem unmount_cancels_timeout s :
  reachable s ->
  (interactiveTimeMsRef s <> None ->
   forall events s', run (unmountCleanup s) events = Some s' -> timers s' = []) /\
  (interactiveTimeMsRef s = None -> hasLoggedRef s = false ->
   forall now, exists s',
     markInteractive now (unmountCleanup s) = Some s' /\
     timers s' = [(1%positive, fidTimeout)] /\
     fidTimeoutRef s' = Some 1%positive).
Proof.
  intro Hr. pose proof (reachable_inv isDev options s Hr) as I.
  destruct (reachable_inv2 s Hr) as (mountTime & I2).
  split.
  - intros Hi events s' Hrun.
    destruct (interactiveTimeMsRef s) as [t|] eqn:Et; [|contradiction].
    apply (run_no_timer events _ s' t Hrun).
    + unfold Hook.unmountCleanup. now destruct (fidTimeoutRef s).
    + unfold Hook.unmountCleanup.
      destruct (inv_timers options s I) as [E|(id & delay & E & Href)].
      * destruct (fidTimeoutRef s); fields; now rewrite E.
      * rewrite Href. fields. rewrite E. cbn. now rewrite Pos.eqb_refl.
  - intros Hi Hl now.
    destruct (inv_timer_ids _ _ I2) as [(Hn & Ht & Hf)|(_ & Hcontra & _)];
      [|congruence].
    unfold Hook.unmountCleanup. rewrite Hf.
    unfold Hook.markInteractive. rewrite Hi. cbv zeta. scored.
    eexists. split; [reflexivity|].
    destruct debug, (onInteractive options); fields; rewrite Hl, Hf; fields;
      rewrite Hn, Ht; auto.
Qed.

(** The time of the first run of the mount effect. *)
Fixpoint first_mount (events : list Event) : option JS.number :=
  match events with
  | [] => None
  | MountEffect now :: _ => Some now
  | _ :: events => first_mount events
  end.

Lemma first_mount_snoc history e :
  first_mount (history ++ [e])
    = match first_mount history with
      | Some t => Some t
      | None => first_mount [e]
      end.
Proof.
  induction history as [|e' history IH]; [now destruct e|].
  destruct e'; cbn; auto.
Qed.

Lemma markInteractive_first_frame now s s' :
  markInteractive now s = Some s' -> firstFrameTimeMsRef s' = firstFrameTimeMsRef s.
Proof.
  unfold Hook.markInteractive.
  destruct (interactiveTimeMsRef s); [now intros [= <-]|].
  cbv zeta. scored. intros [= <-].
  destruct debug, (onInteractive options); fields;
    now destruct (hasLoggedRef s), (fidTimeoutRef s).
Qed.

Lemma logFinalMetrics_first_frame s s' :
  logFinalMetrics s = Some s' -> firstFrameTimeMsRef s' = firstFrameTimeMsRef s.
Proof.
  destruct (metricsRef s) as [current|] eqn:Hm;
    [destruct (hasLoggedRef s) eqn:Hl|].
  - rewrite logFinalMetrics_guarded by auto. now intros [= <-].
  - destruct (logFinalMetrics_finalizes isDev options s current Hm Hl)
      as (finalScore & _ & ->).
    now intros [= <-].
  - rewrite logFinalMetrics_guarded by auto. now intros [= <-].
Qed.

Lemma recordFid_first_frame inputTime ty now s s' :
  recordFid inputTime ty now s = Some s' ->
  firstFrameTimeMsRef s' = firstFrameTimeMsRef s.
Proof.
  unfold HookFacts.recordFid. cbv zeta. fields.
  destruct (metricsRef s) as [current|].
  - scored. intros [= <-]. now destruct (onMetricsReady options).
  - now intros [= <-].
Qed.

Lemma step_first_frame history s e s' :
  step s e = Some s' -> firstFrameTimeMsRef s = first_mount history ->
  firstFrameTimeMsRef s' = first_mount (history ++ [e]).
Proof.
  intros Hstep H. rewrite first_mount_snoc, <- H.
  assert (Hsame : forall e0, first_mount [e0] = None ->
            firstFrameTimeMsRef s' = firstFrameTimeMsRef s ->
            firstFrameTimeMsRef s'
              = match firstFrameTimeMsRef s with
                | Some t => Some t
                | None => first_mount [e0]
                end).
  { intros e0 -> ->. now destruct (firstFrameTimeMsRef s). }
  destruct e as [now|now|handler now|now|id|]; cbn [Hook.step] in Hstep;
    try (apply Hsame; [reflexivity|]).
  - injection Hstep as <-. unfold Hook.mountEffect. cbn [first_mount].
    destruct (firstFrameTimeMsRef s) eqn:E; fields; now rewrite ?E.
  - apply (markInteractive_first_frame _ _ _ Hstep).
  - injection Hstep as <-. unfold Hook.panResponder, Hook.measureFirstInputDelay.
    now destruct handler, (hasRecordedFirstInputRef s).
  - destruct (microtasks s) as [|[|inputTime ty] rest].
    + now injection Hstep as <-.
    + unfold Hook.runFirstFrameTask in Hstep. fields.
      destruct (firstFrameTimeMsRef s) eqn:E; [|discriminate].
      cbn [JS.bind] in Hstep. cbv zeta in Hstep. revert Hstep. scored.
      intros [= <-]. destruct debug, (onMetricsReady options); fields; now rewrite E.
    + cbv zeta in Hstep. rewrite runFidTask_unfold in Hstep.
      destruct (recordFid inputTime ty now (set_microtasks rest s)) as [s1|] eqn:E1;
        [|discriminate].
      cbn [JS.bind] in Hstep.
      now rewrite (logFinalMetrics_first_frame _ _ Hstep),
        (recordFid_first_frame _ _ _ _ _ E1).
  - destruct (is_pending id s); [|now injection Hstep as <-].
    unfold Hook.fidTimeoutCallback in Hstep. cbv zeta in Hstep.
    rewrite (logFinalMetrics_first_frame _ _ Hstep). now destruct debug.
  - injection Hstep as <-. unfold Hook.unmountCleanup.
    now destruct (fidTimeoutRef s).
Qed.

Lemma run_first_frame events : forall history s s',
  run s events = Some s' -> firstFrameTimeMsRef s = first_mount history ->
  firstFrameTimeMsRef s' = first_mount (history ++ events).
Proof.
  induction events as [|e events IH]; intros history s s' Hrun H; cbn [Hook.run] in Hrun.
  - injection Hrun as <-. now rewrite app_nil_r.
  - destruct (step s e) as [s1|] eqn:Hstep; [|discriminate].
    cbn [JS.bind] in Hrun.
    replace (history ++ e :: events) with ((history ++ [e]) ++ events)
      by now rewrite <- app_assoc.
    eapply IH; [exact Hrun|]. eapply step_first_frame; eassumption.
Qed.

(** X17: the first-frame time is that of the first run of the mount effect: a
    re-run of the effect does not move it.  Each time the closure the
    effect queues runs, it publishes fresh metrics: the TTFF from the mount
    to that first run, and neither TTI nor first input, whatever was
    captured before. *)
Theorem first_frame_metrics mountTime events s rest now :
  run (init mountTime) events = Some s ->
  microtasks s = FirstFrameTask :: rest ->
  exists firstFrameTime s',
    let initialMetrics := {| timeToFirstFrameMs := firstFrameTime - mountTime;
                             timeToInteractiveMs := None;
                             firstInputDelay := None;
                             mountStartTimeMs := mountTime;
                             firstFrameTimeMs := firstFrameTime;
                             interactiveTimeMs := None |} in
    first_mount events = Some firstFrameTime /\
    firstFrameTimeMsRef s = Some firstFrameTime /\
    step s (RunMicrotask now) = Some s' /\
    metricsRef s' = Some initialMetrics /\
    out s' = out s
             ++ (if debug
                 then [ConsoleLog (LogTTFF logPrefix (firstFrameTime - mountTime))]
                 else [])
             ++ (if onMetricsReady options then [CallOnMetricsReady initialMetrics]
                 else []).
Proof.
  intros Hrun Hq.
  pose proof (run_first_frame events [] _ _ Hrun eq_refl) as Hff. cbn [app] in Hff.
  pose proof (run_inv2 mountTime events _ _ Hrun (init_inv2 mountTime)) as I2.
  pose proof (inv_mount _ _ I2) as Hmount.
  assert (I : Inv options s).
  { destruct (run_inv isDev options events (init mountTime) (init_inv options mountTime))
      as (s0 & Hs0 & I0). congruence. }
  destruct (firstFrameTimeMsRef s) as [firstFrameTime|] eqn:E;
    [|exfalso; apply (inv_first_frame options s I); [rewrite Hq; now left | exact E]].
  exists firstFrameTime. cbn [Hook.step]. rewrite Hq.
  unfold Hook.runFirstFrameTask. fields. rewrite E, Hmount. cbn [JS.bind]. cbv zeta.
  scored. eexists. split; [now rewrite <- Hff|]. split; [reflexivity|].
  split; [reflexivity|].
  destruct debug, (onMetricsReady options); fields;
    rewrite ?app_nil_r, <- ?app_assoc; auto.
Qed.

End Instance.

(** *** Sample runs *)

Lemma first_input_delay_measured_witness :
  firstInputDelayMs first_touch
    = inputProcessingStartTimeMs first_touch - firstInputTimeMs first_touch.
Proof.
  destruct (first_input_delay_measured false sample_options 1000 two_gestures)
    as (s & Hs & Hwf).
  apply Hwf. left.
  vm_compute in Hs. injection Hs as Hs. subst s. reflexivity.
Defined.

Lemma final_report_contents_witness :
  (exists current s' finalMetrics finalScore,
     metricsRef interactive_state = Some current /\
     step false sample_options interactive_state (TimerFires 1%positive) = Some s' /\
     filter is_report_call (out s') = [CallOnReport finalMetrics finalScore] /\
     firstInputDelay finalMetrics = None /\
     timeToInteractiveMs finalMetrics = Some (1200 - 1000)) /\
  (exists current s' finalMetrics finalScore,
     metricsRef gesture_state = Some current /\
     step false sample_options gesture_state (RunMicrotask 1310) = Some s' /\
     filter is_report_call (out s') = [CallOnReport finalMetrics finalScore] /\
     firstInputDelay finalMetrics = Some (fid_record 1300 touch 1310) /\
     timeToInteractiveMs finalMetrics = Some (1200 - 1000)).
Proof.
  destruct (final_report_contents false sample_options) as [Htimer Hinput].
  split.
  - destruct (Htimer interactive_state 1%positive interactive_state_reachable eq_refl)
      as (current & s' & finalMetrics & finalScore & Hm & Hs' & _ & Hout & _ & _ & Hfid & Htti).
    exists current, s', finalMetrics, finalScore.
    split; [exact Hm|]. split; [exact Hs'|]. split; [exact Hout|]. split; [exact Hfid|].
    unfold reconciled_tti in Htti. cbn [interactiveTimeMsRef interactive_state] in Htti.
    destruct Htti as [Htti _]. destruct (Htti eq_refl) as [H _]. exact H.
  - destruct (metricsRef gesture_state) as [current|] eqn:Hm; [|discriminate].
    destruct (Hinput gesture_state 1300 touch [] 1310 current
                gesture_state_reachable eq_refl eq_refl Hm)
      as (s' & finalMetrics & finalScore & Hs' & _ & Hout & _ & _ & Hfid & Htti).
    exists current, s', finalMetrics, finalScore.
    split; [reflexivity|]. split; [exact Hs'|]. split; [exact Hout|]. split; [exact Hfid|].
    unfold reconciled_tti in Htti. cbn [interactiveTimeMsRef gesture_state] in Htti.
    destruct Htti as [Htti _]. destruct (Htti eq_refl) as [H _]. exact H.
Defined.

(** Finalized by the timeout, then touched at 1300. *)
Definition touched_late : list Event :=
  until_interactive ++ [TimerFires 1%positive; Gesture onStartShouldSetPanResponder 1300].

Definition touched_late_state : State := Eval vm_compute in state_after touched_late.

Lemma late_input_not_reported_witness :
  exists s' current,
    metricsRef touched_late_state = Some current /\
    step false sample_options touched_late_state (RunMicrotask 1310) = Some s' /\
    hasLoggedRef s' = true /\
    firstInputDelayRef s' = Some first_touch /\
    out s' = out touched_late_state
             ++ [CallOnMetricsReady
                   {| timeToFirstFrameMs := timeToFirstFrameMs current;
                      timeToInteractiveMs := timeToInteractiveMs current;
                      firstInputDelay := Some first_touch;
                      mountStartTimeMs := mountStartTimeMs current;
                      firstFrameTimeMs := firstFrameTimeMs current;
                      interactiveTimeMs := interactiveTimeMs current |}].
Proof.
  destruct (late_input_not_reported false sample_options touched_late_state
              1300 touch [] 1310)
    as (s' & current & Hm & Hstep & Hl & Href & _ & Hout).
  - exists 1000, touched_late. vm_compute. reflexivity.
  - reflexivity.
  - reflexivity.
  - exists s', current. repeat (split; [assumption|]). exact Hout.
Defined.

(** Finalized by a touch processed before [markInteractive] is called. *)
Definition input_first_state : State :=
  Eval vm_compute in
    state_after [MountEffect 1100; RunMicrotask 1100;
                 Gesture onStartShouldSetPanResponder 1300; RunMicrotask 1310].

Lemma markInteractive_after_report_witness :
  exists s' updatedMetrics,
    markInteractive false sample_options 1500 input_first_state = Some s' /\
    timeToInteractiveMs updatedMetrics = Some (1500 - 1000) /\
    metricsRef s' = Some updatedMetrics /\
    timers s' = [] /\
    filter is_report_call (out s') = filter is_report_call (out input_first_state).
Proof.
  destruct (markInteractive_after_report false sample_options input_first_state 1500)
    as (s' & m & Hs' & Hm & Htti & _ & Ht & _ & _ & Hrep).
  - exists 1000, [MountEffect 1100; RunMicrotask 1100;
                  Gesture onStartShouldSetPanResponder 1300; RunMicrotask 1310].
    vm_compute. reflexivity.
  - reflexivity.
  - reflexivity.
  - exists s', m. auto.
Defined.

Definition first_frame_state : State :=
  Eval vm_compute in state_after [MountEffect 1100; RunMicrotask 1100].

Lemma unmount_cancels_timeout_witness :
  (forall s', run false sample_options (unmountCleanup interactive_state)
                [TimerFires 1%positive] = Some s' -> timers s' = []) /\
  exists s',
    markInteractive false sample_options 1200 (unmountCleanup first_frame_state) = Some s' /\
    timers s' = [(1%positive, fidTimeout sample_options)] /\
    fidTimeoutRef s' = Some 1%positive.
Proof.
  split.
  - destruct (unmount_cancels_timeout false sample_options interactive_state
                interactive_state_reachable) as [H _].
    apply H. cbn. discriminate.
  - assert (Hr : HookFacts.reachable false sample_options first_frame_state)
      by (exists 1000, [MountEffect 1100; RunMicrotask 1100]; vm_compute; reflexivity).
    destruct (unmount_cancels_timeout false sample_options first_frame_state Hr)
      as [_ H].
    apply H; reflexivity.
Defined.

(** [markInteractive] between the mount effect and its closure, then a
    re-run of the effect. *)
Definition effect_twice : list Event :=
  [MountEffect 1100; MarkInteractive 1200; MountEffect 1150].

Definition effect_twice_state : State := Eval vm_compute in state_after effect_twice.

Lemma first_frame_metrics_witness :
  exists s',
    step false sample_options effect_twice_state (RunMicrotask 1250) = Some s' /\
    metricsRef s' = Some {| timeToFirstFrameMs := 1100 - 1000;
                            timeToInteractiveMs := None;
                            firstInputDelay := None;
                            mountStartTimeMs := 1000;
                            firstFrameTimeMs := 1100;
                            interactiveTimeMs := None |}.
Proof.
  destruct (first_frame_metrics false sample_options 1000 effect_twice
              effect_twice_state [FirstFrameTask] 1250)
    as (firstFrameTime & s' & Hfirst & _ & Hstep & Hm & _).
  - vm_compute. reflexivity.
  - reflexivity.
  - injection Hfirst as <-. exists s'. auto.
Defined.

End HookExtra.

(** ** scoring.ts: display helpers *)

Module Display.




(** The string of a number that is an integer below 10^21 in absolute
    value: its decimal digits.  How other numbers print depends on their
    binary64 value and is left out. *)
Definition number_to_string (x : JS.number) : option string :=
  let z := Qfloor x in
  if (Qeq_bool x (inject_Z z) && Z.ltb (Z.abs z) (10 ^ 21))%bool
  then Some (DecimalString.NilZero.string_of_int (Z.to_int z))
  else None.


Definition getScoreColor (c : Category) : string :=
  match c with
  | excellent => "#0cce6b"
  | good_category => "#ffa400"
  | needs_improvement => "#ff6d00"
  | poor_category => "#ff0000"
  end.

End Display.

Module DisplayFacts.
Import Scoring ScoringFacts Display.

(** The decimal digits of an integer. *)
Definition decimal (z : Z) : string :=
  DecimalString.NilZero.string_of_int (Z.to_int z).

Lemma number_to_string_integer (z : Z) :
  (Z.abs z < 10 ^ 21)%Z -> number_to_string (inject_Z z) = Some (decimal z).
Proof.
  intro H. unfold number_to_string. cbv zeta. rewrite Qfloor_Z.
  rewrite (proj2 (Qeq_bool_iff _ _) (Qeq_refl _)).
  apply Z.ltb_lt in H. now rewrite H.
Qed.


(** X7: two categories never share a colour: the colour tells the category. *)
Theorem getScoreColor_injective c1 c2 :
  getScoreColor c1 = getScoreColor c2 -> c1 = c2.
Proof. destruct c1, c2; cbn; intro H; try reflexivity; discriminate H. Qed.

Lemma getScoreColor_injective_witness :
  getScoreCategory 92 = getScoreCategory 100.
Proof. apply getScoreColor_injective. reflexivity. Defined.




End DisplayFacts.
